(** * Windows Folder Designer: the icon codec and the layer engine

    A shallow embedding of the ICO container reader and writer, of the
    best-match selection, of the raw-bitmap decoder and of the layer
    rendering dispatch of the repository, with the properties that the
    specification states about them.

    Conventions of the embedding.
    - A [Buffer], [Uint8Array] or [ArrayBuffer] is a [list byte].
    - A JavaScript number that holds an integer is a [Z]; a list position
      is a [nat].
    - A function that can throw returns a [result]; the constructor of the
      error names the message of the [Error] that the source throws.
    - A [Record<string, T>] keyed by [size.toString()] is a [gmap Z T]
      keyed by the size itself: the decimal rendering of an integer is
      injective, and [Number] is its inverse on such keys. *)

From Stdlib Require Import ZArith Lia QArith Qcanon.
From Stdlib Require Import Strings.Byte Strings.String Strings.Ascii.
From stdpp Require Import base tactics option list strings gmap sorting.

Local Open Scope Z_scope.

(** ** Errors and the error monad *)

(** The messages thrown by the readers, and the two errors of the runtime
    itself ([RangeError] of a read or write outside a buffer, [TypeError]
    of a property access on [undefined]). *)
Inductive IcoError : Type :=
  | TooSmall                 (* 'Invalid ICO file: too small' *)
  | IncorrectHeader          (* 'Invalid ICO file: incorrect header' *)
  | InvalidImageCount        (* 'Invalid ICO file: invalid image count' *)
  | TruncatedDirectoryEntry  (* 'Invalid ICO file: truncated directory entry' *)
  | ImageDataOutOfBounds     (* 'Invalid ICO file: image data out of bounds' *)
  | InvalidFile              (* 'Invalid ICO file: file format or size is invalid' *)
  | BmpDataTooSmall          (* 'BMP data too small for WxH image' *)
  | RangeError
  | TypeError.

Inductive result (A : Type) : Type :=
  | Ok (a : A)
  | Err (e : IcoError).
Arguments Ok {A} a.
Arguments Err {A} e.

Definition bind {A B} (m : result A) (k : A -> result B) : result B :=
  match m with
  | Ok a => k a
  | Err e => Err e
  end.

Declare Scope result_scope.
Delimit Scope result_scope with result.
Notation "'let*' x ':=' m 'in' k" := (bind m (fun x => k))
  (at level 10, x name, m at level 200, k at level 200,
   format "'[v' 'let*'  x  ':='  m  'in' '/' k ']'") : result_scope.
Local Open Scope result_scope.

Definition is_Err {A} (r : result A) : Prop :=
  match r with Ok _ => False | Err _ => True end.

Definition is_Ok {A} (r : result A) : Prop :=
  match r with Ok _ => True | Err _ => False end.

(** The errors that report a malformed container. *)
Definition FormatError (e : IcoError) : Prop :=
  e = TooSmall \/ e = IncorrectHeader \/ e = InvalidImageCount \/
  e = TruncatedDirectoryEntry \/ e = ImageDataOutOfBounds \/ e = InvalidFile.

(** ** Bytes *)

Definition byte_val (b : byte) : Z := Z.of_N (Byte.to_N b).

(** The conversion [ToUint8] of a typed-array store: the value modulo 256. *)
Definition byte_of_Z (z : Z) : byte :=
  match Byte.of_N (Z.to_N (z mod 256)) with
  | Some b => b
  | None => x00
  end.

(** The little-endian bytes of a value, [k] of them, lowest first. *)
Fixpoint le_bytes (k : nat) (z : Z) : list byte :=
  match k with
  | O => []
  | S k' => byte_of_Z z :: le_bytes k' (z / 256)
  end.

(** The value of little-endian bytes. *)
Fixpoint le_value (bs : list byte) : Z :=
  match bs with
  | [] => 0
  | b :: bs' => byte_val b + 256 * le_value bs'
  end.

(** ** Reads of a Node [Buffer] ([src/server/services/ico-parser.ts]) *)

Definition readUInt8 (buf : list byte) (off : nat) : result Z :=
  match buf !! off with
  | Some b => Ok (byte_val b)
  | None => Err RangeError
  end.

Definition readUInt16LE (buf : list byte) (off : nat) : result Z :=
  let* b0 := readUInt8 buf off in
  let* b1 := readUInt8 buf (off + 1) in
  Ok (b0 + 256 * b1).

Definition readUInt32LE (buf : list byte) (off : nat) : result Z :=
  let* b0 := readUInt8 buf off in
  let* b1 := readUInt8 buf (off + 1) in
  let* b2 := readUInt8 buf (off + 2) in
  let* b3 := readUInt8 buf (off + 3) in
  Ok (b0 + 256 * b1 + 65536 * b2 + 16777216 * b3).

(** [buf.subarray(start, end)] for [0 <= start <= end]. *)
Definition subarray (buf : list byte) (start stop : Z) : list byte :=
  take (Z.to_nat stop - Z.to_nat start) (drop (Z.to_nat start) buf).

(** ** The parsed image *)

Inductive ImageFormat : Type := png | bmp.

Record IcoImage : Type := mkIcoImage {
  width : Z;
  height : Z;
  buffer : list byte;
  format : ImageFormat
}.

Global Instance ImageFormat_eq_dec : EqDecision ImageFormat.
Proof. solve_decision. Defined.

(** The magic-byte test of the readers: at least eight bytes, of which the
    first four are 89 50 4E 47. *)
Definition detect_format (imageBuffer : list byte) : ImageFormat :=
  if decide (8 <= length imageBuffer)%nat then
    match imageBuffer with
    | b0 :: b1 :: b2 :: b3 :: _ =>
        if decide (byte_val b0 = 137 /\ byte_val b1 = 80 /\
                   byte_val b2 = 78 /\ byte_val b3 = 71)
        then png else bmp
    | _ => bmp
    end
  else bmp.

(** ** [Array.prototype.reduce], [sort] and the canonical sizes *)

(** [arr.reduce(f)] without an initial value: the first element seeds the
    accumulator, and an empty array is a [TypeError]. *)
Definition reduce {A} (f : A -> A -> A) (arr : list A) : result A :=
  match arr with
  | [] => Err TypeError
  | x :: rest => Ok (foldl f x rest)
  end.

(** [arr.sort(cmp)]: a stable sort; [x] goes before the first [y] that it
    does not have to follow ([cmp x y <= 0]). *)
Fixpoint js_insert {A} (cmp : A -> A -> Z) (x : A) (l : list A) : list A :=
  match l with
  | [] => [x]
  | y :: l' =>
      if decide (cmp x y <= 0) then x :: y :: l' else y :: js_insert cmp x l'
  end.

Definition js_sort {A} (cmp : A -> A -> Z) (l : list A) : list A :=
  foldr (js_insert cmp) [] l.

(** [ICON_SIZES] and [targetSizes]. *)
Definition ICON_SIZES : list Z := [16; 20; 24; 32; 40; 64; 256].

(** ** [IcoParser] ([src/server/services/ico-parser.ts]) *)

Module IcoParser.

(** [parse] (15-84). *)

(** The body of the [for] loop, [remaining] iterations from index [i]. *)
Fixpoint parse_entries (icoBuffer : list byte) (remaining : nat) (i : nat)
    (images : list IcoImage) : result (list IcoImage) :=
  match remaining with
  | O => Ok images
  | S remaining' =>
      let entryOffset := (6 + i * 16)%nat in
      if decide (length icoBuffer < entryOffset + 16)%nat
      then Err TruncatedDirectoryEntry
      else
        let* w := readUInt8 icoBuffer entryOffset in
        let width := if decide (w = 0) then 256 else w in
        let* h := readUInt8 icoBuffer (entryOffset + 1) in
        let height := if decide (h = 0) then 256 else h in
        let* imageSize := readUInt32LE icoBuffer (entryOffset + 8) in
        let* imageOffset := readUInt32LE icoBuffer (entryOffset + 12) in
        if decide (Z.of_nat (length icoBuffer) < imageOffset + imageSize)
        then Err ImageDataOutOfBounds
        else
          let imageBuffer :=
            subarray icoBuffer imageOffset (imageOffset + imageSize) in
          let format := detect_format imageBuffer in
          parse_entries icoBuffer remaining' (S i)
            (images ++ [mkIcoImage width height imageBuffer format])
  end.

Definition parse (icoBuffer : list byte) : result (list IcoImage) :=
  if decide (length icoBuffer < 6)%nat then Err TooSmall
  else
    let* reserved := readUInt16LE icoBuffer 0 in
    let* type := readUInt16LE icoBuffer 2 in
    let* count := readUInt16LE icoBuffer 4 in
    if decide (reserved <> 0 \/ type <> 1) then Err IncorrectHeader
    else if decide (count = 0 \/ 255 < count) then Err InvalidImageCount
    else parse_entries icoBuffer (Z.to_nat count) 0 [].

(** [getBestMatch] (104-131). *)
Definition getBestMatch (images : list IcoImage) (targetSize : Z)
    : result (option IcoImage) :=
  if decide (length images = 0)%nat then Ok None
  else
    match
      find (fun img =>
        bool_decide (width img = targetSize /\ height img = targetSize)) images
    with
    | Some exactMatch => Ok (Some exactMatch)
    | None =>
        let largerSizes :=
          filter (fun img => targetSize <= Z.max (width img) (height img))
            images in
        if decide (0 < length largerSizes)%nat then
          let* r := reduce (fun closest current =>
            let closestSize := Z.max (width closest) (height closest) in
            let currentSize := Z.max (width current) (height current) in
            if decide (currentSize < closestSize) then current else closest)
            largerSizes in
          Ok (Some r)
        else
          let* r := reduce (fun largest current =>
            let largestSize := Z.max (width largest) (height largest) in
            let currentSize := Z.max (width current) (height current) in
            if decide (largestSize < currentSize) then current else largest)
            images in
          Ok (Some r)
    end.

End IcoParser.

(** ** The client reader ([src/client/src/lib/ico-processor.ts]) *)

(** A [DataView] over [dv_length] bytes of a buffer from [dv_offset]. *)
Record DataView : Type := mkDataView {
  dv_buffer : list byte;
  dv_offset : nat;
  dv_length : nat
}.

(** [new DataView(buffer)]. *)
Definition DataView_whole (arrayBuffer : list byte) : DataView :=
  mkDataView arrayBuffer 0 (length arrayBuffer).

(** [new DataView(buffer, byteOffset, byteLength)]. *)
Definition DataView_new (arrayBuffer : list byte) (byteOffset byteLength : nat)
    : result DataView :=
  if decide (length arrayBuffer < byteOffset + byteLength)%nat
  then Err RangeError
  else Ok (mkDataView arrayBuffer byteOffset byteLength).

Definition getUint8 (view : DataView) (off : nat) : result Z :=
  if decide (dv_length view < off + 1)%nat then Err RangeError
  else readUInt8 (dv_buffer view) (dv_offset view + off).

(** [view.getUint16(off, true)]. *)
Definition getUint16 (view : DataView) (off : nat) : result Z :=
  if decide (dv_length view < off + 2)%nat then Err RangeError
  else readUInt16LE (dv_buffer view) (dv_offset view + off).

(** [view.getUint32(off, true)]. *)
Definition getUint32 (view : DataView) (off : nat) : result Z :=
  if decide (dv_length view < off + 4)%nat then Err RangeError
  else readUInt32LE (dv_buffer view) (dv_offset view + off).

(** A [File]: its name and its content ([file.size] is the length). *)
Record File : Type := mkFile {
  file_name : string;
  file_bytes : list byte
}.

(** The selection of both versions of the client file (111-130 and
    481-500 carry the same text). *)
Definition client_getBestMatch (images : list IcoImage) (targetSize : Z)
    : result (option IcoImage) :=
  if decide (length images = 0)%nat then Ok None
  else
    match
      find (fun img =>
        bool_decide (width img = targetSize /\ height img = targetSize)) images
    with
    | Some exactMatch => Ok (Some exactMatch)
    | None =>
        let largerImages :=
          filter (fun img =>
            targetSize <= width img /\ targetSize <= height img) images in
        if decide (0 < length largerImages)%nat then
          let* r := reduce (fun best current =>
            if decide (width current * height current
                         < width best * height best)
            then current else best) largerImages in
          Ok (Some r)
        else
          let* r := reduce (fun best current =>
            if decide (width best * height best
                         < width current * height current)
            then current else best) images in
          Ok (Some r)
    end.

(** The directory pass shared by both versions (lines 37-77 and 244-288):
    the loop that fills [images]. *)
Fixpoint client_parse_entries (arrayBuffer : list byte) (remaining : nat)
    (i : nat) (images : list IcoImage) : result (list IcoImage) :=
  match remaining with
  | O => Ok images
  | S remaining' =>
      let entryOffset := (6 + i * 16)%nat in
      if decide (length arrayBuffer < entryOffset + 16)%nat
      then Err TruncatedDirectoryEntry
      else
        let* entryView := DataView_new arrayBuffer entryOffset 16 in
        let* w := getUint8 entryView 0 in
        let width := if decide (w = 0) then 256 else w in
        let* h := getUint8 entryView 1 in
        let height := if decide (h = 0) then 256 else h in
        let* imageSize := getUint32 entryView 8 in
        let* imageOffset := getUint32 entryView 12 in
        if decide (Z.of_nat (length arrayBuffer) < imageOffset + imageSize)
        then Err ImageDataOutOfBounds
        else
          let imageData :=
            subarray arrayBuffer imageOffset (imageOffset + imageSize) in
          let format := detect_format imageData in
          client_parse_entries arrayBuffer remaining' (S i)
            (images ++ [mkIcoImage width height imageData format])
  end.

Definition client_parse_header (arrayBuffer : list byte)
    : result (list IcoImage) :=
  if decide (length arrayBuffer < 6)%nat then Err TooSmall
  else
    let view := DataView_whole arrayBuffer in
    let* reserved := getUint16 view 0 in
    let* type := getUint16 view 2 in
    let* count := getUint16 view 4 in
    if decide (reserved <> 0 \/ type <> 1) then Err IncorrectHeader
    else if decide (count = 0 \/ 255 < count) then Err InvalidImageCount
    else client_parse_entries arrayBuffer (Z.to_nat count) 0 [].

(** The first version of the file (lines 1-182). [parseIcoFile] is the
    part of the function that can throw, lines 16-77; the loop over
    [targetSizes] that follows catches its own errors. *)
Module ClientIcoProcessorV1.

Definition getBestMatch := client_getBestMatch.

Definition parseIcoFile (file : File) : result (list IcoImage) :=
  client_parse_header (file_bytes file).

End ClientIcoProcessorV1.

(** The second version of the file (lines 182-561). *)
Module ClientIcoProcessor.

Definition getBestMatch := client_getBestMatch.

(** [c.toLowerCase()] on the letters that matter for the suffix test. *)
Definition ascii_lower (c : ascii) : ascii :=
  let n := nat_of_ascii c in
  if decide (65 <= n /\ n <= 90)%nat then ascii_of_nat (n + 32) else c.

Fixpoint toLowerCase (s : string) : string :=
  match s with
  | EmptyString => EmptyString
  | String c s' => String (ascii_lower c) (toLowerCase s')
  end.

Definition endsWith (s suffix : string) : bool :=
  let n := String.length s in
  let k := String.length suffix in
  if decide (k <= n)%nat
  then String.eqb (String.substring (n - k) k s) suffix
  else false.

(** [validateIcoFile] (196-208). *)
Definition validateIcoFile (file : File) : bool :=
  if negb (endsWith (toLowerCase (file_name file)) ".ico") then false
  else if decide (length (file_bytes file) < 22)%nat then false
  else true.

(** [parseIcoFile], the part that can throw (lines 216-288). *)
Definition parseIcoFile (file : File) : result (list IcoImage) :=
  if negb (validateIcoFile file) then Err InvalidFile
  else client_parse_header (file_bytes file).

(** ** [parseBmpToRgba] (398-432)

    The dimensions are those of a parsed image, whole numbers from 1 to
    256; they are natural numbers here. *)

(** [arr[i]] read as a byte to store: [undefined] is stored as 0. *)
Definition get_byte (arr : list byte) (i : nat) : byte :=
  default x00 (arr !! i).

(** The body of the inner loop: one pixel. *)
Definition bmp_pixel (bmpBuffer : list byte) (width height : nat)
    (y x : nat) (rgbaData : list byte) : list byte :=
  let dataOffset := 40%nat in
  let sourceIndex := (dataOffset + ((height - 1 - y) * width + x) * 4)%nat in
  let targetIndex := ((y * width + x) * 4)%nat in
  let rgbaData := <[targetIndex := get_byte bmpBuffer (sourceIndex + 2)]> rgbaData in
  let rgbaData := <[(targetIndex + 1)%nat := get_byte bmpBuffer (sourceIndex + 1)]> rgbaData in
  let rgbaData := <[(targetIndex + 2)%nat := get_byte bmpBuffer sourceIndex]> rgbaData in
  let rgbaData := <[(targetIndex + 3)%nat := get_byte bmpBuffer (sourceIndex + 3)]> rgbaData in
  rgbaData.

Definition parseBmpToRgba (bmpBuffer : list byte) (width height : nat)
    : result (list byte) :=
  let rgbaData := replicate (width * height * 4) x00 in
  let headerSize := 40%nat in
  let dataOffset := headerSize in
  if decide (length bmpBuffer < dataOffset + width * height * 4)%nat
  then Err BmpDataTooSmall
  else
    Ok (foldl (fun rgbaData y =>
          foldl (fun rgbaData x => bmp_pixel bmpBuffer width height y x rgbaData)
            rgbaData (seq 0 width))
        rgbaData (seq 0 height)).

End ClientIcoProcessor.

(** ** Writes into a buffer *)

(** The bytes [bs] stored from the start of [buf]; a [RangeError] when
    they do not fit. *)
Fixpoint overwrite (buf bs : list byte) {struct bs} : result (list byte) :=
  match bs with
  | [] => Ok buf
  | b :: bs' =>
      match buf with
      | [] => Err RangeError
      | _ :: buf' => let* r := overwrite buf' bs' in Ok (b :: r)
      end
  end.

(** The bytes [bs] stored from position [off] of [buf]; a [RangeError]
    when [off + length bs] exceeds the length of [buf]. *)
Fixpoint write_at (buf : list byte) (off : nat) (bs : list byte)
    {struct off} : result (list byte) :=
  match off with
  | O => overwrite buf bs
  | S off' =>
      match buf with
      | [] => Err RangeError
      | b :: buf' => let* r := write_at buf' off' bs in Ok (b :: r)
      end
  end.

(** [DataView.setUint8/16/32(off, v, true)]: the value is reduced modulo
    the width of the field. *)
Definition setUint8 (buf : list byte) (off : nat) (v : Z) :=
  write_at buf off (le_bytes 1 v).
Definition setUint16 (buf : list byte) (off : nat) (v : Z) :=
  write_at buf off (le_bytes 2 v).
Definition setUint32 (buf : list byte) (off : nat) (v : Z) :=
  write_at buf off (le_bytes 4 v).

(** [uint8View.set(src, off)]. *)
Definition set_bytes (buf src : list byte) (off : nat) :=
  write_at buf off src.

(** [Buffer.writeUInt8/16LE/32LE(v, off)] of Node: a value outside the
    range of the field is a [RangeError]. *)
Definition writeUInt8 (buf : list byte) (v : Z) (off : nat) :=
  if decide (0 <= v /\ v <= 255) then write_at buf off (le_bytes 1 v)
  else Err RangeError.
Definition writeUInt16LE (buf : list byte) (v : Z) (off : nat) :=
  if decide (0 <= v /\ v <= 65535) then write_at buf off (le_bytes 2 v)
  else Err RangeError.
Definition writeUInt32LE (buf : list byte) (v : Z) (off : nat) :=
  if decide (0 <= v /\ v <= 4294967295) then write_at buf off (le_bytes 4 v)
  else Err RangeError.

(** ** Layers ([shared/schema] and [types/icon-types]) *)

(** The arithmetic of JavaScript numbers that the rendering code uses on
    positions and scales. The embedding keeps it abstract: the statements
    about the renderers hold for every interpretation of the operations,
    the IEEE-754 doubles of the runtime included. [truthy] is the test of
    [||] on a number. *)
Class JsNumber (num : Type) : Type := {
  of_Z : Z -> num;
  mul : num -> num -> num;
  div : num -> num -> num;
  sub : num -> num -> num;
  truthy : num -> bool
}.

Inductive LayerType : Type := back_folder | front_folder | user_image.
Inductive ColorType : Type := solid | linear | radial.

Record Gradient (num : Type) : Type := mkGradient {
  g_start : string;
  g_end : string;
  direction : option num
}.
Arguments mkGradient {num}.
Arguments g_start {num}.
Arguments g_end {num}.

Record Color (num : Type) : Type := mkColor {
  c_type : ColorType;
  c_value : string;
  gradient : option (Gradient num)
}.
Arguments mkColor {num}.
Arguments c_type {num}.
Arguments c_value {num}.
Arguments gradient {num}.

Record Position (num : Type) : Type := mkPosition {
  pos_x : num;
  pos_y : num
}.
Arguments mkPosition {num}.
Arguments pos_x {num}.
Arguments pos_y {num}.

Record Layer (num : Type) : Type := mkLayer {
  id : string;
  type : LayerType;
  visible : bool;
  opacity : num;
  color : option (Color num);
  useColor : bool;
  imageUrl : option string;
  sizeSpecificImages : option (gmap Z string);
  position : Position num;
  scale : num;
  order : Z;
  visibilityBySize : option (gmap Z bool);
  positionBySize : option (gmap Z (Position num));
  scaleBySize : option (gmap Z num)
}.
Arguments mkLayer {num}.
Arguments id {num}.
Arguments type {num}.
Arguments visible {num}.
Arguments opacity {num}.
Arguments color {num}.
Arguments useColor {num}.
Arguments imageUrl {num}.
Arguments sizeSpecificImages {num}.
Arguments position {num}.
Arguments scale {num}.
Arguments order {num}.
Arguments visibilityBySize {num}.
Arguments positionBySize {num}.
Arguments scaleBySize {num}.

(** [{ ...layer, order: o }]. *)
Definition set_order {num} (layer : Layer num) (o : Z) : Layer num :=
  mkLayer (id layer) (type layer) (visible layer) (opacity layer)
    (color layer) (useColor layer) (imageUrl layer)
    (sizeSpecificImages layer) (position layer) (scale layer) o
    (visibilityBySize layer) (positionBySize layer) (scaleBySize layer).

(** [record?.[size.toString()]]: [undefined] when the record or the key
    is missing. *)
Definition opt_lookup {V} (record : option (gmap Z V)) (size : Z) : option V :=
  match record with
  | Some m => m !! size
  | None => None
  end.

(** ** The canvas calls of the renderers ([icon-generator.ts]) *)

Section CanvasOps.
Context {num : Type} `{JsNumber num} {Image : Type}.

Inductive FillStyle : Type :=
  | LinearGradient (x0 y0 x1 y1 : num) (stop0 stop1 : string)
  | RadialGradient (x0 y0 r0 x1 y1 r1 : num) (stop0 stop1 : string)
  | FillColor (value : string).

(** The temporary canvas of [applyColorToImage]: its side, the image
    drawn into [(0, 0, size, size)], and the fill painted over it with
    the composite operation [source-atop]. *)
Record TempCanvas : Type := mkTempCanvas {
  tc_size : num;
  tc_image : Image;
  tc_fill : FillStyle
}.

Inductive CanvasOp : Type :=
  | ClearRect (x y w h : num)
  | Save
  | Restore
  | GlobalAlpha (a : num)
  | DrawImage (img : Image) (x y w h : num)
  | DrawCanvas (tmp : TempCanvas) (x y : num)
  | RenderFolder (layer : Layer num) (isBack : bool).

(** The fill chosen by [applyColorToImage] (192-204 and 504-517). *)
Definition fill_of (color : Color num) (size : num) : FillStyle :=
  match c_type color, gradient color with
  | linear, Some g =>
      LinearGradient (of_Z 0) (of_Z 0) size size (g_start g) (g_end g)
  | radial, Some g =>
      RadialGradient (div size (of_Z 2)) (div size (of_Z 2)) (of_Z 0)
        (div size (of_Z 2)) (div size (of_Z 2)) (div size (of_Z 2))
        (g_start g) (g_end g)
  | _, _ => FillColor (c_value color)
  end.

(** [applyColorToImage] with a position (179-210 and 491-527): the
    temporary canvas is drawn at [(x, y)]. *)
Definition applyColorToImage (img : Image) (color : Color num)
    (size x y : num) : list CanvasOp :=
  [DrawCanvas (mkTempCanvas size img (fill_of color size)) x y].

(** A string in a condition: [undefined] and the empty string are false. *)
Definition truthy_string (s : option string) : bool :=
  match s with
  | Some s => negb (String.eqb s "")
  | None => false
  end.

(** [a || b] on a number that may be [undefined]. *)
Definition or_num (a : option num) (b : num) : num :=
  match a with
  | Some v => if truthy v then v else b
  | None => b
  end.

(** The placement of a decoded user image; the renderers carry this
    text three times (158-170, 541-559 and 580-598). An object is always
    true in a condition, so [||] on a position keeps a present entry. *)
Definition place_user_image (layer : Layer num) (size : Z) (img : Image)
    : list CanvasOp :=
  let scaleFactor := div (of_Z size) (of_Z 256) in
  let currentPosition :=
    default (position layer) (opt_lookup (positionBySize layer) size) in
  let currentScale :=
    or_num (opt_lookup (scaleBySize layer) size) (scale layer) in
  let scaledSize := mul (of_Z size) currentScale in
  let x := sub (mul (pos_x currentPosition) scaleFactor)
               (div scaledSize (of_Z 2)) in
  let y := sub (mul (pos_y currentPosition) scaleFactor)
               (div scaledSize (of_Z 2)) in
  match useColor layer, color layer with
  | true, Some c => applyColorToImage img c scaledSize x y
  | _, _ => [DrawImage img x y scaledSize scaledSize]
  end.

End CanvasOps.
Arguments FillStyle : clear implicits.
Arguments TempCanvas : clear implicits.
Arguments CanvasOp : clear implicits.

(** ** [ClientIconGenerator] ([icon-generator.ts], lines 1-319) *)

Module ClientIconGenerator.

Section Render.
Context {num : Type} `{JsNumber num}.
(** A decoded image, and the decoder [loadImage] of the browser: [None]
    is a rejected promise. *)
Context {Image : Type} (loadImage : string -> option Image).

(** [renderUserImageLayer] (140-174). *)
Definition renderUserImageLayer (layer : Layer num) (size : Z)
    : list (CanvasOp num Image) :=
  let url := opt_lookup (sizeSpecificImages layer) size in
  let url := if truthy_string url then url else imageUrl layer in
  if negb (truthy_string url) then []
  else
    match url ≫= loadImage with
    | Some img => place_user_image layer size img
    | None => []
    end.

(** [renderLayersToCanvas] (75-111). [RenderFolder] stands for the call
    of [renderFolderLayer], whose asset comes from outside. *)
Definition renderLayersToCanvas (layers : list (Layer num)) (size : Z)
    : list (CanvasOp num Image) :=
  let sortedLayers := js_sort (fun a b => order a - order b) layers in
  ClearRect (of_Z 0) (of_Z 0) (of_Z size) (of_Z size) ::
  foldl (fun ops layer =>
    if negb (visible layer) then ops
    else
      ops ++ [Save; GlobalAlpha (div (opacity layer) (of_Z 100))]
          ++ match type layer with
             | back_folder => [RenderFolder layer true]
             | front_folder => [RenderFolder layer false]
             | user_image => renderUserImageLayer layer size
             end
          ++ [Restore]) [] sortedLayers.

End Render.

(** [createIcoFromPngs] (272-318). *)

(** [imageBuffers[size.toString()]], used through [.byteLength]: a
    missing entry is a [TypeError]. *)
Definition get_buffer (imageBuffers : gmap Z (list byte)) (size : Z)
    : result (list byte) :=
  match imageBuffers !! size with
  | Some b => Ok b
  | None => Err TypeError
  end.

(** The first loop: [totalSize += imageBuffers[size].byteLength]. *)
Fixpoint add_sizes (imageBuffers : gmap Z (list byte)) (sizes : list Z)
    (totalSize : nat) : result nat :=
  match sizes with
  | [] => Ok totalSize
  | size :: rest =>
      let* imageBuffer := get_buffer imageBuffers size in
      add_sizes imageBuffers rest (totalSize + length imageBuffer)
  end.

(** The second loop, from index [i] over the sizes that remain. *)
Fixpoint write_entries (imageBuffers : gmap Z (list byte)) (sizes : list Z)
    (i : nat) (currentOffset : nat) (buffer : list byte)
    : result (list byte) :=
  match sizes with
  | [] => Ok buffer
  | size :: rest =>
      let* imageBuffer := get_buffer imageBuffers size in
      let entryOffset := (6 + i * 16)%nat in
      let* buffer := setUint8 buffer entryOffset
                       (if decide (size = 256) then 0 else size) in
      let* buffer := setUint8 buffer (entryOffset + 1)
                       (if decide (size = 256) then 0 else size) in
      let* buffer := setUint8 buffer (entryOffset + 2) 0 in
      let* buffer := setUint8 buffer (entryOffset + 3) 0 in
      let* buffer := setUint16 buffer (entryOffset + 4) 1 in
      let* buffer := setUint16 buffer (entryOffset + 6) 32 in
      let* buffer := setUint32 buffer (entryOffset + 8)
                       (Z.of_nat (length imageBuffer)) in
      let* buffer := setUint32 buffer (entryOffset + 12)
                       (Z.of_nat currentOffset) in
      let* buffer := set_bytes buffer imageBuffer currentOffset in
      write_entries imageBuffers rest (S i)
        (currentOffset + length imageBuffer) buffer
  end.

(** [Object.keys(imageBuffers).map(Number).sort((a, b) => a - b)]. *)
Definition sorted_sizes (imageBuffers : gmap Z (list byte)) : list Z :=
  js_sort (fun a b => a - b) (map_to_list imageBuffers).*1.

Definition createIcoFromPngs (imageBuffers : gmap Z (list byte))
    : result (list byte) :=
  let sizes := sorted_sizes imageBuffers in
  let count := length sizes in
  let headerSize := (6 + count * 16)%nat in
  let* totalSize := add_sizes imageBuffers sizes headerSize in
  let buffer := replicate totalSize x00 in
  let* buffer := setUint16 buffer 0 0 in
  let* buffer := setUint16 buffer 2 1 in
  let* buffer := setUint16 buffer 4 (Z.of_nat count) in
  let currentOffset := headerSize in
  write_entries imageBuffers sizes 0 currentOffset buffer.

End ClientIconGenerator.

(** ** [IconProcessor.createICOFromPNGs] (server, lines 193-227)

    An element of [pngFiles] is the size with the content that
    [fs.readFile] returns for the path of the entry. *)

Module IconProcessor.

Definition dirEntry (size : Z) (pngData : list byte) (imageOffset : nat)
    : result (list byte) :=
  let dirEntry := replicate 16 x00 in
  let* dirEntry := writeUInt8 dirEntry (if decide (size = 256) then 0 else size) 0 in
  let* dirEntry := writeUInt8 dirEntry (if decide (size = 256) then 0 else size) 1 in
  let* dirEntry := writeUInt8 dirEntry 0 2 in
  let* dirEntry := writeUInt8 dirEntry 0 3 in
  let* dirEntry := writeUInt16LE dirEntry 1 4 in
  let* dirEntry := writeUInt16LE dirEntry 32 6 in
  let* dirEntry := writeUInt32LE dirEntry (Z.of_nat (length pngData)) 8 in
  let* dirEntry := writeUInt32LE dirEntry (Z.of_nat imageOffset) 12 in
  Ok dirEntry.

(** The loop over [pngFiles]; [iconDir] and [iconImages] grow by [push]. *)
Fixpoint push_entries (pngFiles : list (Z * list byte)) (imageOffset : nat)
    (iconDir iconImages : list (list byte))
    : result (list (list byte) * list (list byte)) :=
  match pngFiles with
  | [] => Ok (iconDir, iconImages)
  | (size, pngData) :: rest =>
      let* entry := dirEntry size pngData imageOffset in
      push_entries rest (imageOffset + length pngData)
        (iconDir ++ [entry]) (iconImages ++ [pngData])
  end.

Definition createICOFromPNGs (pngFiles : list (Z * list byte))
    : result (list byte) :=
  let imageOffset := (6 + length pngFiles * 16)%nat in
  let header := replicate 6 x00 in
  let* header := writeUInt16LE header 0 0 in
  let* header := writeUInt16LE header 1 2 in
  let* header := writeUInt16LE header (Z.of_nat (length pngFiles)) 4 in
  let* pushed := push_entries pngFiles imageOffset [header] [] in
  let '(iconDir, iconImages) := pushed in
  Ok (concat (iconDir ++ iconImages)).

End IconProcessor.

(** ** The layout of an ICO file as the specification words it *)

Definition ico_header (count : nat) : list byte :=
  le_bytes 2 0 ++ le_bytes 2 1 ++ le_bytes 2 (Z.of_nat count).

Definition ico_dir_entry (size : Z) (imageSize imageOffset : nat) : list byte :=
  let dim := if decide (size = 256) then 0 else size in
  [byte_of_Z dim; byte_of_Z dim; byte_of_Z 0; byte_of_Z 0]
  ++ le_bytes 2 1 ++ le_bytes 2 32
  ++ le_bytes 4 (Z.of_nat imageSize) ++ le_bytes 4 (Z.of_nat imageOffset).

(** The directory of the entries [es], the first payload at [off]. *)
Fixpoint ico_directory (es : list (Z * list byte)) (off : nat) : list byte :=
  match es with
  | [] => []
  | (size, data) :: rest =>
      ico_dir_entry size (length data) off
      ++ ico_directory rest (off + length data)
  end.

Definition ico_payloads (es : list (Z * list byte)) : list byte :=
  concat es.*2.

Definition ico_layout (es : list (Z * list byte)) : list byte :=
  ico_header (length es)
  ++ ico_directory es (6 + 16 * length es)
  ++ ico_payloads es.

(** ** [reorderLayers] (the designer page, lines 49-69) *)

Definition reorderLayers {num} (layers : list (Layer num))
    (dragIndex hoverIndex : nat) : list (Layer num) :=
  let sortedLayers := js_sort (fun a b => order b - order a) layers in
  match sortedLayers !! dragIndex, sortedLayers !! hoverIndex with
  | Some draggedLayer, Some targetLayer =>
      let newDragOrder := order targetLayer in
      let newTargetOrder := order draggedLayer in
      map (fun layer =>
        if decide (id layer = id draggedLayer)
        then set_order layer newDragOrder
        else if decide (id layer = id targetLayer)
        then set_order layer newTargetOrder
        else layer) layers
  | _, _ => layers
  end.

(** ** The folder assets ([folder-assets.ts]) *)

Module FolderAssets.

Inductive FolderKind : Type := back | front.

(** [folderAssets] (18-37); an asset is named by the path of its import. *)
Definition folderAssets (type : FolderKind) : gmap Z string :=
  match type with
  | back =>
      list_to_map
        [(16, "../assets/folder-icons/folder-back-16.png");
         (20, "../assets/folder-icons/folder-back-20.png");
         (24, "../assets/folder-icons/folder-back-24.png");
         (32, "../assets/folder-icons/folder-back-32.png");
         (40, "../assets/folder-icons/folder-back-40.png");
         (64, "../assets/folder-icons/folder-back-64.png");
         (256, "../assets/folder-icons/folder-back-256.png")]
  | front =>
      list_to_map
        [(16, "../assets/folder-icons/folder-front-16.png");
         (20, "../assets/folder-icons/folder-front-20.png");
         (24, "../assets/folder-icons/folder-front-24.png");
         (32, "../assets/folder-icons/folder-front-32.png");
         (40, "../assets/folder-icons/folder-front-40.png");
         (64, "../assets/folder-icons/folder-front-64.png");
         (256, "../assets/folder-icons/folder-front-256.png")]
  end.

(** [getFolderAsset] (39-47); [None] stands for [undefined]. *)
Definition getFolderAsset (type : FolderKind) (size : Z)
    : result (option string) :=
  let availableSizes := [16; 20; 24; 32; 40; 64; 256] in
  let* closestSize := reduce (fun prev curr =>
    if decide (Z.abs (curr - size) < Z.abs (prev - size))
    then curr else prev) availableSizes in
  Ok (folderAssets type !! closestSize).

End FolderAssets.

(** ** [CanvasRenderer] ([icon-generator.ts], lines 319-667) *)

Module CanvasRenderer.

Section Render.
Context {num : Type} `{JsNumber num}.
Context {Image : Type} (loadImage : string -> option Image).

(** [renderUserImage] (529-604). A size-specific image that fails to
    load is logged and the function goes on to the main image. *)
Definition renderUserImage (layer : Layer num) (size : Z)
    : list (CanvasOp num Image) :=
  let main_image :=
    if negb (truthy_string (imageUrl layer)) then []
    else
      match imageUrl layer ≫= loadImage with
      | Some img =>
          [GlobalAlpha (div (opacity layer) (of_Z 100))]
          ++ place_user_image layer size img
          ++ [GlobalAlpha (of_Z 1)]
      | None => []
      end in
  match sizeSpecificImages layer with
  | Some images =>
      let sizeSpecificImageUrl := images !! size in
      if truthy_string sizeSpecificImageUrl then
        match sizeSpecificImageUrl ≫= loadImage with
        | Some img =>
            [GlobalAlpha (div (opacity layer) (of_Z 100))]
            ++ place_user_image layer size img
            ++ [GlobalAlpha (of_Z 1)]
        | None => main_image
        end
      else main_image
  | None => main_image
  end.

(** [loadFolderImagesForSize] (421-432): the two assets of the size,
    loaded together; the promise is rejected when one of them fails to
    load. *)
Definition loadFolderImagesForSize (size : Z) : option (Image * Image) :=
  match FolderAssets.getFolderAsset FolderAssets.back size,
        FolderAssets.getFolderAsset FolderAssets.front size with
  | Ok (Some backAsset), Ok (Some frontAsset) =>
      match loadImage backAsset, loadImage frontAsset with
      | Some backImg, Some frontImg => Some (backImg, frontImg)
      | _, _ => None
      end
  | _, _ => None
  end.

(** [render] (383-419). The folder images are awaited before the first
    call on the canvas: when they fail to load the promise of [render]
    is rejected and nothing is drawn, not even the clearing. [RenderFolder]
    stands for the call of [renderFolderLayer] with the loaded image of
    the layer. The fields [lastLayers] and [lastSize] that [render] sets
    are read by the constructor only. *)
Definition render (layers : list (Layer num)) (size : Z)
    : option (list (CanvasOp num Image)) :=
  match loadFolderImagesForSize size with
  | None => None
  | Some folderImages =>
      let sortedLayers := js_sort (fun a b => order a - order b) layers in
      Some (
        ClearRect (of_Z 0) (of_Z 0) (of_Z size) (of_Z size) ::
        foldl (fun ops layer =>
          let isVisible :=
            default (visible layer)
              (opt_lookup (visibilityBySize layer) size) in
          if negb isVisible then ops
          else
            ops ++ [Save; GlobalAlpha (div (opacity layer) (of_Z 100))]
                ++ match type layer with
                   | back_folder => [RenderFolder layer true]
                   | front_folder => [RenderFolder layer false]
                   | user_image => renderUserImage layer size
                   end
                ++ [Restore]) [] sortedLayers)
  end.

End Render.

End CanvasRenderer.

(** The calls that a pass has issued on the canvas: none when its promise
    was rejected before the first call. *)
Definition calls_of {num Image} (pass : option (list (CanvasOp num Image)))
    : list (CanvasOp num Image) :=
  default [] pass.

(** ** The conditions of a malformed container, as the specification words them *)

(** The little-endian unsigned integer held by the [k] bytes at [off]. *)
Definition le_at (buf : list byte) (off k : nat) : Z :=
  le_value (take k (drop off buf)).

Definition header_reserved (buf : list byte) : Z := le_at buf 0 2.
Definition header_type (buf : list byte) : Z := le_at buf 2 2.
Definition header_count (buf : list byte) : Z := le_at buf 4 2.

(** The fields of the directory entry of index [i]. *)
Definition entry_width_byte (buf : list byte) (i : nat) : Z := le_at buf (6 + 16 * i) 1.
Definition entry_height_byte (buf : list byte) (i : nat) : Z := le_at buf (6 + 16 * i + 1) 1.
Definition entry_imageSize (buf : list byte) (i : nat) : Z := le_at buf (6 + 16 * i + 8) 4.
Definition entry_imageOffset (buf : list byte) (i : nat) : Z := le_at buf (6 + 16 * i + 12) 4.

Definition ico_malformed (buf : list byte) : Prop :=
  (length buf < 6)%nat
  \/ header_reserved buf <> 0 \/ header_type buf <> 1
  \/ header_count buf = 0 \/ 255 < header_count buf
  \/ (exists i : nat, Z.of_nat i < header_count buf
        /\ (length buf < 6 + 16 * i + 16)%nat)
  \/ (exists i : nat, Z.of_nat i < header_count buf
        /\ Z.of_nat (length buf) < entry_imageOffset buf i + entry_imageSize buf i).

(** The descriptor that the directory entry of index [i] stands for:
    a dimension byte 0 reads as 256. *)
Definition entry_image (buf : list byte) (i : nat) : IcoImage :=
  let dim v := if decide (v = 0) then 256 else v in
  let data := subarray buf (entry_imageOffset buf i)
                (entry_imageOffset buf i + entry_imageSize buf i) in
  mkIcoImage (dim (entry_width_byte buf i)) (dim (entry_height_byte buf i))
    data (detect_format data).

(** The directory entry of index [i] lies in the buffer, and so does the
    payload that it names. *)
Definition entry_ok (buf : list byte) (i : nat) : Prop :=
  (6 + 16 * i + 16 <= length buf)%nat
  /\ entry_imageOffset buf i + entry_imageSize buf i <= Z.of_nat (length buf).

Global Instance entry_ok_dec buf i : Decision (entry_ok buf i).
Proof. unfold entry_ok. apply _. Defined.

(** ** The best match, as the specification words it *)

Definition area (img : IcoImage) : Z := width img * height img.

Definition exact_match (targetSize : Z) (img : IcoImage) : Prop :=
  width img = targetSize /\ height img = targetSize.

Definition large_enough (targetSize : Z) (img : IcoImage) : Prop :=
  targetSize <= width img /\ targetSize <= height img.

(** [r] is a best match of [images] for [targetSize]: an exact match when
    there is one; otherwise an image of the smallest area among those
    that are large enough, when there is one; otherwise an image of the
    largest area. *)
Definition bestMatch_spec (images : list IcoImage) (targetSize : Z)
    (r : IcoImage) : Prop :=
  r ∈ images
  /\ ((exists i, i ∈ images /\ exact_match targetSize i) ->
      exact_match targetSize r)
  /\ (~ (exists i, i ∈ images /\ exact_match targetSize i) ->
      (exists i, i ∈ images /\ large_enough targetSize i) ->
      large_enough targetSize r
      /\ forall i, i ∈ images -> large_enough targetSize i -> area r <= area i)
  /\ (~ (exists i, i ∈ images /\ exact_match targetSize i) ->
      ~ (exists i, i ∈ images /\ large_enough targetSize i) ->
      forall i, i ∈ images -> area i <= area r).

(** The larger dimension of an image. *)
Definition max_dimension (img : IcoImage) : Z := Z.max (width img) (height img).

(** What the selection of the server returns: an exact match when there
    is one; otherwise an image of the smallest larger dimension among
    those whose larger dimension reaches the target, when there is one;
    otherwise an image of the largest larger dimension. *)
Definition serverMatch_spec (images : list IcoImage) (targetSize : Z)
    (r : IcoImage) : Prop :=
  r ∈ images
  /\ ((exists i, i ∈ images /\ exact_match targetSize i) ->
      exact_match targetSize r)
  /\ (~ (exists i, i ∈ images /\ exact_match targetSize i) ->
      (exists i, i ∈ images /\ targetSize <= max_dimension i) ->
      targetSize <= max_dimension r
      /\ forall i, i ∈ images -> targetSize <= max_dimension i ->
           max_dimension r <= max_dimension i)
  /\ (~ (exists i, i ∈ images /\ exact_match targetSize i) ->
      ~ (exists i, i ∈ images /\ targetSize <= max_dimension i) ->
      forall i, i ∈ images -> max_dimension i <= max_dimension r).

(** An image as square as the icons that the writer packs. *)
Definition square (img : IcoImage) : Prop :=
  width img = height img /\ 0 <= width img.

(** ** The entries of a size map, as the specification words them *)

(** The pairs of the map for the sizes [sizes], in that order. *)
Definition entries_of (imageBuffers : gmap Z (list byte)) (sizes : list Z)
    : list (Z * list byte) :=
  map (fun size => (size, default [] (imageBuffers !! size))) sizes.

(** The pairs of the map in ascending order of size. *)
Definition sorted_entries (imageBuffers : gmap Z (list byte))
    : list (Z * list byte) :=
  entries_of imageBuffers (ClientIconGenerator.sorted_sizes imageBuffers).

(** The length of the file that packs the entries [es]. *)
Definition ico_total_size (es : list (Z * list byte)) : nat :=
  (6 + 16 * length es + length (ico_payloads es))%nat.

(** The directory as a list of 16-byte entries. *)
Fixpoint dir_entries (es : list (Z * list byte)) (off : nat)
    : list (list byte) :=
  match es with
  | [] => []
  | (size, data) :: rest =>
      ico_dir_entry size (length data) off
      :: dir_entries rest (off + length data)
  end.

(** The offset of the payload of index [i]: the payloads before it
    follow the directory. *)
Definition payload_offset (es : list (Z * list byte)) (i : nat) : nat :=
  (6 + 16 * length es + length (ico_payloads (take i es)))%nat.

(** The first eight bytes of a PNG stream. *)
Definition png_signature : list byte :=
  [x89; x50; x4e; x47; x0d; x0a; x1a; x0a].

(** ** The round trip, as the specification words it *)

(** Writing the map and parsing the result succeeds, and every size of
    the map has a descriptor of that width and height, of format PNG,
    with the bytes of the map as its payload. *)
Definition roundtrips (imageBuffers : gmap Z (list byte)) : Prop :=
  exists out images,
    ClientIconGenerator.createIcoFromPngs imageBuffers = Ok out
    /\ IcoParser.parse out = Ok images
    /\ forall size data, imageBuffers !! size = Some data ->
         mkIcoImage size size data png ∈ images.

(** ** The decoded bitmap, as the specification words it *)

(** The four bytes of the output pixel of row [y] and column [x]: the
    source pixel of row [height - 1 - y], its channels B,G,R,A in the
    order R,G,B,A. *)
Definition rgba_pixel (bmpBuffer : list byte) (width height y x : nat)
    : list byte :=
  let src := (40 + ((height - 1 - y) * width + x) * 4)%nat in
  [ClientIcoProcessor.get_byte bmpBuffer (src + 2);
   ClientIcoProcessor.get_byte bmpBuffer (src + 1);
   ClientIcoProcessor.get_byte bmpBuffer src;
   ClientIcoProcessor.get_byte bmpBuffer (src + 3)].

Definition rgba_row (bmpBuffer : list byte) (width height y : nat) : list byte :=
  mjoin ((fun x => rgba_pixel bmpBuffer width height y x) <$> seq 0 width).

Definition rgba_image (bmpBuffer : list byte) (width height : nat) : list byte :=
  mjoin ((fun y => rgba_row bmpBuffer width height y) <$> seq 0 height).

(** ** Layers, as the specification words them *)

(** The two layers agree on every field but [order]. *)
Definition same_but_order {num} (a b : Layer num) : Prop :=
  id a = id b /\ type a = type b /\ visible a = visible b
  /\ opacity a = opacity b /\ color a = color b /\ useColor a = useColor b
  /\ imageUrl a = imageUrl b /\ sizeSpecificImages a = sizeSpecificImages b
  /\ position a = position b /\ scale a = scale b
  /\ visibilityBySize a = visibilityBySize b
  /\ positionBySize a = positionBySize b /\ scaleBySize a = scaleBySize b.

(** The resolution of the attributes of a layer at a size: the entry of
    the size when present, the global value otherwise. *)
Definition resolve_visible {num} (layer : Layer num) (size : Z) : bool :=
  default (visible layer) (opt_lookup (visibilityBySize layer) size).

Definition resolve_position {num} (layer : Layer num) (size : Z) : Position num :=
  default (position layer) (opt_lookup (positionBySize layer) size).

Definition resolve_scale {num} (layer : Layer num) (size : Z) : num :=
  default (scale layer) (opt_lookup (scaleBySize layer) size).

Definition resolve_image {num} (layer : Layer num) (size : Z) : option string :=
  match opt_lookup (sizeSpecificImages layer) size with
  | Some url => Some url
  | None => imageUrl layer
  end.

Section Placement.
Context {num : Type} `{JsNumber num} {Image : Type}.

(** The side of the square of a user image at [size]: [size * scale]. *)
Definition user_image_side (layer : Layer num) (size : Z) : num :=
  mul (of_Z size) (resolve_scale layer size).

(** A coordinate of its top-left corner:
    [p * (size / 256) - (size * scale) / 2]. *)
Definition user_image_corner (layer : Layer num) (size : Z) (p : num) : num :=
  sub (mul p (div (of_Z size) (of_Z 256)))
      (div (user_image_side layer size) (of_Z 2)).

(** The calls that draw [img] into that square, through the temporary
    canvas of the color fill when the layer uses a color. *)
Definition user_image_ops (layer : Layer num) (size : Z) (img : Image)
    : list (CanvasOp num Image) :=
  let side := user_image_side layer size in
  let x := user_image_corner layer size (pos_x (resolve_position layer size)) in
  let y := user_image_corner layer size (pos_y (resolve_position layer size)) in
  match useColor layer, color layer with
  | true, Some c => [DrawCanvas (mkTempCanvas side img (fill_of c side)) x y]
  | _, _ => [DrawImage img x y side side]
  end.

(** The calls of a rendering pass for one layer that is not skipped. *)
Definition layer_ops (user_image : Layer num -> list (CanvasOp num Image))
    (layer : Layer num) : list (CanvasOp num Image) :=
  [Save; GlobalAlpha (div (opacity layer) (of_Z 100))]
  ++ match type layer with
     | back_folder => [RenderFolder layer true]
     | front_folder => [RenderFolder layer false]
     | user_image => user_image layer
     end
  ++ [Restore].

End Placement.

(** The function that [reorderLayers] maps over the list, for the
    dragged layer [d] and the target layer [t]. *)
Definition swap_orders {num} (d t l : Layer num) : Layer num :=
  if decide (id l = id d) then set_order l (order t)
  else if decide (id l = id t) then set_order l (order d)
  else l.

(** The well-formedness of the overrides of a layer at a size: a scale
    is a number that a condition takes for true (it is neither zero nor
    [NaN]), and an image reference is not the empty string. *)
Definition scale_overrides_truthy {num} `{JsNumber num}
    (layer : Layer num) (size : Z) : Prop :=
  forall v, opt_lookup (scaleBySize layer) size = Some v -> truthy v = true.

Definition image_overrides_nonempty {num} (layer : Layer num) (size : Z) : Prop :=
  forall url, opt_lookup (sizeSpecificImages layer) size = Some url ->
    url <> ""%string.

(** ** Preconditions of the writers *)

(** Every size fits the one-byte dimension fields of a directory entry. *)
Definition sizes_fit (es : list (Z * list byte)) : Prop :=
  Forall (fun e => 0 <= e.1 <= 256) es.

(** The map holds the entries [es]. *)
Definition agrees (m : gmap Z (list byte)) (es : list (Z * list byte)) : Prop :=
  Forall (fun e => m !! e.1 = Some e.2) es.

(** ** Concrete inputs *)

(** A container with one 16x16 entry whose payload is the PNG signature. *)
Definition one_image_ico : list byte :=
  [x00; x00; x01; x00; x01; x00;
   x10; x10; x00; x00; x01; x00; x20; x00;
   x08; x00; x00; x00; x16; x00; x00; x00]
  ++ png_signature.

(** That container under a name that does not end in [.ico]; the upload
    form passes such a file to the reader when its type is
    [application/octet-stream]. *)
Definition renamed_ico_file : File := mkFile "icon.bin" one_image_ico.

(** Two images that are not square, neither of them large enough for a
    target of 16. *)
Definition wide_image : IcoImage := mkIcoImage 64 8 [] bmp.
Definition tall_image : IcoImage := mkIcoImage 10 100 [] bmp.

Definition small_square : IcoImage := mkIcoImage 16 16 [] bmp.
Definition large_square : IcoImage := mkIcoImage 32 32 [] bmp.

(** A map of two sizes. *)
Definition two_sizes : gmap Z (list byte) :=
  <[256 := png_signature ++ [x01]]> (<[16 := png_signature]> ∅).

(** [createDefaultLayers] ([icon-generator.ts], 620-666). *)
Definition createDefaultLayers {num} `{JsNumber num} : list (Layer num) :=
  [ mkLayer "back-folder" back_folder true (of_Z 100)
      (Some (mkColor solid "#EA580C" None)) false None None
      (mkPosition (of_Z 128) (of_Z 128)) (of_Z 1) 0 None None None;
    mkLayer "front-folder" front_folder true (of_Z 100)
      (Some (mkColor solid "#F59E0B" None)) false None None
      (mkPosition (of_Z 128) (of_Z 128)) (of_Z 1) 1 None None None;
    mkLayer "user-image" user_image true (of_Z 100)
      (Some (mkColor solid "#FFFFFF" None)) false None None
      (mkPosition (of_Z 128) (of_Z 128)) (of_Z 1) 2 None None None ].

(** The front folder of the default stack, hidden at size 16 only, as
    the visibility toggle of the layer panel leaves it. *)
Definition front_hidden_at_16 {num} `{JsNumber num} : Layer num :=
  mkLayer "front-folder" front_folder true (of_Z 100)
    (Some (mkColor solid "#F59E0B" None)) false None None
    (mkPosition (of_Z 128) (of_Z 128)) (of_Z 1) 1
    (Some {[ 16 := false ]}) None None.

(** The default stack with that front folder. *)
Definition stack_front_hidden_at_16 {num} `{JsNumber num} : list (Layer num) :=
  <[1%nat := front_hidden_at_16]> createDefaultLayers.

(** Exact rationals as an interpretation of the numbers. *)
Global Instance Qc_JsNumber : JsNumber Qc := {|
  of_Z z := Q2Qc (inject_Z z);
  mul := Qcmult;
  div := Qcdiv;
  sub := Qcminus;
  truthy q := negb (Qeq_bool q 0)
|}.

(** The user image of the page after the upload of an image and then,
    for size 16, of an image whose file does not decode. *)
Definition undecodable_at_16 : Layer Qc :=
  mkLayer "user-image" user_image true (of_Z 100)
    (Some (mkColor solid "#FFFFFF" None)) false
    (Some "data:image/png;base64,iVBORw0KGgo=")
    (Some {[ 16 := "data:image/png;base64,AAAA" ]})
    (mkPosition (of_Z 128) (of_Z 128)) (of_Z 1) 2 None None None.

(** A browser that decodes the first of the two images and no other; a
    decoded image is named by its URL. *)
Definition decode_main_only (url : string) : option string :=
  if String.eqb url "data:image/png;base64,iVBORw0KGgo="
  then Some url else None.

(** A user image with a global position and scale, and overrides of
    both at size 32. *)
Definition placed_user_image : Layer Qc :=
  mkLayer "user-image" user_image true (of_Z 100) None false
    (Some "data:image/png;base64,iVBORw0KGgo=") None
    (mkPosition (of_Z 10) (of_Z 10)) (of_Z 1) 2 None
    (Some {[ 32 := mkPosition (of_Z 50) (of_Z 50) ]})
    (Some {[ 32 := Q2Qc (1 # 2) ]}).

(** * The code around the codec and the layer engine *)

(** ** [IcoParser.toSizeMap] ([ico-parser.ts], 89-99) *)

Definition toSizeMap (images : list IcoImage) : gmap Z (list byte) :=
  foldl (fun sizeMap image =>
    let size := Z.max (width image) (height image) in
    <[size := buffer image]> sizeMap) ∅ images.

(** ** [ClientIconGenerator.generateIcoFromLayers] ([icon-generator.ts], 14-43) *)

Module ClientIconExport.

Section ExportFile.
Context {num : Type} `{JsNumber num}.
Context {Image : Type} (loadImage : string -> option Image).
(** [canvasToBlob] followed by [blob.arrayBuffer()]: the PNG encoding, by
    the browser, of a canvas of side [size] after the calls [ops]; the
    promise can be rejected ('Failed to convert canvas to blob'). *)
Context (canvasToBlob : Z -> list (CanvasOp num Image) -> result (list byte)).

(** The loop over [ICON_SIZES] (20-38). *)
Fixpoint generate_sizes (layers : list (Layer num)) (sizes : list Z)
    (imageBuffers : gmap Z (list byte)) : result (gmap Z (list byte)) :=
  match sizes with
  | [] => Ok imageBuffers
  | size :: rest =>
      let ops := ClientIconGenerator.renderLayersToCanvas loadImage layers size in
      let* arrayBuffer := canvasToBlob size ops in
      generate_sizes layers rest (<[size := arrayBuffer]> imageBuffers)
  end.

Definition generateIcoFromLayers (layers : list (Layer num))
    : result (list byte) :=
  let* imageBuffers := generate_sizes layers ICON_SIZES ∅ in
  ClientIconGenerator.createIcoFromPngs imageBuffers.

End ExportFile.

End ClientIconExport.

(** ** [IconProcessor.processIcons] (server, lines 125-167)

    A rejected promise is [None]. [Object.entries] lists the keys that
    are decimal integers in ascending order, which is the order of
    [sorted_entries]. The temporary directory is a fresh one: it maps a
    size to the content of the file [icon_<size>.png]. *)

Module IconProcessing.

Section Process.
(** [sharp(buffer).resize(size, size, ...).png()]: the stream that sharp
    writes, or [None] for an input that it cannot decode. *)
Context (sharp_resize_png : list byte -> Z -> option (list byte)).

(** The loop over the entries (134-150): [toFile] and [pngFiles.push]. *)
Fixpoint process_entries (entries : list (Z * list byte))
    (tempDir : gmap Z (list byte)) (pngFiles : list Z)
    : option (gmap Z (list byte) * list Z) :=
  match entries with
  | [] => Some (tempDir, pngFiles)
  | (size, buffer) :: rest =>
      if decide (size ∈ ICON_SIZES) then
        match sharp_resize_png buffer size with
        | Some pngData =>
            process_entries rest (<[size := pngData]> tempDir)
              (pngFiles ++ [size])
        | None => None
        end
      else process_entries rest tempDir pngFiles
  end.

(** [fs.readFile(path)] for the entries of [pngFiles], in their order. *)
Fixpoint read_files (tempDir : gmap Z (list byte)) (pngFiles : list Z)
    : option (list (Z * list byte)) :=
  match pngFiles with
  | [] => Some []
  | size :: rest =>
      match tempDir !! size with
      | Some pngData =>
          match read_files tempDir rest with
          | Some files => Some ((size, pngData) :: files)
          | None => None
          end
      | None => None
      end
  end.

Definition processIcons (imageBuffers : gmap Z (list byte))
    : option (list byte) :=
  match process_entries (sorted_entries imageBuffers) ∅ [] with
  | Some (tempDir, pngFiles) =>
      let pngFiles := js_sort (fun a b => a - b) pngFiles in
      match read_files tempDir pngFiles with
      | Some files =>
          match IconProcessor.createICOFromPNGs files with
          | Ok icoBuffer => Some icoBuffer
          | Err _ => None
          end
      | None => None
      end
  | None => None
  end.

(** What one entry of the map adds to the temporary directory. *)
Definition png_of (e : Z * list byte) : option (Z * list byte) :=
  if decide (e.1 ∈ ICON_SIZES)
  then match sharp_resize_png e.2 e.1 with
       | Some pngData => Some (e.1, pngData)
       | None => None
       end
  else None.

(** The entry has a canonical size and sharp cannot decode its buffer. *)
Definition entry_fails (e : Z * list byte) : Prop :=
  e.1 ∈ ICON_SIZES /\ sharp_resize_png e.2 e.1 = None.

(** The canonical sizes of the map with the stream of sharp for each, in
    the order of [ICON_SIZES]. *)
Definition canonical_entries (imageBuffers : gmap Z (list byte))
    : list (Z * list byte) :=
  omap (fun size =>
    match imageBuffers !! size with
    | Some buffer =>
        match sharp_resize_png buffer size with
        | Some pngData => Some (size, pngData)
        | None => None
        end
    | None => None
    end) ICON_SIZES.

End Process.

End IconProcessing.

(** ** From the parsed images to data URLs ([ico-processor.ts])

    The second half of [parseIcoFile]: the loop over [targetSizes]. The
    services of the browser are parameters: a rejected promise or a
    thrown exception is [None]. *)

Section Browser.
Context {Image : Type}.
(** [blobToDataURL] of a blob of a MIME type ([FileReader]). *)
Context (blobToDataURL : string -> list byte -> option string).
(** [URL.createObjectURL] of a blob of a MIME type. *)
Context (createObjectURL : string -> list byte -> string).
(** [loadImage]: the decoding of the image behind a URL. *)
Context (loadImage : string -> option Image).
(** A canvas of side [targetSize] with the image drawn over all of it,
    as a PNG data URL ([resizeImage], 437-454, and 143-153). *)
Context (resizeImage : Image -> Z -> string).
(** A canvas of the given width and height with the RGBA bytes put into
    it, as a PNG data URL (381-386). *)
Context (putImageData_toDataURL : Z -> Z -> list byte -> string).
(** [createFallbackImage] (459-476): two filled rectangles on a canvas. *)
Context (createFallbackImage : Z -> string).

(** The first version of the file. *)

(** [convertBmpToPng] (135-157). *)
Definition convertBmpToPng_v1 (bmpData : list byte) (width height : Z)
    (targetSize : Z) : option string :=
  let url := createObjectURL "image/bmp" bmpData in
  match loadImage url with
  | Some img => Some (resizeImage img targetSize)
  | None => None
  end.

(** The loop of [parseIcoFile] (83-103). *)
Fixpoint sizeImages_v1 (images : list IcoImage) (targetSizes : list Z)
    (sizeImages : gmap Z string) : result (gmap Z string) :=
  match targetSizes with
  | [] => Ok sizeImages
  | targetSize :: rest =>
      let* bestMatch := ClientIcoProcessorV1.getBestMatch images targetSize in
      match bestMatch with
      | Some bestMatch =>
          let dataUrl :=
            match format bestMatch with
            | png => blobToDataURL "image/png" (buffer bestMatch)
            | bmp => convertBmpToPng_v1 (buffer bestMatch) (width bestMatch)
                       (height bestMatch) targetSize
            end in
          match dataUrl with
          | Some dataUrl =>
              sizeImages_v1 images rest (<[targetSize := dataUrl]> sizeImages)
          | None => sizeImages_v1 images rest sizeImages
          end
      | None => sizeImages_v1 images rest sizeImages
      end
  end.

(** [parseIcoFile] of the first version, whole (15-106). *)
Definition parseIcoFile_v1 (file : File) : result (gmap Z string) :=
  let* images := ClientIcoProcessorV1.parseIcoFile file in
  sizeImages_v1 images ICON_SIZES ∅.

(** The second version of the file. *)

(** [convertBmpToPng] (364-393); [createImageData] refuses a dimension
    of zero. *)
Definition convertBmpToPng (bmpData : list byte) (width height : Z)
    : option string :=
  if decide (width = 0 \/ height = 0) then None
  else
    match ClientIcoProcessor.parseBmpToRgba bmpData
            (Z.to_nat width) (Z.to_nat height) with
    | Ok rgbaData => Some (putImageData_toDataURL width height rgbaData)
    | Err _ => None
    end.

(** [convertToPNG] (329-359). *)
Definition convertToPNG (imageData : list byte)
    (originalWidth originalHeight targetSize : Z) : option string :=
  let isPNG := bool_decide (detect_format imageData = png) in
  if isPNG then
    match blobToDataURL "image/png" imageData with
    | Some dataUrl =>
        match loadImage dataUrl with
        | Some img => Some (resizeImage img targetSize)
        | None => None
        end
    | None => None
    end
  else
    match convertBmpToPng imageData originalWidth originalHeight with
    | Some pngDataUrl =>
        match loadImage pngDataUrl with
        | Some img => Some (resizeImage img targetSize)
        | None => None
        end
    | None => None
    end.

(** The loop of [parseIcoFile] (296-320). *)
Fixpoint sizeImages_v2 (images : list IcoImage) (targetSizes : list Z)
    (sizeImages : gmap Z string) : result (gmap Z string) :=
  match targetSizes with
  | [] => Ok sizeImages
  | targetSize :: rest =>
      let* bestMatch := ClientIcoProcessor.getBestMatch images targetSize in
      match bestMatch with
      | Some bestMatch =>
          match convertToPNG (buffer bestMatch) (width bestMatch)
                  (height bestMatch) targetSize with
          | Some dataUrl =>
              sizeImages_v2 images rest (<[targetSize := dataUrl]> sizeImages)
          | None =>
              let fallbackUrl := createFallbackImage targetSize in
              sizeImages_v2 images rest (<[targetSize := fallbackUrl]> sizeImages)
          end
      | None => sizeImages_v2 images rest sizeImages
      end
  end.

(** [parseIcoFile] of the second version, whole (213-324). *)
Definition parseIcoFile_v2 (file : File) : result (gmap Z string) :=
  let* images := ClientIcoProcessor.parseIcoFile file in
  sizeImages_v2 images ICON_SIZES ∅.

(** The best match of a list of images that is not empty. *)
Definition the_best (images : list IcoImage) (targetSize : Z) : IcoImage :=
  match client_getBestMatch images targetSize with
  | Ok (Some r) => r
  | _ => mkIcoImage 0 0 [] bmp
  end.

(** The entry of the first version for a target, when there is one: the
    data URL of a PNG payload, the conversion of a raw bitmap. *)
Definition convert_v1 (r : IcoImage) (targetSize : Z) : option string :=
  match format r with
  | png => blobToDataURL "image/png" (buffer r)
  | bmp => convertBmpToPng_v1 (buffer r) (width r) (height r) targetSize
  end.

(** The entry of the second version for a target: the converted image,
    or the fallback image. *)
Definition entry_v2 (images : list IcoImage) (targetSize : Z) : string :=
  let r := the_best images targetSize in
  default (createFallbackImage targetSize)
    (convertToPNG (buffer r) (width r) (height r) targetSize).

End Browser.

(** [s.startsWith(prefix)]. *)
Definition startsWith (s prefix : string) : bool := String.prefix prefix s.

(** ** The route [/api/icons/parse-ico] ([routes.ts], 12-28 and 41-108) *)

(** The file of a multipart request, as multer hands it to [fileFilter]
    and, once read into memory, to the handler. *)
Record UploadedFile : Type := mkUploadedFile {
  originalname : string;
  mimetype : string;
  file_buffer : list byte
}.

(** [fileFilter] (17-27). *)
Definition fileFilter (file : UploadedFile) : bool :=
  let isSvg :=
    String.eqb (mimetype file) "image/svg+xml"
    || ClientIcoProcessor.endsWith
         (ClientIcoProcessor.toLowerCase (originalname file)) ".svg" in
  let isIco :=
    String.eqb (mimetype file) "application/octet-stream"
    || ClientIcoProcessor.endsWith
         (ClientIcoProcessor.toLowerCase (originalname file)) ".ico" in
  let isImage := startsWith (mimetype file) "image/" in
  isImage || isIco || isSvg.

(** The errors with which multer ends a request before the handler. *)
Inductive UploadError : Type :=
  | FileNotAllowed   (* 'Only image files, ICO files, and SVG files are allowed' *)
  | LimitFileSize.   (* the file is larger than [limits.fileSize] *)

(** The answer of the route: its status and the fields of its body. An
    error of multer goes to the error handling of Express, which is not
    code of the route; the handler does not run. *)
Inductive ParseIcoResponse : Type :=
  | UploadRefused (e : UploadError)
  | NoFileProvided                      (* 400 'No ICO file provided' *)
  | ParseFailed (details : IcoError)    (* 500 'Failed to parse ICO file' *)
  | Parsed (images : gmap Z string) (originalCount : nat)
      (availableSizes : list (Z * Z * ImageFormat)).

Section ParseIcoRoute.
(** [sharp(buffer).png().toBuffer()]: [None] for a buffer that sharp
    cannot decode. *)
Context (sharp_png : list byte -> option (list byte)).
(** The data URL of a buffer: its base64 rendering after
    ['data:image/png;base64,']. *)
Context (dataUrl_of : list byte -> string).

(** The loop over [targetSizes] (57-82). *)
Fixpoint route_images (images : list IcoImage) (targetSizes : list Z)
    (imageData : gmap Z string) : result (gmap Z string) :=
  match targetSizes with
  | [] => Ok imageData
  | targetSize :: rest =>
      let* bestMatch := IcoParser.getBestMatch images targetSize in
      match bestMatch with
      | Some bestMatch =>
          let finalBuffer :=
            match format bestMatch with
            | bmp => sharp_png (buffer bestMatch)
            | png => Some (buffer bestMatch)
            end in
          match finalBuffer with
          | Some finalBuffer =>
              route_images images rest
                (<[targetSize := dataUrl_of finalBuffer]> imageData)
          | None => route_images images rest imageData
          end
      | None => route_images images rest imageData
      end
  end.

(** The handler (41-108), from [req.file]. *)
Definition parse_ico_handler (file : option (list byte)) : ParseIcoResponse :=
  match file with
  | None => NoFileProvided
  | Some icoBuffer =>
      match
        (let* images := IcoParser.parse icoBuffer in
         let* imageData := route_images images ICON_SIZES ∅ in
         Ok (images, imageData))
      with
      | Ok (images, imageData) =>
          Parsed imageData (length images)
            (map (fun img => (width img, height img, format img)) images)
      | Err e => ParseFailed e
      end
  end.

(** The route: [upload.single('ico')] (12-28), then the handler. The
    request carries at most one file, in the field [ico]. multer asks
    [fileFilter] before it reads the file, and refuses a file of more
    than 10 MB while it reads it. *)
Definition parse_ico_route (upload : option UploadedFile) : ParseIcoResponse :=
  match upload with
  | None => parse_ico_handler None
  | Some file =>
      if negb (fileFilter file) then UploadRefused FileNotAllowed
      else if decide (10 * 1024 * 1024 < Z.of_nat (length (file_buffer file)))
      then UploadRefused LimitFileSize
      else parse_ico_handler (Some (file_buffer file))
  end.

(** The best match of the server for a list that is not empty. *)
Definition server_best (images : list IcoImage) (targetSize : Z) : IcoImage :=
  match IcoParser.getBestMatch images targetSize with
  | Ok (Some r) => r
  | _ => mkIcoImage 0 0 [] bmp
  end.

(** The entry of the route for a target, when there is one. *)
Definition route_entry (images : list IcoImage) (targetSize : Z)
    : option string :=
  let r := server_best images targetSize in
  match format r with
  | bmp => dataUrl_of <$> sharp_png (buffer r)
  | png => Some (dataUrl_of (buffer r))
  end.

End ParseIcoRoute.

(** ** The designer page: its state and its handlers (the page component,
    lines 27-348, and the layer panel, lines 312-341) *)

(** [Partial<Layer>]: the keys that an update carries. For an optional
    field, [Some None] is the key with the value [undefined]. *)
Record PartialLayer (num : Type) : Type := mkPartial {
  u_id : option string;
  u_type : option LayerType;
  u_visible : option bool;
  u_opacity : option num;
  u_color : option (option (Color num));
  u_useColor : option bool;
  u_imageUrl : option (option string);
  u_sizeSpecificImages : option (option (gmap Z string));
  u_position : option (Position num);
  u_scale : option num;
  u_order : option Z;
  u_visibilityBySize : option (option (gmap Z bool));
  u_positionBySize : option (option (gmap Z (Position num)));
  u_scaleBySize : option (option (gmap Z num))
}.
Arguments mkPartial {num}.
Arguments u_id {num}.
Arguments u_type {num}.
Arguments u_visible {num}.
Arguments u_opacity {num}.
Arguments u_color {num}.
Arguments u_useColor {num}.
Arguments u_imageUrl {num}.
Arguments u_sizeSpecificImages {num}.
Arguments u_position {num}.
Arguments u_scale {num}.
Arguments u_order {num}.
Arguments u_visibilityBySize {num}.
Arguments u_positionBySize {num}.
Arguments u_scaleBySize {num}.

(** [{ ...layer, ...updates }]. *)
Definition spread {num} (layer : Layer num) (updates : PartialLayer num)
    : Layer num :=
  mkLayer
    (default (id layer) (u_id updates))
    (default (type layer) (u_type updates))
    (default (visible layer) (u_visible updates))
    (default (opacity layer) (u_opacity updates))
    (default (color layer) (u_color updates))
    (default (useColor layer) (u_useColor updates))
    (default (imageUrl layer) (u_imageUrl updates))
    (default (sizeSpecificImages layer) (u_sizeSpecificImages updates))
    (default (position layer) (u_position updates))
    (default (scale layer) (u_scale updates))
    (default (order layer) (u_order updates))
    (default (visibilityBySize layer) (u_visibilityBySize updates))
    (default (positionBySize layer) (u_positionBySize updates))
    (default (scaleBySize layer) (u_scaleBySize updates)).

(** [sizeViewMode]: ["global"] or the text of a size. *)
Inductive SizeViewMode : Type :=
  | global
  | only_size (size : Z).

Inductive Axis : Type := axis_x | axis_y.

Module IconDesigner.

(** The state of the page that its handlers read or write. The events
    are taken one at a time: a handler reads the state of the render that
    created it, and its updates are applied, in their order, before the
    next event is handled. *)
Record State (num : Type) : Type := mkState {
  layers : list (Layer num);
  sizeViewMode : SizeViewMode;
  autoResize : bool;
  imagePosition : Z * Z;
  selectedPositionIndex : Z;
  imageScale : Z
}.
Arguments mkState {num}.
Arguments layers {num}.
Arguments sizeViewMode {num}.
Arguments autoResize {num}.
Arguments imagePosition {num}.
Arguments selectedPositionIndex {num}.
Arguments imageScale {num}.

Section Handlers.
Context {num : Type} `{JsNumber num}.
Implicit Types (st : State num) (layer : Layer num).

(** The initial state (28-38). *)
Definition initial : State num :=
  mkState createDefaultLayers global true (128, 128) 4 100.

Definition setLayers st (f : list (Layer num) -> list (Layer num)) : State num :=
  mkState (f (layers st)) (sizeViewMode st) (autoResize st)
    (imagePosition st) (selectedPositionIndex st) (imageScale st).

(** [updateLayer] (43-47), on the list of layers. *)
Definition updateLayer (layerId : string) (updates : PartialLayer num)
    (prev : list (Layer num)) : list (Layer num) :=
  map (fun layer =>
    if decide (id layer = layerId) then spread layer updates else layer) prev.

(** [layers.find(l => l.id === "user-image")]. *)
Definition userImageLayer st : option (Layer num) :=
  find (fun l => bool_decide (id l = "user-image")) (layers st).

(** The position of the state as a position of a layer. *)
Definition position_of (p : Z * Z) : Position num :=
  mkPosition (of_Z p.1) (of_Z p.2).

(** [handleImageUpload] (145-153). *)
Definition handleImageUpload st (url : string) : State num :=
  setLayers st (updateLayer "user-image"
    (mkPartial None None (Some true) None None None (Some (Some url))
       (Some None) (Some (position_of (imagePosition st)))
       (Some (div (of_Z (imageScale st)) (of_Z 100))) None None None None)).

(** [handleSizeSpecificImageUpload] (155-175). *)
Definition handleSizeSpecificImageUpload st (size : Z) (url : string)
    : State num :=
  let currentSizeSpecificImages :=
    default ∅ (userImageLayer st ≫= sizeSpecificImages) in
  setLayers st (updateLayer "user-image"
    (mkPartial None None (Some true) None None None
       (Some (userImageLayer st ≫= imageUrl))
       (Some (Some (<[size := url]> currentSizeSpecificImages)))
       None None None None None None)).

(** [handleAutoResizeChange] (177-189). *)
Definition handleAutoResizeChange st (newAutoResize : bool) : State num :=
  let st' := mkState (layers st) (sizeViewMode st) newAutoResize
               (imagePosition st) (selectedPositionIndex st) (imageScale st) in
  if newAutoResize then
    match userImageLayer st ≫= sizeSpecificImages with
    | Some _ =>
        setLayers st' (updateLayer "user-image"
          (mkPartial None None None None None None None (Some None)
             None None None None None None))
    | None => st'
    end
  else st'.

(** [handleIcoUpload] (191-222); [handleSvgUpload] (224-255) has the same
    text. *)
Definition handleIcoUpload st (sizeImages : gmap Z string) : State num :=
  let st' := mkState (layers st) (sizeViewMode st) false
               (imagePosition st) (selectedPositionIndex st) (imageScale st) in
  let folder_updates :=
    mkPartial None None (Some true) (Some (of_Z 100)) None None None None
      None None None None None None in
  let st' := setLayers st' (updateLayer "back-folder" folder_updates) in
  let st' := setLayers st' (updateLayer "front-folder" folder_updates) in
  setLayers st' (updateLayer "user-image"
    (mkPartial None None (Some true) None None None (Some None)
       (Some (Some sizeImages)) (Some (position_of (imagePosition st)))
       (Some (div (of_Z (imageScale st)) (of_Z 100))) None None None None)).

Definition handleSvgUpload st (sizeImages : gmap Z string) : State num :=
  handleIcoUpload st sizeImages.

(** [handleColorChange] (257-259) and [handleUseColorChange] (261-263). *)
Definition handleColorChange st (layerId : string) (c : Color num) : State num :=
  setLayers st (updateLayer layerId
    (mkPartial None None None None (Some (Some c)) None None None
       None None None None None None)).

Definition handleUseColorChange st (layerId : string) (b : bool) : State num :=
  setLayers st (updateLayer layerId
    (mkPartial None None None None None (Some b) None None
       None None None None None None)).

(** The grid of [handlePositionChange] (267-277). *)
Definition positions : list (Z * Z) :=
  [(64, 64); (128, 64); (192, 64);
   (64, 128); (128, 128); (192, 128);
   (64, 192); (128, 192); (192, 192)].

(** [positions[position] || positions[4]]. *)
Definition grid_position (position : Z) : Z * Z :=
  if decide (0 <= position)
  then default (128, 128) (positions !! Z.to_nat position)
  else (128, 128).

(** The update of a position, for all sizes or for the size of the view
    (283-299 and 331-347). *)
Definition position_updates st (newPosition : Z * Z) : PartialLayer num :=
  match sizeViewMode st with
  | global =>
      mkPartial None None None None None None None None
        (Some (position_of newPosition)) None None None (Some None) None
  | only_size size =>
      let currentPositionBySize :=
        default ∅ (userImageLayer st ≫= positionBySize) in
      mkPartial None None None None None None None None None None None None
        (Some (Some (<[size := position_of newPosition]> currentPositionBySize)))
        None
  end.

(** [handlePositionChange] (265-300). *)
Definition handlePositionChange st (position : Z) : State num :=
  let newPosition := grid_position position in
  let st' := mkState (layers st) (sizeViewMode st) (autoResize st)
               newPosition position (imageScale st) in
  setLayers st' (updateLayer "user-image" (position_updates st newPosition)).

(** [handleScaleChange] (302-323). *)
Definition handleScaleChange st (scale : Z) : State num :=
  let clampedScale := Z.max 10 (Z.min 200 scale) in
  let st' := mkState (layers st) (sizeViewMode st) (autoResize st)
               (imagePosition st) (selectedPositionIndex st) clampedScale in
  let newScale := div (of_Z clampedScale) (of_Z 100) in
  match sizeViewMode st with
  | global =>
      setLayers st' (updateLayer "user-image"
        (mkPartial None None None None None None None None None
           (Some newScale) None None None (Some None)))
  | only_size size =>
      let currentScaleBySize :=
        default ∅ (userImageLayer st ≫= scaleBySize) in
      setLayers st' (updateLayer "user-image"
        (mkPartial None None None None None None None None None None None
           None None (Some (Some (<[size := newScale]> currentScaleBySize)))))
  end.

(** [handleGranularPositionChange] (325-348). *)
Definition handleGranularPositionChange st (axis : Axis) (value : Z)
    : State num :=
  let clampedValue := Z.max 0 (Z.min 256 value) in
  let newPosition :=
    match axis with
    | axis_x => (clampedValue, (imagePosition st).2)
    | axis_y => ((imagePosition st).1, clampedValue)
    end in
  let st' := mkState (layers st) (sizeViewMode st) (autoResize st)
               newPosition (selectedPositionIndex st) (imageScale st) in
  setLayers st' (updateLayer "user-image" (position_updates st newPosition)).

(** The layer panel lists the layers by descending order (line 433). *)
Definition panel_layers st : list (Layer num) :=
  js_sort (fun a b => order b - order a) (layers st).

(** [isVisible] of a layer item (324-326). *)
Definition isVisible (selectedSize : SizeViewMode) layer : bool :=
  match selectedSize, visibilityBySize layer with
  | only_size size, Some visibility => default (visible layer) (visibility !! size)
  | _, _ => visible layer
  end.

(** The update of [toggleVisibility] (328-341). *)
Definition toggle_updates (selectedSize : SizeViewMode) layer
    : PartialLayer num :=
  match selectedSize with
  | only_size size =>
      let currentVisibilityBySize := default ∅ (visibilityBySize layer) in
      mkPartial None None None None None None None None None None None
        (Some (Some (<[size := negb (isVisible selectedSize layer)]>
                       currentVisibilityBySize)))
        None None
  | global =>
      mkPartial None None (Some (negb (visible layer))) None None None None
        None None None None None None None
  end.

(** [toggleVisibility] of the item of a layer: the update goes to the
    layers of that id. *)
Definition toggleVisibility st layer : State num :=
  setLayers st (updateLayer (id layer) (toggle_updates (sizeViewMode st) layer)).

(** The opacity slider of the item of a layer (405-413). *)
Definition handleOpacityChange st layer (value : num) : State num :=
  setLayers st (updateLayer (id layer)
    (mkPartial None None None (Some value) None None None None None None None
       None None None)).

Definition setSizeViewMode st (mode : SizeViewMode) : State num :=
  mkState (layers st) mode (autoResize st) (imagePosition st)
    (selectedPositionIndex st) (imageScale st).

(** The events of the page. An item of the layer panel is named by its
    index in the panel. *)
Inductive Action : Type :=
  | ImageUpload (url : string)
  | SizeSpecificImageUpload (size : Z) (url : string)
  | AutoResizeChange (newAutoResize : bool)
  | IcoUpload (sizeImages : gmap Z string)
  | SvgUpload (sizeImages : gmap Z string)
  | ColorChange (layerId : string) (c : Color num)
  | UseColorChange (layerId : string) (b : bool)
  | PositionChange (position : Z)
  | ScaleChange (scale : Z)
  | GranularPositionChange (axis : Axis) (value : Z)
  | LayerReorder (dragIndex hoverIndex : nat)
  | VisibilityToggle (index : nat)
  | OpacityChange (index : nat) (value : num)
  | SizeViewModeChange (mode : SizeViewMode).

Definition step st (a : Action) : State num :=
  match a with
  | ImageUpload url => handleImageUpload st url
  | SizeSpecificImageUpload size url => handleSizeSpecificImageUpload st size url
  | AutoResizeChange b => handleAutoResizeChange st b
  | IcoUpload sizeImages => handleIcoUpload st sizeImages
  | SvgUpload sizeImages => handleSvgUpload st sizeImages
  | ColorChange layerId c => handleColorChange st layerId c
  | UseColorChange layerId b => handleUseColorChange st layerId b
  | PositionChange position => handlePositionChange st position
  | ScaleChange scale => handleScaleChange st scale
  | GranularPositionChange axis value =>
      handleGranularPositionChange st axis value
  | LayerReorder dragIndex hoverIndex =>
      setLayers st (fun prev => reorderLayers prev dragIndex hoverIndex)
  | VisibilityToggle index =>
      match panel_layers st !! index with
      | Some layer => toggleVisibility st layer
      | None => st
      end
  | OpacityChange index value =>
      match panel_layers st !! index with
      | Some layer => handleOpacityChange st layer value
      | None => st
      end
  | SizeViewModeChange mode => setSizeViewMode st mode
  end.

(** The state after a sequence of events, from the initial state. *)
Definition run (actions : list Action) : State num :=
  foldl step initial actions.

End Handlers.

End IconDesigner.

(** ** Invariants of the designer page *)

(** A position with whole coordinates between 0 and 256. *)
Definition position_in_canvas {num} `{JsNumber num} (p : Position num) : Prop :=
  exists x y, p = mkPosition (of_Z x) (of_Z y)
    /\ 0 <= x <= 256 /\ 0 <= y <= 256.

(** A scale between 0.1 and 2, the bounds of the schema. *)
Definition scale_in_schema (v : Qc) : Prop :=
  (Q2Qc (1 # 10) <= v)%Qc /\ (v <= Q2Qc 2)%Qc.

(** The scales and the positions of a layer are within their bounds, for
    all sizes and for each size. *)
Definition layer_in_bounds (layer : Layer Qc) : Prop :=
  scale_in_schema (scale layer)
  /\ position_in_canvas (position layer)
  /\ (forall size v, opt_lookup (scaleBySize layer) size = Some v ->
        scale_in_schema v)
  /\ (forall size p, opt_lookup (positionBySize layer) size = Some p ->
        position_in_canvas p).

(** ** The color picker (lines 531-586 of the components) *)

(** [a || b] on a string that may be [undefined]. *)
Definition or_string (a : option string) (b : string) : string :=
  match a with
  | Some s => if String.eqb s "" then b else s
  | None => b
  end.

Module ColorPicker.

Section Picker.
Context {num : Type} `{JsNumber num}.

(** The color that each handler passes to [onChange]; [activeType] is
    the state of the picker. *)


(** [handleColorChange] (555-574). *)
Definition handleColorChange (color : Color num) (activeType : ColorType)
    (newColor : string) : Color num :=
  match activeType with
  | solid => mkColor activeType newColor (gradient color)
  | _ =>
      mkColor activeType newColor
        (Some (mkGradient newColor
                 (or_string (g_end <$> gradient color) "#000000")
                 (Some (or_num (gradient color ≫= direction num) (of_Z 45)))))
  end.


End Picker.

End ColorPicker.


(** ** The upload form: [handleFileSelect] (lines 37-102 of the form) *)

(** A file with its MIME type. *)
Record Upload : Type := mkUpload {
  up_file : File;
  up_type : string
}.

(** What [handleFileSelect] ends with: a toast of refusal, a call of
    [onIcoUpload] or of [onImageUpload], or the toast of a failure. *)
Inductive UploadOutcome : Type :=
  | InvalidFileType
  | FileTooLarge
  | IcoProcessed (sizeImages : gmap Z string)
  | ImageUploaded (dataUrl : string)
  | UploadFailed.

Section FileSelect.
(** [ClientIcoProcessor.parseIcoFile], whole, and [fileToDataUrl]. *)
Context (parseIcoFile : File -> result (gmap Z string)).
Context (fileToDataUrl : File -> option string).

(** [handleFileSelect], with the handler [onIcoUpload] that the page
    passes to the form. *)
Definition handleFileSelect (u : Upload) : UploadOutcome :=
  let file := up_file u in
  let name := ClientIcoProcessor.toLowerCase (file_name file) in
  let isIcoFile :=
    ClientIcoProcessor.endsWith name ".ico"
    || String.eqb (up_type u) "application/octet-stream" in
  let isSvgFile :=
    ClientIcoProcessor.endsWith name ".svg"
    || String.eqb (up_type u) "image/svg+xml" in
  let isImageFile := startsWith (up_type u) "image/" in
  if negb isImageFile && negb isIcoFile && negb isSvgFile then InvalidFileType
  else if decide (10 * 1024 * 1024 < Z.of_nat (length (file_bytes file)))
  then FileTooLarge
  else if isIcoFile then
    match parseIcoFile file with
    | Ok sizeImages => IcoProcessed sizeImages
    | Err _ => UploadFailed
    end
  else
    match fileToDataUrl file with
    | Some dataUrl => ImageUploaded dataUrl
    | None => UploadFailed
    end.

End FileSelect.

(** The stack of the page: the three layers of the initial state by id
    and by type, with the orders 0, 1 and 2 in some arrangement. *)
Definition stack_shape {num} (ls : list (Layer num)) : Prop :=
  id <$> ls = ["back-folder"; "front-folder"; "user-image"]
  /\ type <$> ls = [back_folder; front_folder; user_image]
  /\ order <$> ls ≡ₚ [0; 1; 2].

(** The controls of the page are within their ranges. *)
Definition controls_in_range {num} (st : IconDesigner.State num) : Prop :=
  10 <= IconDesigner.imageScale st <= 200
  /\ 0 <= (IconDesigner.imagePosition st).1 <= 256
  /\ 0 <= (IconDesigner.imagePosition st).2 <= 256.

(** The invariant of the page, in exact arithmetic. *)
Definition page_invariant (st : IconDesigner.State Qc) : Prop :=
  controls_in_range st /\ Forall layer_in_bounds (IconDesigner.layers st).

(** ** Properties of a selection, as the code shows them *)

(** [r] is the first element of [l] whose key is the least of the keys. *)
Definition first_least {A} (key : A -> Z) (l : list A) (r : A) : Prop :=
  exists k, l !! k = Some r
    /\ (forall j x, (j < k)%nat -> l !! j = Some x -> key r < key x)
    /\ (forall x, x ∈ l -> key r <= key x).

(** [r] is the first element of [l] whose key is the greatest. *)
Definition first_greatest {A} (key : A -> Z) (l : list A) (r : A) : Prop :=
  exists k, l !! k = Some r
    /\ (forall j x, (j < k)%nat -> l !! j = Some x -> key x < key r)
    /\ (forall x, x ∈ l -> key x <= key r).

(** The images that are large enough for a target, in directory order. *)
Definition larger_images (images : list IcoImage) (targetSize : Z)
    : list IcoImage :=
  filter (fun img => targetSize <= width img /\ targetSize <= height img) images.

(** A parsed image as the reader builds it from a directory entry. *)
Definition parsed_image_ok (icoBuffer : list byte) (img : IcoImage) : Prop :=
  1 <= width img <= 256 /\ 1 <= height img <= 256
  /\ (length (buffer img) <= length icoBuffer)%nat
  /\ format img = detect_format (buffer img).

(** An entry whose size the one-byte writes of the server refuse. *)
Definition size_out_of_range (e : Z * list byte) : Prop :=
  ~ (0 <= e.1 <= 256).

(** ** The drawing calls of a rendering pass *)



(** ** Concrete inputs of the code around the codec *)

(** A browser that decodes no image. *)
Definition no_image : string -> option unit := fun _ => None.

(** A browser that encodes every canvas as the eight bytes of the PNG
    signature, and one that fails at size 256. *)
Definition png_canvas (size : Z) (ops : list (CanvasOp Qc unit))
    : result (list byte) :=
  Ok png_signature.

Definition failing_256_canvas (size : Z) (ops : list (CanvasOp Qc unit))
    : result (list byte) :=
  if decide (size = 256) then Err RangeError else Ok png_signature.

(** A sharp that returns its input. *)
Definition sharp_identity (buffer : list byte) (size : Z) : option (list byte) :=
  Some buffer.

(** A sharp that decodes no input. *)
Definition sharp_failing (buffer : list byte) (size : Z) : option (list byte) :=
  None.

(** A map with one canonical size and one size that is not canonical. *)
Definition mixed_sizes : gmap Z (list byte) :=
  <[48 := png_signature]> (<[32 := png_signature]> ∅).

(** A browser that reads every blob as the same data URL, decodes every
    image and draws it as one more data URL. *)
Definition blob_url (mime : string) (data : list byte) : option string :=
  Some "data:image/png;base64,iVBORw0KGgo=".
Definition object_url (mime : string) (data : list byte) : string :=
  "blob:1".
Definition decode_unit (url : string) : option unit := Some tt.
Definition resized_url (img : unit) (targetSize : Z) : string :=
  "data:image/png;base64,AAAA".
Definition canvas_url (width height : Z) (rgba : list byte) : string :=
  "data:image/png;base64,BBBB".
Definition fallback_url (targetSize : Z) : string :=
  "data:image/png;base64,CCCC".

(** A container with one 1x1 entry whose payload is a raw bitmap: forty
    bytes of header and the pixel B=1, G=2, R=3, A=4. *)
Definition one_pixel_bmp : list byte :=
  replicate 40 x00 ++ [x01; x02; x03; x04].
Definition one_bmp_ico : list byte :=
  [x00; x00; x01; x00; x01; x00;
   x01; x01; x00; x00; x01; x00; x20; x00;
   x2c; x00; x00; x00; x16; x00; x00; x00]
  ++ one_pixel_bmp.
Definition one_bmp_file : File := mkFile "pixel.ico" one_bmp_ico.

(** The layers of the initial state of the page, one by one. *)
Definition default_front_folder : Layer Qc :=
  mkLayer "front-folder" front_folder true (of_Z 100)
    (Some (mkColor solid "#F59E0B" None)) false None None
    (mkPosition (of_Z 128) (of_Z 128)) (of_Z 1) 1 None None None.

Definition default_user_image : Layer Qc :=
  mkLayer "user-image" user_image true (of_Z 100)
    (Some (mkColor solid "#FFFFFF" None)) false None None
    (mkPosition (of_Z 128) (of_Z 128)) (of_Z 1) 2 None None None.

Definition initial_state : IconDesigner.State Qc := IconDesigner.initial.

(** * Properties *)

(** * Bytes and little-endian fields *)

Lemma byte_val_range (b : byte) : 0 <= byte_val b < 256.
Proof.
  unfold byte_val. pose proof (Byte.to_N_bounded b). lia.
Qed.

Lemma byte_val_of_Z (z : Z) : byte_val (byte_of_Z z) = z mod 256.
Proof.
  unfold byte_val, byte_of_Z.
  assert (Hr : 0 <= z mod 256 < 256) by (apply Z.mod_pos_bound; lia).
  destruct (Byte.of_N (Z.to_N (z mod 256))) as [b|] eqn:E.
  - apply Byte.to_of_N in E. rewrite E. lia.
  - apply Byte.of_N_None_iff in E. lia.
Qed.

Lemma byte_of_Z_val (b : byte) : byte_of_Z (byte_val b) = b.
Proof.
  unfold byte_of_Z, byte_val. pose proof (Byte.to_N_bounded b).
  rewrite Z.mod_small by lia. rewrite N2Z.id, Byte.of_to_N. reflexivity.
Qed.

Lemma byte_val_inj (a b : byte) : byte_val a = byte_val b -> a = b.
Proof.
  intros E. rewrite <- (byte_of_Z_val a), <- (byte_of_Z_val b). by rewrite E.
Qed.

Lemma length_le_bytes (k : nat) (z : Z) : length (le_bytes k z) = k.
Proof. revert z. induction k; intros; simpl; auto. Qed.

Lemma le_value_range (bs : list byte) : 0 <= le_value bs < 256 ^ Z.of_nat (length bs).
Proof.
  induction bs as [|b bs IH]; simpl length; simpl le_value.
  - simpl. lia.
  - pose proof (byte_val_range b).
    rewrite Nat2Z.inj_succ, Z.pow_succ_r by lia. lia.
Qed.

Lemma le_value_le_bytes (k : nat) (z : Z) :
  le_value (le_bytes k z) = z mod 256 ^ Z.of_nat k.
Proof.
  revert z. induction k as [|k IH]; intros z.
  - simpl. by rewrite Z.mod_1_r.
  - cbn [le_bytes le_value]. rewrite IH, byte_val_of_Z.
    rewrite Nat2Z.inj_succ, Z.pow_succ_r by lia.
    rewrite Z.rem_mul_r by lia. reflexivity.
Qed.

Lemma le_value_le_bytes_small (k : nat) (z : Z) :
  0 <= z < 256 ^ Z.of_nat k -> le_value (le_bytes k z) = z.
Proof. intros. rewrite le_value_le_bytes. by apply Z.mod_small. Qed.

(** * Reads *)

Lemma readUInt8_le_at (buf : list byte) (off : nat) :
  (off + 1 <= length buf)%nat -> readUInt8 buf off = Ok (le_at buf off 1).
Proof.
  intros Hl. unfold readUInt8, le_at.
  destruct (buf !! off) as [b|] eqn:E.
  - rewrite (drop_S _ _ _ E). simpl. f_equal. lia.
  - apply lookup_ge_None in E. lia.
Qed.

Lemma readUInt16LE_le_at (buf : list byte) (off : nat) :
  (off + 2 <= length buf)%nat -> readUInt16LE buf off = Ok (le_at buf off 2).
Proof.
  intros Hl. unfold readUInt16LE, readUInt8, le_at.
  destruct (buf !! off) as [b0|] eqn:E0;
    [|apply lookup_ge_None in E0; lia].
  destruct (buf !! (off + 1)%nat) as [b1|] eqn:E1;
    [|apply lookup_ge_None in E1; lia].
  rewrite (drop_S _ _ _ E0). replace (S off) with (off + 1)%nat by lia.
  rewrite (drop_S _ _ _ E1). simpl. f_equal. lia.
Qed.

Lemma readUInt32LE_le_at (buf : list byte) (off : nat) :
  (off + 4 <= length buf)%nat -> readUInt32LE buf off = Ok (le_at buf off 4).
Proof.
  intros Hl. unfold readUInt32LE, readUInt8, le_at.
  destruct (buf !! off) as [b0|] eqn:E0;
    [|apply lookup_ge_None in E0; lia].
  destruct (buf !! (off + 1)%nat) as [b1|] eqn:E1;
    [|apply lookup_ge_None in E1; lia].
  destruct (buf !! (off + 2)%nat) as [b2|] eqn:E2;
    [|apply lookup_ge_None in E2; lia].
  destruct (buf !! (off + 3)%nat) as [b3|] eqn:E3;
    [|apply lookup_ge_None in E3; lia].
  rewrite (drop_S _ _ _ E0). replace (S off) with (off + 1)%nat by lia.
  rewrite (drop_S _ _ _ E1). replace (S (off + 1)) with (off + 2)%nat by lia.
  rewrite (drop_S _ _ _ E2). replace (S (off + 2)) with (off + 3)%nat by lia.
  rewrite (drop_S _ _ _ E3). simpl. f_equal. lia.
Qed.

Lemma le_at_range (buf : list byte) (off k : nat) :
  0 <= le_at buf off k < 256 ^ Z.of_nat k.
Proof.
  unfold le_at. pose proof (le_value_range (take k (drop off buf))) as Hr.
  assert (Hk : (length (take k (drop off buf)) <= k)%nat)
    by (rewrite length_take; lia).
  split; [lia|]. eapply Z.lt_le_trans; [apply Hr|].
  apply Z.pow_le_mono_r; lia.
Qed.

(** * The directory pass of the reader *)

Lemma parse_entries_ok (buf : list byte) (r i : nat) (imgs : list IcoImage) :
  (forall j, (i <= j < i + r)%nat -> entry_ok buf j) ->
  IcoParser.parse_entries buf r i imgs
  = Ok (imgs ++ map (entry_image buf) (seq i r)).
Proof.
  revert i imgs. induction r as [|r IH]; intros i imgs Hok.
  - simpl. by rewrite app_nil_r.
  - destruct (Hok i ltac:(lia)) as [Hdir Hpay].
    cbn [IcoParser.parse_entries].
    replace (6 + i * 16)%nat with (6 + 16 * i)%nat by lia.
    rewrite decide_False by lia.
    rewrite !readUInt8_le_at, !readUInt32LE_le_at by lia.
    cbn [bind].
    fold (entry_imageOffset buf i) (entry_imageSize buf i).
    rewrite decide_False by lia.
    rewrite IH by (intros j Hj; apply Hok; lia).
    cbn [seq map]. rewrite <- app_assoc. reflexivity.
Qed.

Lemma parse_entries_err (buf : list byte) (r i j : nat) (imgs : list IcoImage) :
  (i <= j < i + r)%nat -> ~ entry_ok buf j ->
  IcoParser.parse_entries buf r i imgs = Err TruncatedDirectoryEntry
  \/ IcoParser.parse_entries buf r i imgs = Err ImageDataOutOfBounds.
Proof.
  revert i imgs. induction r as [|r IH]; intros i imgs Hj Hbad; [lia|].
  cbn [IcoParser.parse_entries].
  replace (6 + i * 16)%nat with (6 + 16 * i)%nat by lia.
  case_decide as Hdir; [by left|].
  rewrite !readUInt8_le_at, !readUInt32LE_le_at by lia.
  cbn [bind].
  fold (entry_imageOffset buf i) (entry_imageSize buf i).
  case_decide as Hpay; [by right|].
  apply IH; [|done].
  destruct (decide (j = i)) as [->|]; [|lia].
  exfalso. apply Hbad. split; lia.
Qed.

(** The header fields as [parse] reads them. *)
Lemma parse_unfold (buf : list byte) :
  (6 <= length buf)%nat ->
  IcoParser.parse buf =
    if decide (header_reserved buf <> 0 \/ header_type buf <> 1)
    then Err IncorrectHeader
    else if decide (header_count buf = 0 \/ 255 < header_count buf)
    then Err InvalidImageCount
    else IcoParser.parse_entries buf (Z.to_nat (header_count buf)) 0 [].
Proof.
  intros Hl. unfold IcoParser.parse. rewrite decide_False by lia.
  rewrite !readUInt16LE_le_at by lia. reflexivity.
Qed.

Lemma parse_ok_of_well_formed (buf : list byte) :
  ~ ico_malformed buf ->
  IcoParser.parse buf
  = Ok (map (entry_image buf) (seq 0 (Z.to_nat (header_count buf)))).
Proof.
  intros Hwf. unfold ico_malformed in Hwf.
  assert (Hl : (6 <= length buf)%nat) by (apply Nat.nlt_ge; tauto).
  rewrite parse_unfold by done.
  rewrite decide_False by tauto. rewrite decide_False by tauto.
  rewrite parse_entries_ok; [done|].
  intros j Hj. split.
  - apply Nat.nlt_ge. intros Hc. apply Hwf. do 5 right. left.
    exists j. split; [lia|done].
  - apply Z.nlt_ge. intros Hc. apply Hwf. do 6 right.
    exists j. split; [lia|done].
Qed.

Lemma parse_err_of_malformed (buf : list byte) :
  ico_malformed buf ->
  exists e, IcoParser.parse buf = Err e /\
    (e = TooSmall \/ e = IncorrectHeader \/ e = InvalidImageCount
     \/ e = TruncatedDirectoryEntry \/ e = ImageDataOutOfBounds).
Proof.
  intros Hm.
  destruct (decide (length buf < 6)%nat) as [Hs|Hl].
  { exists TooSmall. unfold IcoParser.parse. rewrite decide_True by done. tauto. }
  rewrite parse_unfold by lia.
  case_decide as Hh; [exists IncorrectHeader; tauto|].
  case_decide as Hc; [exists InvalidImageCount; tauto|].
  assert (Hbad : exists j, Z.of_nat j < header_count buf /\ ~ entry_ok buf j).
  { destruct Hm as [?|[?|[?|[?|[?|[(j & Hj & Ht)|(j & Hj & Ho)]]]]]];
      try tauto; try lia.
    - exists j. split; [done|]. unfold entry_ok. lia.
    - exists j. split; [done|]. unfold entry_ok. lia. }
  destruct Hbad as (j & Hj & Hbad).
  destruct (parse_entries_err buf (Z.to_nat (header_count buf)) 0 j []
              ltac:(lia) Hbad) as [E|E]; rewrite E; eauto 10.
Qed.

Lemma ico_malformed_dec (buf : list byte) :
  ico_malformed buf \/ ~ ico_malformed buf.
Proof.
  unfold ico_malformed.
  destruct (decide (length buf < 6)%nat); [tauto|].
  destruct (decide (header_reserved buf = 0)); [|tauto].
  destruct (decide (header_type buf = 1)); [|tauto].
  destruct (decide (header_count buf = 0)); [tauto|].
  destruct (decide (255 < header_count buf)); [tauto|].
  destruct (decide (Forall (entry_ok buf)
                      (seq 0 (Z.to_nat (header_count buf))))) as [Hall|Hex].
  - right. rewrite Forall_forall in Hall.
    intros [?|[?|[?|[?|[?|[(j & Hj & Ht)|(j & Hj & Ho)]]]]]]; try done.
    + assert (Hin : j ∈ seq 0 (Z.to_nat (header_count buf)))
        by (apply elem_of_seq; lia).
      destruct (Hall j Hin) as [? ?]. lia.
    + assert (Hin : j ∈ seq 0 (Z.to_nat (header_count buf)))
        by (apply elem_of_seq; lia).
      destruct (Hall j Hin) as [? ?]. lia.
  - left. apply not_Forall_Exists in Hex; [|apply _].
    apply Exists_exists in Hex as (j & Hj & Hbad).
    apply elem_of_seq in Hj. unfold entry_ok in Hbad.
    destruct (decide (length buf < 6 + 16 * j + 16)%nat).
    + do 5 right. left. exists j. split; [lia|done].
    + do 6 right. exists j. split; [lia|].
      apply Z.nle_gt. intros Hle. apply Hbad. split; lia.
Qed.

Lemma parse_err_iff_malformed (buf : list byte) :
  is_Err (IcoParser.parse buf) <-> ico_malformed buf.
Proof.
  split.
  - intros He. destruct (ico_malformed_dec buf) as [|Hn]; [done|].
    rewrite (parse_ok_of_well_formed buf Hn) in He. destruct He.
  - intros Hm. apply parse_err_of_malformed in Hm as (e & -> & _). exact I.
Qed.

(** * The client readers read what the server reader reads *)

Lemma client_parse_entries_eq (buf : list byte) (r i : nat) (imgs : list IcoImage) :
  client_parse_entries buf r i imgs = IcoParser.parse_entries buf r i imgs.
Proof.
  revert i imgs. induction r as [|r IH]; intros i imgs; [done|].
  cbn [client_parse_entries IcoParser.parse_entries].
  case_decide as Hdir; [done|].
  unfold DataView_new. rewrite decide_False by lia. cbn [bind].
  unfold getUint8, getUint32. cbn [dv_length dv_offset dv_buffer].
  rewrite !decide_False by lia.
  rewrite Nat.add_0_r.
  destruct (readUInt8 buf (6 + i * 16)) as [w|]; [|done]. cbn [bind].
  destruct (readUInt8 buf (6 + i * 16 + 1)) as [h|]; [|done]. cbn [bind].
  destruct (readUInt32LE buf (6 + i * 16 + 8)) as [sz|]; [|done]. cbn [bind].
  destruct (readUInt32LE buf (6 + i * 16 + 12)) as [off|]; [|done]. cbn [bind].
  case_decide; [done|]. apply IH.
Qed.

Lemma client_parse_header_eq (buf : list byte) :
  client_parse_header buf = IcoParser.parse buf.
Proof.
  unfold client_parse_header, IcoParser.parse.
  case_decide as Hl; [done|].
  unfold getUint16, DataView_whole. cbn [dv_length dv_offset dv_buffer].
  rewrite !decide_False by lia. cbn [Nat.add].
  destruct (readUInt16LE buf 0) as [a|]; [|done]. cbn [bind].
  destruct (readUInt16LE buf 2) as [b|]; [|done]. cbn [bind].
  destruct (readUInt16LE buf 4) as [c|]; [|done]. cbn [bind].
  repeat case_decide; try done. apply client_parse_entries_eq.
Qed.

(** A container of fewer than 22 bytes is malformed: the size gate of
    [validateIcoFile] rejects nothing that the directory pass accepts. *)
Lemma short_file_malformed (buf : list byte) :
  (length buf < 22)%nat -> ico_malformed buf.
Proof.
  intros Hs. unfold ico_malformed.
  destruct (decide (header_count buf = 0)) as [|Hc]; [tauto|].
  do 5 right. left. exists 0%nat.
  pose proof (le_at_range buf 4 2) as Hr. fold (header_count buf) in Hr.
  split; lia.
Qed.

Lemma parseIcoFile_v2_err_iff (file : File) :
  is_Err (ClientIcoProcessor.parseIcoFile file)
  <-> ClientIcoProcessor.endsWith
        (ClientIcoProcessor.toLowerCase (file_name file)) ".ico" = false
      \/ ico_malformed (file_bytes file).
Proof.
  unfold ClientIcoProcessor.parseIcoFile, ClientIcoProcessor.validateIcoFile.
  destruct (ClientIcoProcessor.endsWith _ _) eqn:En; cbn [negb].
  - case_decide as Hs; cbn [negb].
    + split; [|done]. intros _. right. by apply short_file_malformed.
    + rewrite client_parse_header_eq, parse_err_iff_malformed.
      split; [tauto|]. intros [?|?]; done.
  - split; [tauto|done].
Qed.

(** * The selection *)

Section Select.
Context {A : Type} (m : A -> Z) (f : A -> A -> A).
Hypothesis f_selects : forall best current,
  (f best current = current /\ m current < m best)
  \/ (f best current = best /\ m best <= m current).

Lemma foldl_select (l : list A) (x : A) :
  foldl f x l ∈ x :: l /\ forall y, y ∈ x :: l -> m (foldl f x l) <= m y.
Proof.
  revert x. induction l as [|c l IH]; intros x; cbn [foldl].
  - split; [apply list_elem_of_here|].
    intros y Hy. apply list_elem_of_singleton in Hy as ->. lia.
  - destruct (IH (f x c)) as [Hin Hmin]. split.
    + apply elem_of_cons in Hin as [->|Hin].
      * destruct (f_selects x c) as [[-> _]|[-> _]];
          [apply list_elem_of_further, list_elem_of_here
          |apply list_elem_of_here].
      * by do 2 apply list_elem_of_further.
    + intros y Hy.
      assert (Hfx : m (foldl f (f x c) l) <= m (f x c))
        by (apply Hmin, list_elem_of_here).
      set (r := foldl f (f x c) l) in *. clearbody r.
      apply elem_of_cons in Hy as [->|Hy].
      * destruct (f_selects x c) as [[E ?]|[E ?]]; rewrite E in Hfx; lia.
      * apply elem_of_cons in Hy as [->|Hy].
        -- destruct (f_selects x c) as [[E ?]|[E ?]]; rewrite E in Hfx; lia.
        -- apply Hmin. by apply list_elem_of_further.
Qed.

Lemma reduce_select (l : list A) :
  l <> [] ->
  exists r, reduce f l = Ok r /\ r ∈ l /\ forall y, y ∈ l -> m r <= m y.
Proof.
  destruct l as [|x l]; [done|]. intros _.
  exists (foldl f x l). split; [done|]. apply foldl_select.
Qed.
End Select.

Lemma find_exact_Some (images : list IcoImage) (t : Z) (r : IcoImage) :
  find (fun img => bool_decide (width img = t /\ height img = t)) images = Some r ->
  r ∈ images /\ exact_match t r.
Proof.
  intros Hf. apply find_some in Hf as [Hin Hb].
  apply bool_decide_eq_true in Hb. split; [by apply list_elem_of_In|done].
Qed.

Lemma find_exact_None (images : list IcoImage) (t : Z) :
  find (fun img => bool_decide (width img = t /\ height img = t)) images = None ->
  ~ exists i, i ∈ images /\ exact_match t i.
Proof.
  intros Hf (i & Hin & Hex).
  apply list_elem_of_In in Hin. apply (find_none _ _ Hf) in Hin.
  apply bool_decide_eq_false in Hin. by apply Hin.
Qed.

Ltac solve_selects :=
  let b := fresh "b" in let c := fresh "c" in
  intros b c; unfold area, max_dimension; cbv beta;
  case_decide; [left|right]; (split; [reflexivity|lia]).

Lemma length_zero_iff_nil' {A} (l : list A) : (length l = 0)%nat <-> l = [].
Proof. destruct l; simpl; split; intros; done. Qed.

Lemma client_getBestMatch_nil (t : Z) : client_getBestMatch [] t = Ok None.
Proof. reflexivity. Qed.

Lemma client_getBestMatch_spec (images : list IcoImage) (t : Z) :
  images <> [] ->
  exists r, client_getBestMatch images t = Ok (Some r)
            /\ bestMatch_spec images t r.
Proof.
  intros Hne. unfold client_getBestMatch.
  rewrite decide_False by (by rewrite length_zero_iff_nil').
  destruct (find _ images) as [e|] eqn:Hfind.
  { apply find_exact_Some in Hfind as [Hin Hex].
    exists e. split; [done|].
    split; [done|]. split; [done|].
    split; intros Hno; exfalso; apply Hno; by exists e. }
  apply find_exact_None in Hfind.
  set (larger := filter _ images).
  case_decide as Hlen.
  - destruct (reduce_select area
        (fun best current =>
           if decide (width current * height current < width best * height best)
           then current else best) ltac:(solve_selects)
        larger) as (r & -> & Hin & Hmin).
    { intros E. rewrite E in Hlen. simpl in Hlen. lia. }
    exists r. split; [done|].
    apply list_elem_of_filter in Hin as [Hlarge Hin].
    split; [done|]. split; [intros Hex; by destruct Hfind|].
    split.
    + intros _ _. split; [done|].
      intros i Hi Hli. apply Hmin. by apply list_elem_of_filter.
    + intros _ Hno. exfalso. apply Hno. by exists r.
  - assert (Hnil : larger = []).
    { destruct larger; [done|]. simpl in Hlen. lia. }
    destruct (reduce_select (fun i => - area i)
        (fun best current =>
           if decide (width best * height best < width current * height current)
           then current else best) ltac:(solve_selects)
        images Hne) as (r & -> & Hin & Hmax).
    exists r. split; [done|].
    assert (Hnone : ~ exists i, i ∈ images /\ large_enough t i).
    { intros (i & Hi & Hli).
      assert (Hf : i ∈ larger) by (by apply list_elem_of_filter).
      rewrite Hnil in Hf. by apply elem_of_nil in Hf. }
    split; [done|]. split; [intros Hex; by destruct Hfind|].
    split.
    + intros _ Hex. by destruct Hnone.
    + intros _ _ i Hi. specialize (Hmax i Hi). cbv beta in Hmax. lia.
Qed.

Lemma client_getBestMatch_None_iff (images : list IcoImage) (t : Z) :
  client_getBestMatch images t = Ok None <-> images = [].
Proof.
  split; [|by intros ->].
  intros E. destruct images as [|i images]; [done|].
  destruct (client_getBestMatch_spec (i :: images) t) as (r & Hr & _); [done|].
  congruence.
Qed.

Lemma server_getBestMatch_elem (images : list IcoImage) (t : Z) :
  images <> [] ->
  exists r, IcoParser.getBestMatch images t = Ok (Some r) /\ r ∈ images.
Proof.
  intros Hne. unfold IcoParser.getBestMatch.
  rewrite decide_False by (by rewrite length_zero_iff_nil').
  destruct (find _ images) as [e|] eqn:Hfind.
  { apply find_exact_Some in Hfind as [Hin _]. by exists e. }
  set (larger := filter _ images).
  case_decide as Hlen.
  - destruct (reduce_select (fun i => Z.max (width i) (height i))
        (fun closest current =>
           if decide (Z.max (width current) (height current)
                        < Z.max (width closest) (height closest))
           then current else closest)
        ltac:(solve_selects)
        larger) as (r & -> & Hin & _).
    { intros E. rewrite E in Hlen. simpl in Hlen. lia. }
    exists r. split; [done|].
    by apply list_elem_of_filter in Hin as [_ Hin].
  - destruct (reduce_select (fun i => - Z.max (width i) (height i))
        (fun largest current =>
           if decide (Z.max (width largest) (height largest)
                        < Z.max (width current) (height current))
           then current else largest)
        ltac:(solve_selects)
        images Hne) as (r & -> & Hin & _).
    by exists r.
Qed.

Lemma server_getBestMatch_spec (images : list IcoImage) (t : Z) :
  images <> [] ->
  exists r, IcoParser.getBestMatch images t = Ok (Some r)
            /\ serverMatch_spec images t r.
Proof.
  intros Hne. unfold IcoParser.getBestMatch.
  rewrite decide_False by (by rewrite length_zero_iff_nil').
  destruct (find _ images) as [e|] eqn:Hfind.
  { apply find_exact_Some in Hfind as [Hin Hex].
    exists e. split; [done|].
    split; [done|]. split; [done|].
    split; intros Hno; exfalso; apply Hno; by exists e. }
  apply find_exact_None in Hfind.
  set (larger := filter _ images).
  case_decide as Hlen.
  - destruct (reduce_select max_dimension
        (fun closest current =>
           if decide (Z.max (width current) (height current)
                        < Z.max (width closest) (height closest))
           then current else closest)
        ltac:(solve_selects) larger) as (r & -> & Hin & Hmin).
    { intros E. rewrite E in Hlen. simpl in Hlen. lia. }
    exists r. split; [done|].
    apply list_elem_of_filter in Hin as [Hlarge Hin].
    split; [done|]. split; [intros Hex; by destruct Hfind|].
    split.
    + intros _ _. split; [done|].
      intros i Hi Hli. apply Hmin. by apply list_elem_of_filter.
    + intros _ Hno. exfalso. apply Hno. by exists r.
  - assert (Hnil : larger = []).
    { destruct larger; [done|]. simpl in Hlen. lia. }
    destruct (reduce_select (fun i => - max_dimension i)
        (fun largest current =>
           if decide (Z.max (width largest) (height largest)
                        < Z.max (width current) (height current))
           then current else largest)
        ltac:(solve_selects) images Hne) as (r & -> & Hin & Hmax).
    exists r. split; [done|].
    assert (Hnone : ~ exists i, i ∈ images /\ t <= max_dimension i).
    { intros (i & Hi & Hli).
      assert (Hf : i ∈ larger) by (by apply list_elem_of_filter).
      rewrite Hnil in Hf. by apply elem_of_nil in Hf. }
    split; [done|]. split; [intros Hex; by destruct Hfind|].
    split.
    + intros _ Hex. by destruct Hnone.
    + intros _ _ i Hi. specialize (Hmax i Hi). cbv beta in Hmax. lia.
Qed.

Lemma server_getBestMatch_None_iff (images : list IcoImage) (t : Z) :
  IcoParser.getBestMatch images t = Ok None <-> images = [].
Proof.
  split; [|by intros ->].
  intros E. destruct images as [|i images]; [done|].
  destruct (server_getBestMatch_elem (i :: images) t) as (r & Hr & _); [done|].
  congruence.
Qed.

(** On square images the two selections coincide. *)

Lemma filter_ext_Forall {A} (P Q R : A -> Prop)
    `{forall x, Decision (P x)} `{forall x, Decision (Q x)} (l : list A) :
  Forall R l -> (forall x, R x -> (P x <-> Q x)) -> filter P l = filter Q l.
Proof.
  intros Hall Hiff. induction Hall as [|x l Hx Hall IH]; [done|].
  rewrite !filter_cons, IH.
  destruct (decide (P x)), (decide (Q x)); try done;
    exfalso; specialize (Hiff x Hx); tauto.
Qed.

Lemma foldl_ext_Forall {A} (R : A -> Prop) (f g : A -> A -> A) (l : list A) (x : A) :
  (forall a b, R a -> R b -> f a b = g a b /\ R (f a b)) ->
  R x -> Forall R l -> foldl f x l = foldl g x l.
Proof.
  intros Hfg Hx Hall. revert x Hx.
  induction Hall as [|c l Hc Hall IH]; intros x Hx; [done|].
  cbn [foldl]. destruct (Hfg x c Hx Hc) as [E Hr].
  rewrite <- E. by apply IH.
Qed.

Lemma reduce_ext_Forall {A} (R : A -> Prop) (f g : A -> A -> A) (l : list A) :
  (forall a b, R a -> R b -> f a b = g a b /\ R (f a b)) ->
  Forall R l -> reduce f l = reduce g l.
Proof.
  intros Hfg Hall. destruct Hall as [|x l Hx Hall]; [done|].
  unfold reduce. f_equal. by apply foldl_ext_Forall with R.
Qed.

Lemma server_eq_client_on_squares (images : list IcoImage) (t : Z) :
  Forall square images ->
  IcoParser.getBestMatch images t = client_getBestMatch images t.
Proof.
  intros Hsq. unfold IcoParser.getBestMatch, client_getBestMatch.
  case_decide; [done|].
  destruct (find _ images); [done|].
  rewrite (filter_ext_Forall
             (fun img => t <= Z.max (width img) (height img))
             (fun img => t <= width img /\ t <= height img) square images Hsq)
    by (intros x [Hx ?]; lia).
  set (larger := filter _ images).
  assert (Hlsq : Forall square larger).
  { apply Forall_forall. intros x Hx.
    apply list_elem_of_filter in Hx as [_ Hx].
    by apply (proj1 (Forall_forall _ _) Hsq). }
  case_decide.
  - erewrite (reduce_ext_Forall square _ _ larger) ; [reflexivity| |done].
    intros a b [Ha Ha'] [Hb Hb']. cbv beta.
    repeat case_decide; (split; [done || (exfalso; nia)|done]).
  - erewrite (reduce_ext_Forall square _ _ images) ; [reflexivity| |done].
    intros a b [Ha Ha'] [Hb Hb']. cbv beta.
    repeat case_decide; (split; [done || (exfalso; nia)|done]).
Qed.

(** * The sort *)

Section Sort.
Context {A : Type} (cmp : A -> A -> Z).

Lemma js_insert_perm (x : A) (l : list A) : js_insert cmp x l ≡ₚ x :: l.
Proof.
  induction l as [|y l IH]; cbn [js_insert]; [done|].
  case_decide; [done|]. rewrite IH. apply Permutation_swap.
Qed.

Lemma js_sort_perm (l : list A) : js_sort cmp l ≡ₚ l.
Proof.
  induction l as [|x l IH]; [done|].
  cbn [js_sort foldr]. fold (js_sort cmp l).
  rewrite js_insert_perm. by rewrite IH.
Qed.

Lemma js_sort_length (l : list A) : length (js_sort cmp l) = length l.
Proof. by rewrite js_sort_perm. Qed.

Lemma js_sort_elem_of (l : list A) (x : A) : x ∈ js_sort cmp l <-> x ∈ l.
Proof. by rewrite js_sort_perm. Qed.
End Sort.

(** The order of the comparator [(a, b) => key a - key b]. *)
Section SortByKey.
Context {A : Type} (key : A -> Z).
Let R (a b : A) : Prop := key a <= key b.

Lemma js_insert_sorted (x : A) (l : list A) :
  Sorted R l -> Sorted R (js_insert (fun a b => key a - key b) x l).
Proof.
  induction 1 as [|y l Hs IH Hhd]; cbn [js_insert].
  - by repeat constructor.
  - case_decide as Hc.
    + constructor; [by constructor|]. constructor. unfold R. lia.
    + constructor; [done|].
      destruct l as [|z l]; cbn [js_insert] in *.
      * constructor. unfold R. lia.
      * case_decide; constructor; unfold R; [lia|].
        inversion Hhd; subst. done.
Qed.

Lemma js_sort_sorted (l : list A) :
  Sorted R (js_sort (fun a b => key a - key b) l).
Proof.
  induction l as [|x l IH]; [constructor|].
  cbn [js_sort foldr]. by apply js_insert_sorted.
Qed.
End SortByKey.

Lemma sorted_le_NoDup_lt (l : list Z) :
  Sorted Z.le l -> NoDup l -> StronglySorted Z.lt l.
Proof.
  intros Hs Hnd. apply Sorted_StronglySorted in Hs; [|apply _].
  induction Hs as [|x l Hs IH Hall]; [constructor|].
  apply NoDup_cons in Hnd as [Hx Hnd].
  constructor; [by apply IH|].
  rewrite Forall_forall in Hall |- *. intros y Hy.
  specialize (Hall y Hy). assert (x <> y) by (intros ->; done). lia.
Qed.

Lemma sorted_sizes_perm (m : gmap Z (list byte)) :
  ClientIconGenerator.sorted_sizes m ≡ₚ (map_to_list m).*1.
Proof. apply js_sort_perm. Qed.

Lemma sorted_sizes_elem_of (m : gmap Z (list byte)) (s : Z) :
  s ∈ ClientIconGenerator.sorted_sizes m <-> is_Some (m !! s).
Proof.
  rewrite sorted_sizes_perm. rewrite list_elem_of_fmap. split.
  - intros ([k d] & -> & Hin). apply elem_of_map_to_list in Hin. by eexists.
  - intros [d Hd]. exists (s, d). split; [done|]. by apply elem_of_map_to_list.
Qed.

Lemma sorted_sizes_ascending (m : gmap Z (list byte)) :
  StronglySorted Z.lt (ClientIconGenerator.sorted_sizes m).
Proof.
  apply sorted_le_NoDup_lt.
  - apply (js_sort_sorted (fun z : Z => z)).
  - rewrite sorted_sizes_perm. apply NoDup_fst_map_to_list.
Qed.

Lemma sorted_entries_fst (m : gmap Z (list byte)) :
  (sorted_entries m).*1 = ClientIconGenerator.sorted_sizes m.
Proof.
  unfold sorted_entries, entries_of.
  induction (ClientIconGenerator.sorted_sizes m); [done|].
  cbn. by f_equal.
Qed.

Lemma sorted_entries_lookup (m : gmap Z (list byte)) (s : Z) (d : list byte) :
  (s, d) ∈ sorted_entries m <-> m !! s = Some d.
Proof.
  unfold sorted_entries, entries_of. rewrite list_elem_of_In, in_map_iff. split.
  - intros (k & [= <- <-] & Hin). apply list_elem_of_In in Hin.
    apply sorted_sizes_elem_of in Hin as [d Hd]. by rewrite Hd.
  - intros Hd. exists s. rewrite Hd. split; [done|].
    apply list_elem_of_In, sorted_sizes_elem_of. by eexists.
Qed.

Lemma sorted_entries_length (m : gmap Z (list byte)) :
  length (sorted_entries m) = size m.
Proof.
  unfold sorted_entries, entries_of. rewrite length_map.
  rewrite sorted_sizes_perm, length_fmap. apply length_map_to_list.
Qed.

(** * Writes into a buffer *)

Lemma overwrite_app (old post bs : list byte) :
  length old = length bs -> overwrite (old ++ post) bs = Ok (bs ++ post).
Proof.
  revert old. induction bs as [|b bs IH]; intros old Hl.
  - destruct old; [|done]. by destruct post.
  - destruct old as [|o old]; [done|]. cbn [app overwrite].
    rewrite IH by (simpl in Hl; lia). done.
Qed.

Lemma write_at_app (pre rest bs : list byte) (k : nat) :
  write_at (pre ++ rest) (length pre + k) bs
  = let* r := write_at rest k bs in Ok (pre ++ r).
Proof.
  induction pre as [|p pre IH]; cbn [app length Nat.add write_at].
  - by destruct (write_at rest k bs).
  - rewrite IH. by destruct (write_at rest k bs).
Qed.

Lemma write_at_middle (pre old post bs : list byte) (off : nat) :
  off = length pre -> length old = length bs ->
  write_at (pre ++ old ++ post) off bs = Ok (pre ++ bs ++ post).
Proof.
  intros -> Hl. rewrite <- (Nat.add_0_r (length pre)), write_at_app.
  cbn [write_at]. by rewrite overwrite_app.
Qed.

(** * The loops of [createIcoFromPngs] *)

Lemma add_sizes_spec (m : gmap Z (list byte)) (es : list (Z * list byte)) (acc : nat) :
  agrees m es ->
  ClientIconGenerator.add_sizes m es.*1 acc
  = Ok (acc + length (ico_payloads es))%nat.
Proof.
  intros Hag. revert acc.
  induction Hag as [|[s d] es Hd Hag IH]; intros acc.
  - cbn. f_equal. lia.
  - cbn [fmap list_fmap fst ClientIconGenerator.add_sizes].
    unfold ClientIconGenerator.get_buffer. cbn in Hd. rewrite Hd. cbn [bind].
    rewrite IH. unfold ico_payloads. cbn. rewrite length_app. f_equal. lia.
Qed.

(** One iteration writes the directory entry into its sixteen bytes and
    the payload at [currentOffset]. *)
Lemma write_entries_spec (m : gmap Z (list byte)) (es : list (Z * list byte))
    (i : nat) (pre payloads : list byte) :
  agrees m es ->
  length pre = (6 + i * 16)%nat ->
  ClientIconGenerator.write_entries m es.*1 i
    (length pre + 16 * length es + length payloads)
    (pre ++ replicate (16 * length es) x00 ++ payloads
         ++ replicate (length (ico_payloads es)) x00)
  = Ok (pre ++ ico_directory es
                 (length pre + 16 * length es + length payloads)
            ++ payloads ++ ico_payloads es).
Proof.
  intros Hag. revert i pre payloads.
  induction Hag as [|[s d] es Hd Hag IH]; intros i pre payloads Hpre.
  - cbn. by rewrite !app_nil_r.
  - cbn [fmap list_fmap fst ClientIconGenerator.write_entries].
    unfold ClientIconGenerator.get_buffer. cbn in Hd. rewrite Hd. cbn [bind].
    rewrite <- Hpre.
    set (off := (length pre + 16 * length ((s, d) :: es) + length payloads)%nat).
    replace (16 * length ((s, d) :: es))%nat
      with (16 + 16 * length es)%nat by (cbn [length]; lia).
    rewrite replicate_add.
    set (tail := replicate (16 * length es) x00 ++ payloads
                 ++ replicate (length (ico_payloads ((s, d) :: es))) x00).
    rewrite <- (app_assoc (replicate 16 x00)). fold tail.
    unfold setUint8, setUint16, setUint32.
    rewrite <- (Nat.add_0_r (length pre)) at 1.
    rewrite !write_at_app.
    cbn [replicate app write_at overwrite bind le_bytes].
    rewrite !write_at_app.
    cbn [replicate app write_at overwrite bind le_bytes].
    rewrite !write_at_app.
    cbn [replicate app write_at overwrite bind le_bytes].
    rewrite !write_at_app.
    cbn [replicate app write_at overwrite bind le_bytes].
    rewrite !write_at_app.
    cbn [replicate app write_at overwrite bind le_bytes].
    rewrite !write_at_app.
    cbn [replicate app write_at overwrite bind le_bytes].
    rewrite !write_at_app.
    cbn [replicate app write_at overwrite bind le_bytes].
    rewrite !write_at_app.
    cbn [replicate app write_at overwrite bind le_bytes].
    match goal with
    | |- context [set_bytes (pre ++ ?e)] =>
        change e with (ico_dir_entry s (length d) off ++ tail)
    end.
    unfold set_bytes, tail, ico_payloads.
    cbn [fmap list_fmap snd concat]. rewrite length_app, replicate_add.
    fold (ico_payloads es).
    set (entry := ico_dir_entry s (length d) off).
    assert (Hentry : length entry = 16%nat) by done.
    replace (pre ++ entry ++ replicate (16 * length es) x00 ++ payloads
               ++ replicate (length d) x00
               ++ replicate (length (ico_payloads es)) x00)
      with ((pre ++ entry ++ replicate (16 * length es) x00 ++ payloads)
               ++ replicate (length d) x00
               ++ replicate (length (ico_payloads es)) x00)
      by (by rewrite <- !app_assoc).
    rewrite write_at_middle; cycle 1.
    { rewrite !length_app, length_replicate. subst off. cbn [length]. lia. }
    { by rewrite length_replicate. }
    cbn [bind].
    specialize (IH (S i) (pre ++ entry) (payloads ++ d)).
    rewrite !length_app, Hentry in IH.
    replace (off + length d)%nat
      with (length pre + 16 + 16 * length es + (length payloads + length d))%nat
      by (subst off; cbn [length]; lia).
    rewrite <- !app_assoc in *. rewrite IH by lia.
    cbn [ico_directory]. fold entry.
    replace (length pre + 16 + 16 * length es + (length payloads + length d))%nat
      with (off + length d)%nat by (subst off; cbn [length]; lia).
    by rewrite <- !app_assoc.
Qed.


Lemma agrees_sorted_entries (m : gmap Z (list byte)) : agrees m (sorted_entries m).
Proof.
  apply Forall_forall. intros [s d] Hin. by apply sorted_entries_lookup.
Qed.

(** The client writer emits the layout, whatever the map. *)
Lemma createIcoFromPngs_layout (m : gmap Z (list byte)) :
  ClientIconGenerator.createIcoFromPngs m = Ok (ico_layout (sorted_entries m)).
Proof.
  unfold ClientIconGenerator.createIcoFromPngs.
  rewrite <- sorted_entries_fst.
  set (es := sorted_entries m).
  pose proof (agrees_sorted_entries m) as Hag. fold es in Hag.
  rewrite length_fmap, add_sizes_spec by done. cbn [bind].
  replace (6 + length es * 16 + length (ico_payloads es))%nat
    with (6 + (16 * length es + length (ico_payloads es)))%nat by lia.
  rewrite replicate_add.
  unfold setUint16.
  cbn [replicate app write_at overwrite bind le_bytes].
  match goal with
  | |- ClientIconGenerator.write_entries _ _ _ _ ?b = _ =>
      change b with (ico_header (length es)
                       ++ replicate (16 * length es + length (ico_payloads es)) x00)
  end.
  rewrite replicate_add.
  pose proof (write_entries_spec m es 0 (ico_header (length es)) [] Hag eq_refl)
    as Hw.
  cbn [app length] in Hw.
  replace (length (ico_header (length es)) + 16 * length es + 0)%nat
    with (6 + length es * 16)%nat in Hw by (cbn [length ico_header le_bytes app]; lia).
  rewrite Hw. unfold ico_layout.
  by replace (6 + 16 * length es)%nat with (6 + length es * 16)%nat by lia.
Qed.

(** * The server writer *)

Lemma writeUInt8_fits (buf : list byte) (v : Z) (off : nat) :
  0 <= v <= 255 -> writeUInt8 buf v off = write_at buf off (le_bytes 1 v).
Proof. intros. unfold writeUInt8. by rewrite decide_True. Qed.

Lemma writeUInt16LE_fits (buf : list byte) (v : Z) (off : nat) :
  0 <= v <= 65535 -> writeUInt16LE buf v off = write_at buf off (le_bytes 2 v).
Proof. intros. unfold writeUInt16LE. by rewrite decide_True. Qed.

Lemma writeUInt32LE_fits (buf : list byte) (v : Z) (off : nat) :
  0 <= v <= 4294967295 ->
  writeUInt32LE buf v off = write_at buf off (le_bytes 4 v).
Proof. intros. unfold writeUInt32LE. by rewrite decide_True. Qed.

Ltac write_step :=
  first [ rewrite writeUInt8_fits by (try case_decide; lia)
        | rewrite writeUInt16LE_fits by lia
        | rewrite writeUInt32LE_fits by lia ];
  cbn [replicate write_at overwrite bind le_bytes].

Lemma dirEntry_spec (s : Z) (d : list byte) (off : nat) :
  0 <= s <= 256 -> Z.of_nat (length d) < 2 ^ 32 -> Z.of_nat off < 2 ^ 32 ->
  IconProcessor.dirEntry s d off = Ok (ico_dir_entry s (length d) off).
Proof.
  intros Hs Hd Hoff. unfold IconProcessor.dirEntry.
  do 8 write_step. reflexivity.
Qed.

Lemma push_entries_spec (es : list (Z * list byte)) (off : nat)
    (dir imgs : list (list byte)) :
  sizes_fit es ->
  Z.of_nat (off + length (ico_payloads es)) < 2 ^ 32 ->
  IconProcessor.push_entries es off dir imgs
  = Ok (dir ++ dir_entries es off, imgs ++ es.*2).
Proof.
  intros Hfit. revert off dir imgs.
  induction Hfit as [|[s d] es Hs Hfit IH]; intros off dir imgs Htot.
  - cbn. by rewrite !app_nil_r.
  - cbn [IconProcessor.push_entries].
    unfold ico_payloads in Htot. cbn [fmap list_fmap snd concat] in Htot.
    rewrite length_app in Htot. fold (ico_payloads es) in Htot.
    rewrite dirEntry_spec by (cbn in Hs; lia). cbn [bind].
    rewrite IH by lia. cbn [dir_entries fmap list_fmap snd].
    by rewrite <- !app_assoc.
Qed.

Lemma concat_dir_entries (es : list (Z * list byte)) (off : nat) :
  concat (dir_entries es off) = ico_directory es off.
Proof.
  revert off. induction es as [|[s d] es IH]; intros off; [done|].
  cbn [dir_entries concat ico_directory]. by rewrite IH.
Qed.

Lemma createICOFromPNGs_layout (es : list (Z * list byte)) :
  sizes_fit es ->
  Z.of_nat (length es) <= 65535 ->
  Z.of_nat (ico_total_size es) < 2 ^ 32 ->
  IconProcessor.createICOFromPNGs es = Ok (ico_layout es).
Proof.
  intros Hfit Hcount Htot. unfold IconProcessor.createICOFromPNGs.
  do 3 write_step.
  rewrite push_entries_spec; [|done|unfold ico_total_size in Htot; lia].
  cbn [bind]. f_equal.
  rewrite <- app_assoc, !concat_app, concat_dir_entries.
  cbn [concat app]. unfold ico_layout, ico_payloads.
  replace (6 + length es * 16)%nat with (6 + 16 * length es)%nat by lia.
  reflexivity.
Qed.

(** * The fields of the layout *)

Lemma length_ico_dir_entry (s : Z) (n off : nat) :
  length (ico_dir_entry s n off) = 16%nat.
Proof. reflexivity. Qed.

Lemma length_ico_directory (es : list (Z * list byte)) (off : nat) :
  length (ico_directory es off) = (16 * length es)%nat.
Proof.
  revert off. induction es as [|[s d] es IH]; intros off; [done|].
  cbn [ico_directory length]. rewrite length_app, IH, length_ico_dir_entry. lia.
Qed.

Lemma length_ico_layout (es : list (Z * list byte)) :
  length (ico_layout es) = ico_total_size es.
Proof.
  unfold ico_layout, ico_total_size.
  rewrite !length_app, length_ico_directory. reflexivity.
Qed.

Lemma ico_payloads_app (es1 es2 : list (Z * list byte)) :
  ico_payloads (es1 ++ es2) = ico_payloads es1 ++ ico_payloads es2.
Proof. unfold ico_payloads. by rewrite fmap_app, concat_app. Qed.

(** The directory from its entry of index [i] on. *)
Lemma drop_ico_directory (es : list (Z * list byte)) (off i : nat)
    (s : Z) (d : list byte) (tail : list byte) :
  es !! i = Some (s, d) ->
  exists rest,
    drop (16 * i) (ico_directory es off ++ tail)
    = ico_dir_entry s (length d) (off + length (ico_payloads (take i es)))
      ++ rest.
Proof.
  revert off i. induction es as [|[s' d'] es IH]; intros off i Hi; [done|].
  destruct i as [|i].
  - injection Hi as -> ->. cbn [take ico_payloads fmap list_fmap concat length].
    rewrite Nat.add_0_r. replace (16 * 0)%nat with 0%nat by lia.
    cbn [drop ico_directory]. rewrite <- app_assoc. eauto.
  - cbn [lookup list_lookup] in Hi. cbn [ico_directory].
    replace (16 * S i)%nat with (16 + 16 * i)%nat by lia.
    rewrite <- drop_drop, <- app_assoc.
    rewrite (drop_app_length' _ _ 16) by done.
    destruct (IH (off + length d')%nat i Hi) as [rest ->].
    exists rest. do 2 f_equal.
    cbn [take]. unfold ico_payloads. cbn [fmap list_fmap snd concat].
    rewrite length_app. lia.
Qed.

Lemma drop_entry_ico_layout (es : list (Z * list byte)) (i : nat)
    (s : Z) (d : list byte) :
  es !! i = Some (s, d) ->
  exists rest,
    drop (6 + 16 * i) (ico_layout es)
    = ico_dir_entry s (length d) (payload_offset es i) ++ rest.
Proof.
  intros Hi. unfold ico_layout.
  rewrite <- drop_drop.
  rewrite (drop_app_length' _ _ 6) by done.
  destruct (drop_ico_directory es (6 + 16 * length es) i s d (ico_payloads es) Hi)
    as [rest ->].
  by exists rest.
Qed.

Lemma le_at_drop (buf : list byte) (off k n : nat) (chunk : list byte) :
  drop off buf = chunk ->
  le_at buf (off + k) n = le_value (take n (drop k chunk)).
Proof. intros <-. unfold le_at. by rewrite drop_drop. Qed.

Lemma length_payload_le (es : list (Z * list byte)) (i : nat) (s : Z) (d : list byte) :
  es !! i = Some (s, d) ->
  (length (ico_payloads (take i es)) + length d <= length (ico_payloads es))%nat.
Proof.
  intros Hi.
  assert (E : ico_payloads es
              = ico_payloads (take i es) ++ d ++ ico_payloads (drop (S i) es)).
  { rewrite <- (take_drop_middle es i (s, d) Hi) at 1.
    by rewrite ico_payloads_app. }
  rewrite E, !length_app. lia.
Qed.

Lemma byte_field (v : Z) : 0 <= v < 256 -> byte_val (byte_of_Z v) + 256 * 0 = v.
Proof. intros. rewrite byte_val_of_Z, Z.mod_small by lia. lia. Qed.

Lemma le_value_2 (v : Z) :
  0 <= v < 65536 ->
  le_value [byte_of_Z v; byte_of_Z (v `div` 256)] = v.
Proof. intros. apply (le_value_le_bytes_small 2 v). simpl. lia. Qed.

Lemma le_value_4 (v : Z) :
  0 <= v < 2 ^ 32 ->
  le_value [byte_of_Z v; byte_of_Z (v `div` 256);
            byte_of_Z ((v `div` 256) `div` 256);
            byte_of_Z (((v `div` 256) `div` 256) `div` 256)] = v.
Proof. intros. apply (le_value_le_bytes_small 4 v). simpl. lia. Qed.

(** The header of the layout reads back. *)
Lemma layout_header_fields (es : list (Z * list byte)) :
  Z.of_nat (length es) < 65536 ->
  header_reserved (ico_layout es) = 0
  /\ header_type (ico_layout es) = 1
  /\ header_count (ico_layout es) = Z.of_nat (length es).
Proof.
  intros Hc. unfold header_reserved, header_type, header_count, le_at.
  unfold ico_layout, ico_header.
  cbn [le_bytes app drop take]. rewrite ?take_0.
  split; [|split].
  - rewrite (le_value_2 0); [done|lia].
  - rewrite (le_value_2 1); [done|lia].
  - rewrite (le_value_2 (Z.of_nat (length es))); [done|lia].
Qed.

(** The directory entry of index [i] of the layout reads back. *)
Lemma layout_entry_fields (es : list (Z * list byte)) (i : nat)
    (s : Z) (d : list byte) :
  es !! i = Some (s, d) ->
  0 <= s <= 256 ->
  Z.of_nat (ico_total_size es) < 2 ^ 32 ->
  let out := ico_layout es in
  entry_width_byte out i = (if decide (s = 256) then 0 else s)
  /\ entry_height_byte out i = (if decide (s = 256) then 0 else s)
  /\ le_at out (6 + 16 * i + 2) 1 = 0
  /\ le_at out (6 + 16 * i + 3) 1 = 0
  /\ le_at out (6 + 16 * i + 4) 2 = 1
  /\ le_at out (6 + 16 * i + 6) 2 = 32
  /\ entry_imageSize out i = Z.of_nat (length d)
  /\ entry_imageOffset out i = Z.of_nat (payload_offset es i).
Proof.
  intros Hi Hs Htot out.
  destruct (drop_entry_ico_layout es i s d Hi) as [rest Hdrop]. fold out in Hdrop.
  pose proof (length_payload_le es i s d Hi) as Hle.
  unfold ico_total_size in Htot.
  assert (Hdim : 0 <= (if decide (s = 256) then 0 else s) < 256)
    by (case_decide; lia).
  unfold entry_width_byte, entry_height_byte, entry_imageSize, entry_imageOffset.
  rewrite <- (Nat.add_0_r (6 + 16 * i)) at 1.
  rewrite !(le_at_drop out (6 + 16 * i) _ _ _ Hdrop).
  unfold ico_dir_entry. cbn [le_bytes app drop take]. rewrite ?take_0.
  refine (conj _ (conj _ (conj _ (conj _ (conj _ (conj _ (conj _ _))))))).
  - cbn [le_value]. by apply byte_field.
  - cbn [le_value]. by apply byte_field.
  - cbn [le_value]. apply byte_field. lia.
  - cbn [le_value]. apply byte_field. lia.
  - rewrite (le_value_2 1); [done|lia].
  - rewrite (le_value_2 32); [done|lia].
  - rewrite le_value_4; [done|lia].
  - rewrite le_value_4; [done|]. unfold payload_offset. lia.
Qed.

(** The payload of index [i] lies at its offset. *)
Lemma layout_payload (es : list (Z * list byte)) (i : nat) (s : Z) (d : list byte) :
  es !! i = Some (s, d) ->
  subarray (ico_layout es) (Z.of_nat (payload_offset es i))
    (Z.of_nat (payload_offset es i) + Z.of_nat (length d)) = d.
Proof.
  intros Hi. unfold subarray.
  replace (Z.to_nat (Z.of_nat (payload_offset es i) + Z.of_nat (length d))
           - Z.to_nat (Z.of_nat (payload_offset es i)))%nat
    with (length d) by lia.
  rewrite Nat2Z.id. unfold payload_offset, ico_layout.
  assert (E : ico_payloads es
              = ico_payloads (take i es) ++ d ++ ico_payloads (drop (S i) es)).
  { rewrite <- (take_drop_middle es i (s, d) Hi) at 1.
    by rewrite ico_payloads_app. }
  rewrite E. rewrite !app_assoc.
  rewrite <- (app_assoc _ d).
  rewrite drop_app_length'.
  - by rewrite take_app_length.
  - rewrite !length_app, length_ico_directory. reflexivity.
Qed.

Lemma layout_payloads (es : list (Z * list byte)) :
  drop (6 + 16 * length es) (ico_layout es) = ico_payloads es.
Proof.
  unfold ico_layout. rewrite app_assoc. apply drop_app_length'.
  rewrite length_app, length_ico_directory. reflexivity.
Qed.

Lemma detect_format_png (d : list byte) :
  take 8 d = png_signature -> detect_format d = png.
Proof.
  intros Hsig. do 8 (destruct d as [|? d]; [done|]).
  injection Hsig as -> -> -> -> -> -> -> ->.
  reflexivity.
Qed.

(** * Reading a layout back *)

Lemma layout_well_formed (es : list (Z * list byte)) :
  sizes_fit es ->
  0 < Z.of_nat (length es) <= 255 ->
  Z.of_nat (ico_total_size es) < 2 ^ 32 ->
  ~ ico_malformed (ico_layout es).
Proof.
  intros Hfit Hcount Htot.
  destruct (layout_header_fields es) as (Hr & Ht & Hc); [lia|].
  unfold ico_malformed. rewrite Hr, Ht, Hc, length_ico_layout.
  intros [Hm|[Hm|[Hm|[Hm|[Hm|[(i & Hi & Hm)|(i & Hi & Hm)]]]]]];
    try (unfold ico_total_size in *; lia).
  destruct (lookup_lt_is_Some_2 es i ltac:(lia)) as [[s d] Hes].
  assert (Hs : 0 <= s <= 256).
  { unfold sizes_fit in Hfit. rewrite Forall_forall in Hfit.
    apply (Hfit (s, d)). by eapply list_elem_of_lookup_2. }
  destruct (layout_entry_fields es i s d Hes Hs Htot)
    as (_ & _ & _ & _ & _ & _ & Hsz & Hoff).
  rewrite Hsz, Hoff in Hm.
  pose proof (length_payload_le es i s d Hes).
  unfold payload_offset, ico_total_size in *. lia.
Qed.

Lemma layout_entry_image (es : list (Z * list byte)) (i : nat)
    (s : Z) (d : list byte) :
  es !! i = Some (s, d) ->
  1 <= s <= 256 ->
  Z.of_nat (ico_total_size es) < 2 ^ 32 ->
  entry_image (ico_layout es) i = mkIcoImage s s d (detect_format d).
Proof.
  intros Hes Hs Htot.
  destruct (layout_entry_fields es i s d Hes ltac:(lia) Htot)
    as (Hw & Hh & _ & _ & _ & _ & Hsz & Hoff).
  unfold entry_image. rewrite Hw, Hh, Hsz, Hoff, (layout_payload es i s d Hes).
  f_equal; repeat case_decide; lia.
Qed.

Lemma parse_layout (es : list (Z * list byte)) :
  Forall (fun e => 1 <= e.1 <= 256) es ->
  0 < Z.of_nat (length es) <= 255 ->
  Z.of_nat (ico_total_size es) < 2 ^ 32 ->
  IcoParser.parse (ico_layout es)
  = Ok (map (fun e => mkIcoImage e.1 e.1 e.2 (detect_format e.2)) es).
Proof.
  intros Hfit Hcount Htot.
  assert (Hfit' : sizes_fit es).
  { eapply Forall_impl; [exact Hfit|]. intros e He. cbv beta in *. lia. }
  rewrite parse_ok_of_well_formed by (by apply layout_well_formed).
  destruct (layout_header_fields es) as (_ & _ & ->); [lia|].
  rewrite Nat2Z.id. f_equal. apply list_eq. intros i.
  rewrite !list_lookup_fmap.
  destruct (es !! i) as [[s d]|] eqn:Hes.
  - rewrite lookup_seq_lt by (by eapply lookup_lt_Some).
    cbn [fmap option_fmap option_map Nat.add].
    f_equal. apply layout_entry_image; [done| |done].
    rewrite Forall_forall in Hfit.
    apply (Hfit (s, d)). by eapply list_elem_of_lookup_2.
  - rewrite lookup_seq_ge; [done|]. by apply lookup_ge_None.
Qed.

(** * Maps of sizes *)

Lemma NoDup_bounded_length (l : list Z) (n : nat) :
  NoDup l -> (forall x, x ∈ l -> 0 <= x < Z.of_nat n) -> (length l <= n)%nat.
Proof.
  intros Hnd Hb.
  assert (Hsub : l ⊆+ seqZ 0 (Z.of_nat n)).
  { apply NoDup_submseteq; [done|]. intros x Hx. apply elem_of_seqZ.
    specialize (Hb x Hx). lia. }
  apply submseteq_length in Hsub. rewrite length_seqZ in Hsub. lia.
Qed.

Lemma sizes_fit_sorted_entries (m : gmap Z (list byte)) (lo : Z) :
  (forall s d, m !! s = Some d -> lo <= s <= 256) ->
  Forall (fun e => lo <= e.1 <= 256) (sorted_entries m).
Proof.
  intros Hs. apply Forall_forall. intros [s d] Hin.
  apply sorted_entries_lookup in Hin. by eapply Hs.
Qed.

Lemma sorted_entries_count (m : gmap Z (list byte)) :
  (forall s d, m !! s = Some d -> 0 <= s <= 256) ->
  (length (sorted_entries m) <= 257)%nat.
Proof.
  intros Hs. rewrite <- (length_fmap fst), sorted_entries_fst.
  apply NoDup_bounded_length.
  - rewrite sorted_sizes_perm. apply NoDup_fst_map_to_list.
  - intros x Hx. apply sorted_sizes_elem_of in Hx as [d Hd].
    specialize (Hs x d Hd). lia.
Qed.

(** The sizes of a map whose keys are the canonical sizes. *)
Lemma sorted_sizes_canonical (m : gmap Z (list byte)) :
  (forall s, is_Some (m !! s) <-> s ∈ ICON_SIZES) ->
  ClientIconGenerator.sorted_sizes m = ICON_SIZES.
Proof.
  intros Hdom.
  apply (StronglySorted_unique_strong Z.lt).
  - intros; lia.
  - apply sorted_sizes_ascending.
  - unfold ICON_SIZES. repeat (constructor; [|repeat constructor; lia]).
    constructor.
  - apply NoDup_Permutation.
    + rewrite sorted_sizes_perm. apply NoDup_fst_map_to_list.
    + apply (bool_decide_unpack _). by vm_compute.
    + intros s. by rewrite sorted_sizes_elem_of.
Qed.

(** * The raw-bitmap decoder *)

Lemma mjoin_cons {A} (l : list A) (ls : list (list A)) :
  mjoin (l :: ls) = l ++ mjoin ls.
Proof. reflexivity. Qed.

Section Bmp.
Local Open Scope nat_scope.
Variables (buf : list byte) (w h : nat).

Lemma bmp_pixel_fill (y x : nat) (filled rest : list byte) :
  length filled = (y * w + x) * 4 ->
  ClientIcoProcessor.bmp_pixel buf w h y x (filled ++ replicate 4 x00 ++ rest)
  = filled ++ rgba_pixel buf w h y x ++ rest.
Proof.
  intros Hl. unfold ClientIcoProcessor.bmp_pixel. rewrite <- Hl.
  rewrite !insert_app_r_alt by lia.
  replace (length filled - length filled) with 0 by lia.
  replace (length filled + 1 - length filled) with 1 by lia.
  replace (length filled + 2 - length filled) with 2 by lia.
  replace (length filled + 3 - length filled) with 3 by lia.
  reflexivity.
Qed.

Lemma length_rgba_pixels (y x0 n : nat) :
  length (mjoin ((fun x => rgba_pixel buf w h y x) <$> seq x0 n)) = 4 * n.
Proof.
  revert x0. induction n as [|n IH]; intros x0; [done|].
  cbn [seq]. rewrite fmap_cons, mjoin_cons, length_app, IH.
  change (length (rgba_pixel buf w h y x0)) with 4. lia.
Qed.

Lemma bmp_row_fill (y n x0 : nat) (filled rest : list byte) :
  length filled = (y * w + x0) * 4 ->
  foldl (fun rgbaData x => ClientIcoProcessor.bmp_pixel buf w h y x rgbaData)
    (filled ++ replicate (4 * n) x00 ++ rest) (seq x0 n)
  = filled ++ mjoin ((fun x => rgba_pixel buf w h y x) <$> seq x0 n) ++ rest.
Proof.
  revert x0 filled. induction n as [|n IH]; intros x0 filled Hl; [done|].
  cbn [seq foldl].
  replace (4 * S n) with (4 + 4 * n) by lia.
  rewrite replicate_add, <- (app_assoc (replicate 4 x00)).
  rewrite bmp_pixel_fill by done.
  rewrite (app_assoc filled).
  rewrite IH by (rewrite length_app; change (length (rgba_pixel _ _ _ _ _)) with 4; lia).
  rewrite fmap_cons, mjoin_cons. by rewrite <- !app_assoc.
Qed.

Lemma length_rgba_row (y : nat) : length (rgba_row buf w h y) = 4 * w.
Proof. apply length_rgba_pixels. Qed.

Lemma bmp_rows_fill (n y0 : nat) (filled rest : list byte) :
  length filled = y0 * w * 4 ->
  foldl (fun rgbaData y =>
      foldl (fun rgbaData x => ClientIcoProcessor.bmp_pixel buf w h y x rgbaData)
        rgbaData (seq 0 w))
    (filled ++ replicate (4 * w * n) x00 ++ rest) (seq y0 n)
  = filled ++ mjoin ((fun y => rgba_row buf w h y) <$> seq y0 n) ++ rest.
Proof.
  revert y0 filled. induction n as [|n IH]; intros y0 filled Hl.
  { cbn. by rewrite Nat.mul_0_r. }
  cbn [seq foldl].
  replace (4 * w * S n) with (4 * w + 4 * w * n) by lia.
  rewrite replicate_add, <- (app_assoc (replicate (4 * w) x00)).
  rewrite bmp_row_fill by lia.
  fold (rgba_row buf w h y0).
  rewrite (app_assoc filled).
  rewrite IH by (rewrite length_app, length_rgba_row; lia).
  rewrite fmap_cons, mjoin_cons. by rewrite <- !app_assoc.
Qed.

Lemma parseBmpToRgba_ok :
  40 + w * h * 4 <= length buf ->
  ClientIcoProcessor.parseBmpToRgba buf w h = Ok (rgba_image buf w h).
Proof.
  intros Hl. unfold ClientIcoProcessor.parseBmpToRgba.
  rewrite decide_False by lia. f_equal.
  pose proof (bmp_rows_fill h 0 [] [] eq_refl) as Hf.
  rewrite !app_nil_r in Hf. cbn [app] in Hf.
  replace (w * h * 4) with (4 * w * h) by lia. exact Hf.
Qed.

Lemma parseBmpToRgba_err :
  length buf < 40 + w * h * 4 ->
  ClientIcoProcessor.parseBmpToRgba buf w h = Err BmpDataTooSmall.
Proof.
  intros Hl. unfold ClientIcoProcessor.parseBmpToRgba.
  by rewrite decide_True by lia.
Qed.

Lemma length_rgba_image : length (rgba_image buf w h) = w * h * 4.
Proof.
  unfold rgba_image. rewrite length_join.
  rewrite (sum_list_fmap_same (4 * w)).
  - rewrite length_fmap, length_seq. lia.
  - apply Forall_fmap, Forall_forall. intros y _. apply length_rgba_row.
Qed.

Lemma rgba_image_lookup (y x c : nat) :
  x < w -> y < h -> c < 4 ->
  rgba_image buf w h !! ((y * w + x) * 4 + c) = rgba_pixel buf w h y x !! c.
Proof.
  intros Hx Hy Hc.
  destruct (rgba_pixel buf w h y x !! c) as [b|] eqn:Hb;
    [|apply lookup_ge_None in Hb; simpl in Hb; lia].
  replace ((y * w + x) * 4 + c) with (y * (4 * w) + (x * 4 + c)) by lia.
  apply (join_lookup_Some_same_length' (4 * w)); [|lia|].
  { apply Forall_fmap, Forall_forall. intros y' _. apply length_rgba_row. }
  exists (rgba_row buf w h y). split.
  { rewrite list_lookup_fmap, lookup_seq_lt by done. reflexivity. }
  apply (join_lookup_Some_same_length' 4); [|lia|].
  { apply Forall_fmap, Forall_forall. by intros x' _. }
  exists (rgba_pixel buf w h y x). split; [|done].
  rewrite list_lookup_fmap, lookup_seq_lt by done. reflexivity.
Qed.

Lemma get_byte_lookup (i : nat) :
  i < length buf -> Some (ClientIcoProcessor.get_byte buf i) = buf !! i.
Proof.
  intros Hi. unfold ClientIcoProcessor.get_byte.
  destruct (buf !! i) eqn:E; [done|]. apply lookup_ge_None in E. lia.
Qed.

(** The source offsets of a pixel lie in the buffer. *)
Lemma source_in_bounds (y x : nat) :
  x < w -> y < h -> 40 + w * h * 4 <= length buf ->
  40 + ((h - 1 - y) * w + x) * 4 + 3 < length buf.
Proof.
  intros Hx Hy Hl.
  assert ((h - 1 - y) * w + x < w * h); [|lia].
  assert ((h - 1 - y) + 1 <= h) by lia.
  assert (((h - 1 - y) + 1) * w <= h * w) by (apply Nat.mul_le_mono_r; lia).
  lia.
Qed.
End Bmp.

(** * Reordering *)

Section Reorder.
Context {num : Type}.
Implicit Types (layers : list (Layer num)) (l d t : Layer num).

Lemma set_order_same l o : same_but_order l (set_order l o).
Proof. unfold same_but_order. by repeat split. Qed.

Lemma order_set_order l o : order (set_order l o) = o.
Proof. reflexivity. Qed.

Lemma set_order_id l : set_order l (order l) = l.
Proof. by destruct l. Qed.

Lemma same_but_order_refl l : same_but_order l l.
Proof. unfold same_but_order. by repeat split. Qed.

(** Layers of a list without repeated ids are told apart by their id. *)
Lemma id_inj_on layers l1 l2 :
  NoDup (id <$> layers) -> l1 ∈ layers -> l2 ∈ layers -> id l1 = id l2 -> l1 = l2.
Proof.
  intros Hnd H1 H2 Hid.
  apply list_elem_of_lookup in H1 as [i Hi], H2 as [j Hj].
  assert (Hi' : (id <$> layers) !! i = Some (id l1))
    by (by rewrite list_lookup_fmap, Hi).
  assert (Hj' : (id <$> layers) !! j = Some (id l1))
    by (by rewrite list_lookup_fmap, Hj, Hid).
  pose proof (NoDup_lookup _ _ _ _ Hnd Hi' Hj') as ->. congruence.
Qed.

Lemma swap_orders_others d t (seg : list (Layer num)) :
  Forall (fun l => id l <> id d /\ id l <> id t) seg ->
  map (swap_orders d t) seg = seg.
Proof.
  induction 1 as [|l seg [Hd Ht] _ IH]; [done|].
  cbn [map]. rewrite IH. unfold swap_orders.
  by rewrite !decide_False by done.
Qed.

Lemma swap_orders_dragged d t : swap_orders d t d = set_order d (order t).
Proof. unfold swap_orders. by rewrite decide_True. Qed.

Lemma swap_orders_target d t :
  id t <> id d -> swap_orders d t t = set_order t (order d).
Proof.
  intros. unfold swap_orders. rewrite decide_False by done.
  by rewrite decide_True.
Qed.

Lemma swap_orders_other d t l :
  id l <> id d -> id l <> id t -> swap_orders d t l = l.
Proof. intros. unfold swap_orders. by rewrite !decide_False. Qed.

Lemma swap_orders_same d t l : same_but_order l (swap_orders d t l).
Proof.
  unfold swap_orders. repeat case_decide;
    auto using set_order_same, same_but_order_refl.
Qed.

Lemma absent_ids d t layers :
  id d ∉ id <$> layers -> id t ∉ id <$> layers ->
  Forall (fun l => id l <> id d /\ id l <> id t) layers.
Proof.
  intros Hd Ht. apply Forall_forall. intros l Hl.
  split; intros E; [apply Hd|apply Ht]; rewrite <- E;
    by apply list_elem_of_fmap_2.
Qed.

(** Only [a] of the two layers is in the list: its order is replaced. *)
Lemma swap_orders_one d t a b layers :
  (a = d /\ b = t) \/ (a = t /\ b = d) -> id d <> id t ->
  NoDup (id <$> layers) -> a ∈ layers -> id b ∉ id <$> layers ->
  order a :: (order <$> map (swap_orders d t) layers)
  ≡ₚ order b :: (order <$> layers).
Proof.
  intros Hab Hdt Hnd Ha Hb.
  induction layers as [|l layers IH]; [by apply elem_of_nil in Ha|].
  rewrite fmap_cons in Hnd, Hb. apply NoDup_cons in Hnd as [Hl Hnd].
  apply not_elem_of_cons in Hb as [Hlb Hb].
  cbn [map]. rewrite !fmap_cons.
  destruct (decide (id l = id a)) as [E|E].
  - assert (l = a) as ->.
    { apply (id_inj_on (l :: layers));
        [|apply list_elem_of_here|done|done].
      rewrite fmap_cons. by apply NoDup_cons. }
    rewrite swap_orders_others.
    2:{ destruct Hab as [[-> ->]|[-> ->]]; by apply absent_ids. }
    destruct Hab as [[-> ->]|[-> ->]].
    + rewrite swap_orders_dragged. cbn. apply Permutation_swap.
    + rewrite swap_orders_target by done. cbn. apply Permutation_swap.
  - apply elem_of_cons in Ha as [->|Ha]; [done|].
    rewrite swap_orders_other.
    2,3: destruct Hab as [[-> ->]|[-> ->]]; congruence.
    rewrite Permutation_swap, (IH Hnd Ha Hb). apply Permutation_swap.
Qed.

(** Both layers are in the list: the orders are those of before. *)
Lemma swap_orders_perm d t layers :
  NoDup (id <$> layers) -> d ∈ layers -> t ∈ layers -> d <> t ->
  order <$> map (swap_orders d t) layers ≡ₚ order <$> layers.
Proof.
  intros Hnd Hd Ht Hne.
  assert (Hdt : id d <> id t).
  { intros E. apply Hne. by apply (id_inj_on layers). }
  induction layers as [|l layers IH]; [by apply elem_of_nil in Hd|].
  pose proof Hnd as Hnd0.
  rewrite fmap_cons in Hnd. apply NoDup_cons in Hnd as [Hl Hnd].
  cbn [map]. rewrite !fmap_cons.
  destruct (decide (id l = id d)) as [Ed|Ed].
  - assert (l = d) as ->
      by (apply (id_inj_on (l :: layers));
          [done|apply list_elem_of_here|done|done]).
    apply elem_of_cons in Ht as [->|Ht]; [done|].
    rewrite swap_orders_dragged, order_set_order.
    apply (swap_orders_one d t t d); auto.
  - destruct (decide (id l = id t)) as [Et|Et].
    + assert (l = t) as ->
        by (apply (id_inj_on (l :: layers));
            [done|apply list_elem_of_here|done|done]).
      apply elem_of_cons in Hd as [->|Hd]; [done|].
      rewrite swap_orders_target, order_set_order by done.
      apply (swap_orders_one d t d t); auto.
    + apply elem_of_cons in Hd as [->|Hd]; [done|].
      apply elem_of_cons in Ht as [->|Ht]; [done|].
      rewrite swap_orders_other by done. f_equiv. by apply IH.
Qed.

Lemma reorderLayers_unfold layers (dragIndex hoverIndex : nat) d t :
  js_sort (fun a b => order b - order a) layers !! dragIndex = Some d ->
  js_sort (fun a b => order b - order a) layers !! hoverIndex = Some t ->
  reorderLayers layers dragIndex hoverIndex = map (swap_orders d t) layers.
Proof. intros Hd Ht. unfold reorderLayers. by rewrite Hd, Ht. Qed.

Lemma reorderLayers_out_of_range layers (dragIndex hoverIndex : nat) :
  (length layers <= dragIndex \/ length layers <= hoverIndex)%nat ->
  reorderLayers layers dragIndex hoverIndex = layers.
Proof.
  intros Hr. unfold reorderLayers.
  set (sorted := js_sort _ layers).
  assert (Hlen : length sorted = length layers) by apply js_sort_length.
  destruct (sorted !! dragIndex) eqn:Ed;
    destruct (sorted !! hoverIndex) eqn:Eh; try done.
  apply lookup_lt_Some in Ed, Eh. lia.
Qed.
End Reorder.

(** * The rendering passes *)

Lemma foldl_skip {A B} (p : A -> bool) (g : A -> list B) (l : list A) (acc : list B) :
  foldl (fun ops a => if negb (p a) then ops else ops ++ g a) acc l
  = acc ++ mjoin (g <$> filter (fun a => p a = true) l).
Proof.
  revert acc. induction l as [|a l IH]; intros acc.
  - cbn. by rewrite app_nil_r.
  - cbn [foldl]. rewrite IH, filter_cons.
    destruct (p a) eqn:E; cbn [negb].
    + rewrite decide_True by done. rewrite fmap_cons, mjoin_cons.
      by rewrite <- app_assoc.
    + by rewrite decide_False by done.
Qed.

Section Passes.
Context {num : Type} `{JsNumber num} {Image : Type}.
Variable loadImage : string -> option Image.
Implicit Types (layer : Layer num) (layers : list (Layer num)).

(** The export pass paints the layers whose global flag is set. *)
Lemma renderLayersToCanvas_filter layers (size : Z) :
  ClientIconGenerator.renderLayersToCanvas loadImage layers size
  = ClearRect (of_Z 0) (of_Z 0) (of_Z size) (of_Z size)
    :: mjoin (layer_ops
                (fun l => ClientIconGenerator.renderUserImageLayer loadImage l size)
              <$> filter (fun l => visible l = true)
                    (js_sort (fun a b => order a - order b) layers)).
Proof.
  unfold ClientIconGenerator.renderLayersToCanvas. f_equal.
  exact (foldl_skip visible
           (layer_ops (fun l =>
              ClientIconGenerator.renderUserImageLayer loadImage l size))
           _ []).
Qed.

(** When the folder images load, the preview pass paints the layers
    whose resolved visibility is set; when they do not, it issues no
    call. *)
Lemma render_filter layers (size : Z) :
  CanvasRenderer.render loadImage layers size
  = (fun _ =>
       ClearRect (of_Z 0) (of_Z 0) (of_Z size) (of_Z size)
       :: mjoin (layer_ops
                   (fun l => CanvasRenderer.renderUserImage loadImage l size)
                 <$> filter (fun l => resolve_visible l size = true)
                       (js_sort (fun a b => order a - order b) layers)))
    <$> CanvasRenderer.loadFolderImagesForSize loadImage size.
Proof.
  unfold CanvasRenderer.render.
  destruct (CanvasRenderer.loadFolderImagesForSize loadImage size);
    [|done].
  cbn [fmap option_fmap option_map]. do 2 f_equal.
  exact (foldl_skip (fun l => resolve_visible l size)
           (layer_ops (fun l =>
              CanvasRenderer.renderUserImage loadImage l size))
           _ []).
Qed.

Lemma RenderFolder_not_in_place layer (size : Z) (img : Image) l (b : bool) :
  RenderFolder l b ∉ place_user_image layer size img.
Proof.
  unfold place_user_image, applyColorToImage.
  destruct (useColor layer), (color layer); cbv zeta;
    intros Hin; apply list_elem_of_singleton in Hin; discriminate.
Qed.

Lemma RenderFolder_not_in_export_user layer (size : Z) l (b : bool) :
  RenderFolder l b
    ∉ ClientIconGenerator.renderUserImageLayer loadImage layer size.
Proof.
  unfold ClientIconGenerator.renderUserImageLayer. cbv zeta.
  destruct (negb _); [apply not_elem_of_nil|].
  destruct (_ ≫= loadImage);
    [apply RenderFolder_not_in_place|apply not_elem_of_nil].
Qed.

Lemma RenderFolder_not_in_wrapped layer (size : Z) (img : Image) l (b : bool) :
  RenderFolder l b
    ∉ [GlobalAlpha (div (opacity layer) (of_Z 100))]
      ++ place_user_image layer size img ++ [GlobalAlpha (of_Z 1)].
Proof.
  intros Hin. apply elem_of_app in Hin as [Hin|Hin].
  { apply list_elem_of_singleton in Hin. discriminate. }
  apply elem_of_app in Hin as [Hin|Hin].
  { by apply RenderFolder_not_in_place in Hin. }
  apply list_elem_of_singleton in Hin. discriminate.
Qed.

Lemma RenderFolder_not_in_preview_user layer (size : Z) l (b : bool) :
  RenderFolder l b ∉ CanvasRenderer.renderUserImage loadImage layer size.
Proof.
  unfold CanvasRenderer.renderUserImage. cbv zeta.
  assert (Hmain : RenderFolder l b ∉
    (if negb (truthy_string (imageUrl layer)) then []
     else match imageUrl layer ≫= loadImage with
          | Some img =>
              [GlobalAlpha (div (opacity layer) (of_Z 100))]
              ++ place_user_image layer size img ++ [GlobalAlpha (of_Z 1)]
          | None => []
          end)).
  { destruct (negb _); [apply not_elem_of_nil|].
    destruct (_ ≫= loadImage);
      [apply RenderFolder_not_in_wrapped|apply not_elem_of_nil]. }
  destruct (sizeSpecificImages layer) as [images|]; [|done].
  destruct (truthy_string (images !! size)); [|done].
  destruct (images !! size ≫= loadImage);
    [apply RenderFolder_not_in_wrapped|done].
Qed.

Lemma RenderFolder_in_layer_ops
    (user : Layer num -> list (CanvasOp num Image)) layer l (b : bool) :
  (forall l', RenderFolder l b ∉ user l') ->
  RenderFolder l b ∈ layer_ops user layer
  <-> l = layer /\ type layer = (if b then back_folder else front_folder).
Proof.
  intros Huser. unfold layer_ops.
  rewrite elem_of_app, elem_of_app.
  split.
  - intros [Hin|[Hin|Hin]].
    + apply elem_of_cons in Hin as [?|Hin]; [discriminate|].
      apply list_elem_of_singleton in Hin. discriminate.
    + destruct (type layer).
      * apply list_elem_of_singleton in Hin. by injection Hin as -> ->.
      * apply list_elem_of_singleton in Hin. by injection Hin as -> ->.
      * by apply Huser in Hin.
    + apply list_elem_of_singleton in Hin. discriminate.
  - intros [-> Ht]. right. left. rewrite Ht.
    destruct b; apply list_elem_of_here.
Qed.

(** A folder layer is painted by the export pass exactly when its
    global flag is set, whatever its entry for the size. *)
Lemma renderLayersToCanvas_folder_iff layers (size : Z) layer (isBack : bool) :
  RenderFolder layer isBack
    ∈ ClientIconGenerator.renderLayersToCanvas loadImage layers size
  <-> layer ∈ layers /\ visible layer = true
      /\ type layer = (if isBack then back_folder else front_folder).
Proof.
  rewrite renderLayersToCanvas_filter, elem_of_cons, list_elem_of_join.
  split.
  - intros [?|(ops & Hin & Hops)]; [discriminate|].
    apply list_elem_of_fmap in Hops as (l & -> & Hl).
    apply list_elem_of_filter in Hl as [Hv Hl].
    apply js_sort_elem_of in Hl.
    apply RenderFolder_in_layer_ops in Hin as [-> Ht];
      [done|intros; apply RenderFolder_not_in_export_user].
  - intros (Hl & Hv & Ht). right.
    exists (layer_ops (fun l =>
      ClientIconGenerator.renderUserImageLayer loadImage l size) layer).
    split.
    + apply RenderFolder_in_layer_ops;
        [intros; apply RenderFolder_not_in_export_user|done].
    + apply list_elem_of_fmap_2, list_elem_of_filter.
      split; [done|]. by apply js_sort_elem_of.
Qed.

(** A folder layer is painted by the preview pass exactly when its
    resolved visibility is set. *)
Lemma render_folder_iff layers (size : Z) layer (isBack : bool) :
  RenderFolder layer isBack
    ∈ calls_of (CanvasRenderer.render loadImage layers size)
  <-> is_Some (CanvasRenderer.loadFolderImagesForSize loadImage size)
      /\ layer ∈ layers /\ resolve_visible layer size = true
      /\ type layer = (if isBack then back_folder else front_folder).
Proof.
  rewrite render_filter.
  destruct (CanvasRenderer.loadFolderImagesForSize loadImage size)
    as [folderImages|]; unfold calls_of;
    cbn [fmap option_fmap option_map from_option Datatypes.id].
  2:{ split; [by intros ?%elem_of_nil|by intros [[? ?] _]]. }
  rewrite elem_of_cons, list_elem_of_join.
  transitivity (layer ∈ layers /\ resolve_visible layer size = true
      /\ type layer = (if isBack then back_folder else front_folder));
    [|split; [by split; eauto|by intros [_ ?]]].
  split.
  - intros [?|(ops & Hin & Hops)]; [discriminate|].
    apply list_elem_of_fmap in Hops as (l & -> & Hl).
    apply list_elem_of_filter in Hl as [Hv Hl].
    apply js_sort_elem_of in Hl.
    apply RenderFolder_in_layer_ops in Hin as [-> Ht];
      [done|intros; apply RenderFolder_not_in_preview_user].
  - intros (Hl & Hv & Ht). right.
    exists (layer_ops (fun l =>
      CanvasRenderer.renderUserImage loadImage l size) layer).
    split.
    + apply RenderFolder_in_layer_ops;
        [intros; apply RenderFolder_not_in_preview_user|done].
    + apply list_elem_of_fmap_2, list_elem_of_filter.
      split; [done|]. by apply js_sort_elem_of.
Qed.

(** * The placement of a user image *)

Lemma or_num_resolve layer (size : Z) :
  scale_overrides_truthy layer size ->
  or_num (opt_lookup (scaleBySize layer) size) (scale layer)
  = resolve_scale layer size.
Proof.
  intros Ht. unfold or_num, resolve_scale.
  destruct (opt_lookup (scaleBySize layer) size) as [v|] eqn:E; [|done].
  by rewrite (Ht v E).
Qed.

Lemma place_user_image_ops layer (size : Z) (img : Image) :
  scale_overrides_truthy layer size ->
  place_user_image layer size img = user_image_ops layer size img.
Proof.
  intros Ht. unfold place_user_image, user_image_ops, user_image_corner,
    user_image_side, applyColorToImage.
  rewrite or_num_resolve by done. reflexivity.
Qed.

Lemma truthy_string_Some (url : string) :
  url <> ""%string -> truthy_string (Some url) = true.
Proof.
  intros Hne. unfold truthy_string.
  destruct (String.eqb url "") eqn:E; [|done].
  by apply String.eqb_eq in E.
Qed.

Lemma renderUserImageLayer_ops layer (size : Z) (url : string) (img : Image) :
  scale_overrides_truthy layer size ->
  image_overrides_nonempty layer size ->
  resolve_image layer size = Some url -> url <> ""%string ->
  loadImage url = Some img ->
  ClientIconGenerator.renderUserImageLayer loadImage layer size
  = user_image_ops layer size img.
Proof.
  intros Hs Hi Hr Hne Hload.
  unfold ClientIconGenerator.renderUserImageLayer, resolve_image in *.
  destruct (opt_lookup (sizeSpecificImages layer) size) as [u|] eqn:E.
  - injection Hr as ->. rewrite truthy_string_Some by done.
    rewrite truthy_string_Some by done. cbn [negb mbind option_bind].
    rewrite Hload. by apply place_user_image_ops.
  - cbn [truthy_string]. rewrite Hr, truthy_string_Some by done.
    cbn [negb mbind option_bind]. rewrite Hload.
    by apply place_user_image_ops.
Qed.

Lemma renderUserImage_ops layer (size : Z) (url : string) (img : Image) :
  scale_overrides_truthy layer size ->
  image_overrides_nonempty layer size ->
  resolve_image layer size = Some url -> url <> ""%string ->
  loadImage url = Some img ->
  CanvasRenderer.renderUserImage loadImage layer size
  = [GlobalAlpha (div (opacity layer) (of_Z 100))]
    ++ user_image_ops layer size img ++ [GlobalAlpha (of_Z 1)].
Proof.
  intros Hs Hi Hr Hne Hload.
  unfold CanvasRenderer.renderUserImage, resolve_image, opt_lookup in *.
  destruct (sizeSpecificImages layer) as [images|].
  - destruct (images !! size) as [u|] eqn:E.
    + injection Hr as ->. rewrite truthy_string_Some by done.
      cbn [mbind option_bind]. rewrite Hload.
      by rewrite place_user_image_ops.
    + cbn [truthy_string]. rewrite Hr, truthy_string_Some by done.
      cbn [negb mbind option_bind]. rewrite Hload.
      by rewrite place_user_image_ops.
  - rewrite Hr, truthy_string_Some by done.
    cbn [negb mbind option_bind]. rewrite Hload.
    by rewrite place_user_image_ops.
Qed.
End Passes.

(** * The claims about the writer *)

Lemma layout_dimension_bytes (es : list (Z * list byte))
    (field : list byte -> nat -> Z) :
  (forall i s d, es !! i = Some (s, d) ->
     field (ico_layout es) i = (if decide (s = 256) then 0 else s)) ->
  field (ico_layout es) <$> seq 0 (length es)
  = (fun s => if decide (s = 256) then 0 else s) <$> es.*1.
Proof.
  intros Hf. apply list_eq. intros i. rewrite !list_lookup_fmap.
  destruct (es !! i) as [[s d]|] eqn:Hes.
  - rewrite lookup_seq_lt by (by eapply lookup_lt_Some).
    cbn. f_equal. by eapply Hf.
  - rewrite lookup_seq_ge; [done|]. by apply lookup_ge_None.
Qed.

(** C1. For a map from sizes (each at most 256, so that it fits the
    one-byte fields) to PNG buffers, whose packed length fits the 32-bit
    offset field, both writers emit: a 6-byte header (reserved 0, type 1,
    count of sizes, little-endian 16-bit each); one 16-byte directory
    entry per size in ascending order of size, with width and height
    bytes 0 for size 256 and the size otherwise, color count 0, reserved
    0, planes 1, bits per pixel 32, the length of the PNG buffer of the
    size, and an offset of 6 + 16 * count plus the lengths of the
    payloads before it; then the PNG buffers themselves in the same
    order. For the seven canonical sizes the output starts with
    00 00 01 00 07 00 and the dimension bytes are 16,20,24,32,40,64,0. *)
Theorem C1_ico_writer_layout (imageBuffers : gmap Z (list byte)) :
  (forall s data, imageBuffers !! s = Some data -> 0 <= s <= 256) ->
  Z.of_nat (ico_total_size (sorted_entries imageBuffers)) < 2 ^ 32 ->
  let es := sorted_entries imageBuffers in
  exists out,
    ClientIconGenerator.createIcoFromPngs imageBuffers = Ok out
    /\ IconProcessor.createICOFromPNGs es = Ok out
    /\ StronglySorted Z.lt es.*1
    /\ (forall s data, (s, data) ∈ es <-> imageBuffers !! s = Some data)
    /\ length es = size imageBuffers
    /\ out = ico_header (length es)
             ++ ico_directory es (6 + 16 * length es) ++ concat es.*2
    /\ length out = (6 + 16 * length es + length (concat es.*2))%nat
    /\ header_reserved out = 0
    /\ header_type out = 1
    /\ header_count out = Z.of_nat (length es)
    /\ (forall i s data, es !! i = Some (s, data) ->
        entry_width_byte out i = (if decide (s = 256) then 0 else s)
        /\ entry_height_byte out i = (if decide (s = 256) then 0 else s)
        /\ le_at out (6 + 16 * i + 2) 1 = 0
        /\ le_at out (6 + 16 * i + 3) 1 = 0
        /\ le_at out (6 + 16 * i + 4) 2 = 1
        /\ le_at out (6 + 16 * i + 6) 2 = 32
        /\ entry_imageSize out i = Z.of_nat (length data)
        /\ entry_imageOffset out i
           = Z.of_nat (6 + 16 * length es + length (concat (take i es).*2))
        /\ subarray out (entry_imageOffset out i)
             (entry_imageOffset out i + entry_imageSize out i) = data)
    /\ drop (6 + 16 * length es) out = concat es.*2
    /\ ((forall s, is_Some (imageBuffers !! s) <-> s ∈ ICON_SIZES) ->
        take 6 out = [x00; x00; x01; x00; x07; x00]
        /\ entry_width_byte out <$> seq 0 7 = [16; 20; 24; 32; 40; 64; 0]
        /\ entry_height_byte out <$> seq 0 7 = [16; 20; 24; 32; 40; 64; 0]).
Proof.
  intros Hsizes Htot es.
  assert (Hfit : sizes_fit es) by (by apply (sizes_fit_sorted_entries _ 0)).
  pose proof (sorted_entries_count imageBuffers Hsizes) as Hcount. fold es in Hcount.
  assert (Hfields : forall i s data, es !! i = Some (s, data) ->
    0 <= s <= 256).
  { intros i s data Hi. apply (Hsizes s data).
    apply sorted_entries_lookup. by eapply list_elem_of_lookup_2. }
  exists (ico_layout es).
  split; [apply createIcoFromPngs_layout|].
  split; [apply createICOFromPNGs_layout; [done|lia|done]|].
  split; [unfold es; rewrite sorted_entries_fst; apply sorted_sizes_ascending|].
  split; [apply sorted_entries_lookup|].
  split; [apply sorted_entries_length|].
  split; [reflexivity|].
  split; [apply length_ico_layout|].
  destruct (layout_header_fields es) as (Hr & Ht & Hc); [lia|].
  split; [done|]. split; [done|]. split; [done|].
  split.
  { intros i s data Hi.
    destruct (layout_entry_fields es i s data Hi (Hfields i s data Hi) Htot)
      as (Hw & Hh & Hcc & Hres & Hpl & Hbpp & Hsz & Hoff).
    repeat (split; [done|]).
    rewrite Hsz, Hoff. by apply (layout_payload es i s data). }
  split; [apply layout_payloads|].
  intros Hcanon.
  assert (Hkeys : es.*1 = ICON_SIZES).
  { unfold es. rewrite sorted_entries_fst. by apply sorted_sizes_canonical. }
  assert (Hlen : length es = 7%nat).
  { rewrite <- (length_fmap fst), Hkeys. reflexivity. }
  split.
  { unfold ico_layout. rewrite take_app_length' by done.
    rewrite Hlen. by vm_compute. }
  rewrite <- Hlen. split.
  - rewrite (layout_dimension_bytes es entry_width_byte).
    + rewrite Hkeys. reflexivity.
    + intros i s d Hi.
      by destruct (layout_entry_fields es i s d Hi (Hfields i s d Hi) Htot)
        as (Hw & _).
  - rewrite (layout_dimension_bytes es entry_height_byte).
    + rewrite Hkeys. reflexivity.
    + intros i s d Hi.
      by destruct (layout_entry_fields es i s d Hi (Hfields i s d Hi) Htot)
        as (_ & Hh & _).
Qed.

Lemma two_sizes_fit :
  forall s data, two_sizes !! s = Some data -> 1 <= s <= 256.
Proof.
  intros s data Hs. unfold two_sizes in Hs.
  apply lookup_insert_Some in Hs as [[<- _]|[_ Hs]]; [lia|].
  apply lookup_insert_Some in Hs as [[<- _]|[_ Hs]]; [lia|].
  by rewrite lookup_empty in Hs.
Qed.

Lemma two_sizes_png :
  forall s data, two_sizes !! s = Some data -> take 8 data = png_signature.
Proof.
  intros s data Hs. unfold two_sizes in Hs.
  apply lookup_insert_Some in Hs as [[_ <-]|[_ Hs]]; [done|].
  apply lookup_insert_Some in Hs as [[_ <-]|[_ Hs]]; [done|].
  by rewrite lookup_empty in Hs.
Qed.

Lemma two_sizes_total :
  Z.of_nat (ico_total_size (sorted_entries two_sizes)) < 2 ^ 32.
Proof. by vm_compute. Qed.

Lemma C1_witness :
  (forall s data, two_sizes !! s = Some data -> 0 <= s <= 256)
  /\ Z.of_nat (ico_total_size (sorted_entries two_sizes)) < 2 ^ 32
  /\ exists out,
       ClientIconGenerator.createIcoFromPngs two_sizes = Ok out
       /\ IconProcessor.createICOFromPNGs (sorted_entries two_sizes) = Ok out
       /\ header_count out = 2.
Proof.
  assert (Hfit : forall s data, two_sizes !! s = Some data -> 0 <= s <= 256).
  { intros s data Hs. pose proof (two_sizes_fit s data Hs). lia. }
  split; [exact Hfit|]. split; [exact two_sizes_total|].
  destruct (C1_ico_writer_layout two_sizes Hfit two_sizes_total)
    as (out & Hc & Hs & Hrest).
  exists out. split; [exact Hc|]. split; [exact Hs|].
  destruct Hrest as (_ & _ & Hlen & _ & _ & _ & _ & Hcount & _).
  rewrite Hcount, Hlen. reflexivity.
Defined.

(** C2 (as amended). For a map that is not empty, of at most 255 sizes
    between 1 and 256, to buffers that start with the PNG signature, and
    whose packed length fits the 32-bit offset field: writing the map and
    parsing the result succeeds, and yields in ascending order of size
    one descriptor per size, of that width and height, of format PNG,
    whose payload is the buffer of the map. *)
Theorem C2_roundtrip_nonempty (imageBuffers : gmap Z (list byte)) :
  imageBuffers <> ∅ ->
  (forall s data, imageBuffers !! s = Some data -> 1 <= s <= 256) ->
  (forall s data, imageBuffers !! s = Some data -> take 8 data = png_signature) ->
  (size imageBuffers <= 255)%nat ->
  Z.of_nat (ico_total_size (sorted_entries imageBuffers)) < 2 ^ 32 ->
  exists out,
    ClientIconGenerator.createIcoFromPngs imageBuffers = Ok out
    /\ IcoParser.parse out
       = Ok ((fun e => mkIcoImage e.1 e.1 e.2 png)
               <$> sorted_entries imageBuffers)
    /\ roundtrips imageBuffers.
Proof.
  intros Hne Hsizes Hpng Hcount Htot.
  set (es := sorted_entries imageBuffers) in *.
  assert (Hlen : 0 < Z.of_nat (length es) <= 255).
  { unfold es. rewrite sorted_entries_length. split; [|lia].
    destruct (decide (size imageBuffers = 0)%nat) as [E|]; [|lia].
    by apply map_size_empty_iff in E. }
  assert (Hparse : IcoParser.parse (ico_layout es)
                   = Ok ((fun e => mkIcoImage e.1 e.1 e.2 png) <$> es)).
  { rewrite parse_layout;
      [|by apply (sizes_fit_sorted_entries _ 1)|done|done].
    f_equal.
    apply list_eq. intros i. rewrite !list_lookup_fmap.
    destruct (es !! i) as [[s d]|] eqn:Hi; [|done]. cbn. do 2 f_equal.
    apply detect_format_png, (Hpng s).
    apply sorted_entries_lookup. by eapply list_elem_of_lookup_2. }
  exists (ico_layout es).
  split; [apply createIcoFromPngs_layout|]. split; [done|].
  exists (ico_layout es), ((fun e => mkIcoImage e.1 e.1 e.2 png) <$> es).
  split; [apply createIcoFromPngs_layout|]. split; [done|].
  intros s data Hs.
  apply (list_elem_of_fmap_2 (fun e => mkIcoImage e.1 e.1 e.2 png) es (s, data)).
  by apply sorted_entries_lookup.
Qed.

Lemma two_sizes_nonempty : two_sizes <> ∅.
Proof.
  intros E.
  assert (H : two_sizes !! 16 = (∅ : gmap Z (list byte)) !! 16) by (by rewrite E).
  by vm_compute in H.
Qed.

Lemma two_sizes_count : (size two_sizes <= 255)%nat.
Proof. assert (size two_sizes = 2%nat) as -> by (by vm_compute). lia. Qed.

Lemma C2_witness :
  two_sizes <> ∅
  /\ (forall s data, two_sizes !! s = Some data -> 1 <= s <= 256)
  /\ (forall s data, two_sizes !! s = Some data -> take 8 data = png_signature)
  /\ (size two_sizes <= 255)%nat
  /\ Z.of_nat (ico_total_size (sorted_entries two_sizes)) < 2 ^ 32
  /\ roundtrips two_sizes.
Proof.
  split; [exact two_sizes_nonempty|]. split; [exact two_sizes_fit|].
  split; [exact two_sizes_png|]. split; [exact two_sizes_count|].
  split; [exact two_sizes_total|].
  destruct (C2_roundtrip_nonempty two_sizes two_sizes_nonempty two_sizes_fit
              two_sizes_png two_sizes_count two_sizes_total)
    as (out & _ & _ & Hr).
  exact Hr.
Defined.

(** C2, the claim as stated fails: the writer packs the empty map into
    a header that counts no image, and the reader rejects that count. *)
Lemma C2_counterexample_empty_map : ~ roundtrips ∅.
Proof.
  intros (out & images & Hw & Hp & _).
  vm_compute in Hw. injection Hw as <-. by vm_compute in Hp.
Qed.

(** * The claims about the reader *)

Lemma parse_ok_nonempty (buf : list byte) (images : list IcoImage) :
  IcoParser.parse buf = Ok images ->
  images <> [] /\ Z.of_nat (length images) = header_count buf.
Proof.
  intros Hp. destruct (ico_malformed_dec buf) as [Hm|Hwf].
  - apply parse_err_of_malformed in Hm as (e & He & _). congruence.
  - rewrite (parse_ok_of_well_formed buf Hwf) in Hp. injection Hp as <-.
    pose proof (le_at_range buf 4 2) as Hr. fold (header_count buf) in Hr.
    assert (header_count buf <> 0) by (unfold ico_malformed in Hwf; tauto).
    rewrite length_map, length_seq. split; [|lia].
    destruct (Z.to_nat (header_count buf)) eqn:E; [lia|done].
Qed.

(** C3 (as amended). The reader of the server and the first reader of
    the client raise an error exactly when the container is malformed:
    fewer than 6 bytes, a reserved field that is not 0 or a type field
    that is not 1, a count of 0 or above 255, a directory entry that
    extends past the buffer, or an entry whose offset plus size exceeds
    the length of the buffer; the error is then a format error, and
    otherwise [parse] returns as many descriptors as the header counts.
    The second reader of the client raises an error exactly when the
    name of the file does not end in [.ico] or the container is
    malformed; a container of fewer than 22 bytes, which it rejects
    first, is malformed. *)
Theorem C3_parse_fails_iff_malformed (buf : list byte) (file : File) :
  (is_Err (IcoParser.parse buf) <-> ico_malformed buf)
  /\ (forall e, IcoParser.parse buf = Err e -> FormatError e)
  /\ (~ ico_malformed buf ->
      exists images, IcoParser.parse buf = Ok images
        /\ Z.of_nat (length images) = header_count buf)
  /\ (is_Err (ClientIcoProcessorV1.parseIcoFile file)
      <-> ico_malformed (file_bytes file))
  /\ (is_Err (ClientIcoProcessor.parseIcoFile file)
      <-> ClientIcoProcessor.endsWith
            (ClientIcoProcessor.toLowerCase (file_name file)) ".ico" = false
          \/ ico_malformed (file_bytes file))
  /\ ((length buf < 22)%nat -> ico_malformed buf).
Proof.
  split; [apply parse_err_iff_malformed|].
  split.
  { intros e He. destruct (ico_malformed_dec buf) as [Hm|Hwf].
    - apply parse_err_of_malformed in Hm as (e' & He' & Hf).
      assert (e = e') as -> by congruence. unfold FormatError. tauto.
    - rewrite (parse_ok_of_well_formed buf Hwf) in He. discriminate. }
  split.
  { intros Hwf. eexists. split; [by apply parse_ok_of_well_formed|].
    rewrite length_map, length_seq.
    pose proof (le_at_range buf 4 2) as Hr. fold (header_count buf) in Hr. lia. }
  split.
  { unfold ClientIcoProcessorV1.parseIcoFile.
    rewrite client_parse_header_eq. apply parse_err_iff_malformed. }
  split; [apply parseIcoFile_v2_err_iff|apply short_file_malformed].
Qed.

(** C3, the claim as stated fails: the second reader of the client
    rejects a well-formed container whose file name does not end in
    [.ico]. *)
Lemma C3_counterexample_renamed_file :
  ~ (is_Err (ClientIcoProcessor.parseIcoFile renamed_ico_file)
     <-> ico_malformed (file_bytes renamed_ico_file)).
Proof.
  intros [Hfail _].
  assert (Hm : ico_malformed (file_bytes renamed_ico_file)) by (by apply Hfail).
  apply parse_err_iff_malformed in Hm. by vm_compute in Hm.
Qed.

(** * The claims about the selection *)

(** C4 (as amended). For a list of images that is not empty, both
    copies of the selection of the client return an exact match when
    there is one; otherwise an image of the smallest area among those at
    least as wide and as high as the target, when there is one;
    otherwise an image of the largest area. The selection of the server
    returns the same image when all images are square; in general it
    returns an exact match when there is one, and otherwise compares the
    larger dimension of an image where the client compares both
    dimensions with the target and the areas with each other. *)
Theorem C4_best_match_order (images : list IcoImage) (targetSize : Z) :
  images <> [] ->
  exists r,
    ClientIcoProcessorV1.getBestMatch images targetSize = Ok (Some r)
    /\ ClientIcoProcessor.getBestMatch images targetSize = Ok (Some r)
    /\ bestMatch_spec images targetSize r
    /\ (Forall square images ->
        IcoParser.getBestMatch images targetSize = Ok (Some r))
    /\ (exists r', IcoParser.getBestMatch images targetSize = Ok (Some r')
                   /\ serverMatch_spec images targetSize r').
Proof.
  intros Hne.
  destruct (client_getBestMatch_spec images targetSize Hne) as (r & Hr & Hspec).
  exists r. split; [exact Hr|]. split; [exact Hr|]. split; [exact Hspec|].
  split; [|by apply server_getBestMatch_spec].
  intros Hsq. by rewrite server_eq_client_on_squares.
Qed.

Lemma C4_witness :
  [small_square; large_square] <> []
  /\ exists r,
       ClientIcoProcessorV1.getBestMatch [small_square; large_square] 20
       = Ok (Some r)
       /\ ClientIcoProcessor.getBestMatch [small_square; large_square] 20
          = Ok (Some r)
       /\ bestMatch_spec [small_square; large_square] 20 r
       /\ (Forall square [small_square; large_square] ->
           IcoParser.getBestMatch [small_square; large_square] 20
           = Ok (Some r))
       /\ (exists r',
             IcoParser.getBestMatch [small_square; large_square] 20
             = Ok (Some r')
             /\ serverMatch_spec [small_square; large_square] 20 r').
Proof.
  split; [discriminate|].
  apply (C4_best_match_order [small_square; large_square] 20). discriminate.
Defined.

(** C4, the claim as stated fails: on images that are not square the
    selection of the server compares the larger dimension, and returns an
    image that is not of the largest area. *)
Lemma C4_counterexample_server :
  IcoParser.getBestMatch [wide_image; tall_image] 16 = Ok (Some wide_image)
  /\ ~ bestMatch_spec [wide_image; tall_image] 16 wide_image.
Proof.
  split; [reflexivity|].
  intros (_ & _ & _ & Hlargest).
  assert (Hno_exact : ~ exists i, i ∈ [wide_image; tall_image]
                                  /\ exact_match 16 i).
  { intros (i & Hi & [Hw Hh]).
    apply elem_of_cons in Hi as [->|Hi]; [discriminate|].
    apply list_elem_of_singleton in Hi as ->. discriminate. }
  assert (Hno_large : ~ exists i, i ∈ [wide_image; tall_image]
                                  /\ large_enough 16 i).
  { intros (i & Hi & [Hw Hh]).
    apply elem_of_cons in Hi as [->|Hi]; [simpl in Hh; lia|].
    apply list_elem_of_singleton in Hi as ->. simpl in Hw. lia. }
  specialize (Hlargest Hno_exact Hno_large tall_image).
  unfold area in Hlargest. simpl in Hlargest.
  assert (1000 <= 512); [|lia].
  apply Hlargest. apply list_elem_of_further, list_elem_of_here.
Qed.

Lemma client_parse_ok (file : File) (parsed : list IcoImage) :
  ClientIcoProcessorV1.parseIcoFile file = Ok parsed
  \/ ClientIcoProcessor.parseIcoFile file = Ok parsed ->
  IcoParser.parse (file_bytes file) = Ok parsed.
Proof.
  unfold ClientIcoProcessorV1.parseIcoFile, ClientIcoProcessor.parseIcoFile.
  rewrite client_parse_header_eq. intros [Hp|Hp]; [done|].
  by destruct (negb _).
Qed.

(** C10. Each selection returns [null] exactly when the list of images
    is empty, and an element of the list otherwise; after a successful
    parse, by the reader of the server or by a reader of the client,
    every canonical target size is given one of the parsed images. *)
Theorem C10_best_match_total (images : list IcoImage) (targetSize : Z)
    (buf : list byte) (file : File) :
  (ClientIcoProcessor.getBestMatch images targetSize = Ok None <-> images = [])
  /\ (IcoParser.getBestMatch images targetSize = Ok None <-> images = [])
  /\ (images <> [] ->
      (exists r, ClientIcoProcessor.getBestMatch images targetSize = Ok (Some r)
                 /\ r ∈ images)
      /\ (exists r, IcoParser.getBestMatch images targetSize = Ok (Some r)
                    /\ r ∈ images))
  /\ (forall parsed, IcoParser.parse buf = Ok parsed ->
      forall target, target ∈ ICON_SIZES ->
        (exists r, IcoParser.getBestMatch parsed target = Ok (Some r)
                   /\ r ∈ parsed)
        /\ (exists r, ClientIcoProcessor.getBestMatch parsed target = Ok (Some r)
                      /\ r ∈ parsed))
  /\ (forall parsed,
      ClientIcoProcessorV1.parseIcoFile file = Ok parsed
      \/ ClientIcoProcessor.parseIcoFile file = Ok parsed ->
      forall target, target ∈ ICON_SIZES ->
        exists r, ClientIcoProcessor.getBestMatch parsed target = Ok (Some r)
                  /\ r ∈ parsed).
Proof.
  assert (Hboth : forall imgs t, imgs <> [] ->
    (exists r, ClientIcoProcessor.getBestMatch imgs t = Ok (Some r) /\ r ∈ imgs)
    /\ (exists r, IcoParser.getBestMatch imgs t = Ok (Some r) /\ r ∈ imgs)).
  { intros imgs t Hne. split.
    - destruct (client_getBestMatch_spec imgs t Hne) as (r & Hr & Hin & _).
      by exists r.
    - by apply server_getBestMatch_elem. }
  split; [apply client_getBestMatch_None_iff|].
  split; [apply server_getBestMatch_None_iff|].
  split; [apply Hboth|].
  split.
  - intros parsed Hp target _.
    apply parse_ok_nonempty in Hp as [Hne _].
    destruct (Hboth parsed target Hne) as [Hc Hs]. by split.
  - intros parsed Hp target _.
    apply client_parse_ok, parse_ok_nonempty in Hp as [Hne _].
    by destruct (Hboth parsed target Hne) as [Hc _].
Qed.

(** * The claim about the raw bitmap *)

(** C5. The decoder skips 40 bytes; it raises an error exactly when the
    bytes after them are fewer than [width * height * 4]; otherwise the
    output has [width * height * 4] bytes, and the pixel of row [y] (0 at
    the top) and column [x] takes its bytes from the source offset
    [40 + ((height - 1 - y) * width + x) * 4], with B,G,R,A stored as
    R,G,B,A. A pixel of source row [r] is therefore the pixel of output
    row [height - 1 - r]. *)
Theorem C5_bmp_decode (bmpBuffer : list byte) (width height : nat) :
  let decoded := ClientIcoProcessor.parseBmpToRgba bmpBuffer width height in
  (is_Err decoded
   <-> Z.of_nat (length bmpBuffer) - 40 < Z.of_nat (width * height * 4))
  /\ ((0 < width * height)%nat ->
      (is_Err decoded
       <-> (length (drop 40 bmpBuffer) < width * height * 4)%nat))
  /\ (forall e, decoded = Err e -> e = BmpDataTooSmall)
  /\ (~ is_Err decoded ->
      exists rgba, decoded = Ok rgba
        /\ length rgba = (width * height * 4)%nat
        /\ (forall x y, (x < width)%nat -> (y < height)%nat ->
            let src := (40 + ((height - 1 - y) * width + x) * 4)%nat in
            let tgt := ((y * width + x) * 4)%nat in
            rgba !! tgt = bmpBuffer !! (src + 2)%nat
            /\ rgba !! (tgt + 1)%nat = bmpBuffer !! (src + 1)%nat
            /\ rgba !! (tgt + 2)%nat = bmpBuffer !! src
            /\ rgba !! (tgt + 3)%nat = bmpBuffer !! (src + 3)%nat)
        /\ (forall x r, (x < width)%nat -> (r < height)%nat ->
            let src := (40 + (r * width + x) * 4)%nat in
            let tgt := (((height - 1 - r) * width + x) * 4)%nat in
            rgba !! tgt = bmpBuffer !! (src + 2)%nat
            /\ rgba !! (tgt + 1)%nat = bmpBuffer !! (src + 1)%nat
            /\ rgba !! (tgt + 2)%nat = bmpBuffer !! src
            /\ rgba !! (tgt + 3)%nat = bmpBuffer !! (src + 3)%nat)).
Proof.
  intros decoded.
  assert (Hcase : (length bmpBuffer < 40 + width * height * 4
                   /\ decoded = Err BmpDataTooSmall)%nat
                  \/ (40 + width * height * 4 <= length bmpBuffer
                      /\ decoded = Ok (rgba_image bmpBuffer width height))%nat).
  { destruct (decide (length bmpBuffer < 40 + width * height * 4)%nat).
    - left. split; [done|]. by apply parseBmpToRgba_err.
    - right. split; [lia|]. apply parseBmpToRgba_ok. lia. }
  assert (Hpix : (40 + width * height * 4 <= length bmpBuffer)%nat ->
    forall x y, (x < width)%nat -> (y < height)%nat ->
      let src := (40 + ((height - 1 - y) * width + x) * 4)%nat in
      let tgt := ((y * width + x) * 4)%nat in
      rgba_image bmpBuffer width height !! tgt = bmpBuffer !! (src + 2)%nat
      /\ rgba_image bmpBuffer width height !! (tgt + 1)%nat
         = bmpBuffer !! (src + 1)%nat
      /\ rgba_image bmpBuffer width height !! (tgt + 2)%nat = bmpBuffer !! src
      /\ rgba_image bmpBuffer width height !! (tgt + 3)%nat
         = bmpBuffer !! (src + 3)%nat).
  { intros Hl x y Hx Hy src tgt.
    pose proof (source_in_bounds bmpBuffer width height y x Hx Hy Hl) as Hb.
    fold src in Hb. subst tgt.
    rewrite <- (Nat.add_0_r ((y * width + x) * 4)) at 1.
    rewrite !rgba_image_lookup by lia.
    unfold rgba_pixel. fold src. cbn [lookup list_lookup].
    rewrite !get_byte_lookup by lia. done. }
  split; [|split; [|split]].
  - destruct Hcase as [[Hl ->]|[Hl ->]]; cbn [is_Err]; split; try done; lia.
  - intros Hpos. rewrite length_drop.
    destruct Hcase as [[Hl ->]|[Hl ->]]; cbn [is_Err]; split; try done; lia.
  - intros e He. destruct Hcase as [[_ E]|[_ E]]; congruence.
  - intros Hok. destruct Hcase as [[_ E]|[Hl E]].
    { rewrite E in Hok. by destruct Hok. }
    exists (rgba_image bmpBuffer width height).
    split; [done|]. split; [apply length_rgba_image|].
    split; [by apply Hpix|].
    intros x r Hx Hr src tgt.
    pose proof (Hpix Hl x (height - 1 - r)%nat Hx ltac:(lia)) as Hp.
    cbv zeta in Hp.
    replace (height - 1 - (height - 1 - r))%nat with r in Hp by lia.
    exact Hp.
Qed.

(** * The claims about the layers *)

(** C6, the export pass at the failing input. In the default stack the
    front folder is globally visible and hidden at size 16. Its resolved
    visibility at 16 is false and the preview pass skips it, but the
    export pass, which reads the global flag only, paints it. *)
Theorem C6_export_ignores_size_visibility
    {num : Type} `{JsNumber num} {Image : Type}
    (loadImage : string -> option Image) :
  let layers := stack_front_hidden_at_16 in
  let layer := front_hidden_at_16 in
  layer ∈ layers
  /\ resolve_visible layer 16 = false
  /\ (RenderFolder layer false
        ∉ calls_of (CanvasRenderer.render loadImage layers 16))
  /\ (RenderFolder layer false
        ∈ ClientIconGenerator.renderLayersToCanvas loadImage layers 16).
Proof.
  intros layers layer.
  assert (Hin : layer ∈ layers)
    by apply list_elem_of_further, list_elem_of_here.
  split; [done|]. split; [reflexivity|]. split.
  - rewrite render_folder_iff. intros (_ & _ & Hv & _). discriminate.
  - apply renderLayersToCanvas_folder_iff. by split.
Qed.

(** The placement of a user image. At a size [s], for a user-image layer
    whose overrides are well formed (a scale is not zero, an image
    reference is not empty) and whose resolved image source decodes, both
    renderers draw the decoded image of the resolved source (the entry of
    the size when present, the global source otherwise) into the square
    of side [s * scale] whose top-left corner is
    [(position.x * (s / 256) - (s * scale) / 2,
      position.y * (s / 256) - (s * scale) / 2)],
    where the position and the scale are the entries of the size when
    present and the global values otherwise. *)
Lemma user_image_placement
    {num : Type} `{JsNumber num} {Image : Type}
    (loadImage : string -> option Image)
    (layer : Layer num) (s : Z) (url : string) (img : Image) :
  scale_overrides_truthy layer s ->
  image_overrides_nonempty layer s ->
  resolve_image layer s = Some url ->
  url <> ""%string ->
  loadImage url = Some img ->
  let position := resolve_position layer s in
  let scale := resolve_scale layer s in
  let side := mul (of_Z s) scale in
  let x := sub (mul (pos_x position) (div (of_Z s) (of_Z 256)))
               (div side (of_Z 2)) in
  let y := sub (mul (pos_y position) (div (of_Z s) (of_Z 256)))
               (div side (of_Z 2)) in
  let draw :=
    match useColor layer, color layer with
    | true, Some c => [DrawCanvas (mkTempCanvas side img (fill_of c side)) x y]
    | _, _ => [DrawImage img x y side side]
    end in
  ClientIconGenerator.renderUserImageLayer loadImage layer s = draw
  /\ CanvasRenderer.renderUserImage loadImage layer s
     = [GlobalAlpha (div (opacity layer) (of_Z 100))]
       ++ draw ++ [GlobalAlpha (of_Z 1)].
Proof.
  intros Hs Hi Hr Hne Hload. cbv zeta. split.
  - by rewrite (renderUserImageLayer_ops loadImage layer s url img).
  - by rewrite (renderUserImage_ops loadImage layer s url img).
Qed.

Lemma placed_user_image_scale : scale_overrides_truthy placed_user_image 32.
Proof.
  intros v Hv. cbn in Hv. apply lookup_singleton_Some in Hv as [_ <-].
  reflexivity.
Qed.

Lemma placed_user_image_sources : image_overrides_nonempty placed_user_image 32.
Proof. intros url Hurl. discriminate. Qed.

(** The placement at size 32 of a user image with overrides of its
    position and its scale at that size. *)
Lemma user_image_placement_at_32 :
  scale_overrides_truthy placed_user_image 32
  /\ image_overrides_nonempty placed_user_image 32
  /\ resolve_image placed_user_image 32
     = Some "data:image/png;base64,iVBORw0KGgo="%string
  /\ "data:image/png;base64,iVBORw0KGgo="%string <> ""%string
  /\ ClientIconGenerator.renderUserImageLayer (fun _ => Some tt)
       placed_user_image 32
     = [DrawImage tt
          (sub (mul (of_Z 50) (div (of_Z 32) (of_Z 256)))
               (div (mul (of_Z 32) (Q2Qc (1 # 2))) (of_Z 2)))
          (sub (mul (of_Z 50) (div (of_Z 32) (of_Z 256)))
               (div (mul (of_Z 32) (Q2Qc (1 # 2))) (of_Z 2)))
          (mul (of_Z 32) (Q2Qc (1 # 2))) (mul (of_Z 32) (Q2Qc (1 # 2)))].
Proof.
  split; [exact placed_user_image_scale|].
  split; [exact placed_user_image_sources|].
  split; [reflexivity|]. split; [discriminate|].
  apply (user_image_placement (fun _ => Some tt) placed_user_image 32
           "data:image/png;base64,iVBORw0KGgo=" tt).
  - exact placed_user_image_scale.
  - exact placed_user_image_sources.
  - reflexivity.
  - discriminate.
  - reflexivity.
Qed.

(** When the image of the size is present and does not decode, the export
    draws nothing for the layer, and the preview goes on to the main
    image and places it as it would have placed the image of the size. *)
Lemma renderUserImage_falls_back
    {num : Type} `{JsNumber num} {Image : Type}
    (loadImage : string -> option Image)
    (layer : Layer num) (s : Z) (url main : string) (img : Image) :
  opt_lookup (sizeSpecificImages layer) s = Some url ->
  url <> ""%string ->
  loadImage url = None ->
  imageUrl layer = Some main ->
  main <> ""%string ->
  loadImage main = Some img ->
  resolve_image layer s = Some url
  /\ ClientIconGenerator.renderUserImageLayer loadImage layer s = []
  /\ CanvasRenderer.renderUserImage loadImage layer s
     = [GlobalAlpha (div (opacity layer) (of_Z 100))]
       ++ place_user_image layer s img ++ [GlobalAlpha (of_Z 1)].
Proof.
  intros Hurl Hne Hbad Hmain Hmne Hgood.
  assert (Hu : truthy_string (Some url) = true) by (by apply truthy_string_Some).
  assert (Hm : truthy_string (Some main) = true) by (by apply truthy_string_Some).
  split; [|split].
  - unfold resolve_image. by rewrite Hurl.
  - unfold ClientIconGenerator.renderUserImageLayer.
    rewrite Hurl, Hu, Hu. cbn [negb mbind option_bind]. by rewrite Hbad.
  - unfold CanvasRenderer.renderUserImage.
    destruct (sizeSpecificImages layer) as [images|]; [|discriminate Hurl].
    cbn [opt_lookup] in Hurl. rewrite Hurl, Hu.
    cbn [mbind option_bind]. rewrite Hbad, Hmain, Hm.
    cbn [negb mbind option_bind]. by rewrite Hgood.
Qed.

(** C7, the preview at the failing input. The user image of the page
    after the upload of an image and then, for size 16, of an image that
    does not decode: its image source at 16 is the image of the size,
    which the export tries and, failing to decode it, draws nothing; the
    preview draws the main image instead, over the square of the size. *)
Theorem C7_preview_draws_main_image :
  let main := "data:image/png;base64,iVBORw0KGgo="%string in
  let bad := "data:image/png;base64,AAAA"%string in
  let layer := undecodable_at_16 in
  IconDesigner.layers
    (IconDesigner.run
       [IconDesigner.ImageUpload main;
        IconDesigner.SizeSpecificImageUpload 16 bad]) !! 2%nat = Some layer
  /\ resolve_image layer 16 = Some bad
  /\ decode_main_only bad = None
  /\ decode_main_only main = Some main
  /\ ClientIconGenerator.renderUserImageLayer decode_main_only layer 16 = []
  /\ CanvasRenderer.renderUserImage decode_main_only layer 16
     = [GlobalAlpha (of_Z 1);
        DrawImage main (of_Z 0) (of_Z 0) (of_Z 16) (of_Z 16);
        GlobalAlpha (of_Z 1)].
Proof.
  intros main bad layer.
  assert (Hq : forall a b : Qc, Qeq a b -> a = b)
    by (intros a b E; by apply Qc_is_canon).
  split.
  { unfold IconDesigner.run. cbn [foldl IconDesigner.step].
    unfold IconDesigner.handleSizeSpecificImageUpload,
      IconDesigner.handleImageUpload.
    cbn -[div of_Z].
    rewrite (Hq (div (of_Z 100) (of_Z 100)) (of_Z 1)) by reflexivity.
    reflexivity. }
  destruct (renderUserImage_falls_back decode_main_only layer 16 bad main main)
    as (Hr & He & Hp); try done.
  split; [exact Hr|]. split; [reflexivity|]. split; [reflexivity|].
  split; [exact He|]. rewrite Hp.
  cbn -[div of_Z mul sub].
  rewrite (Hq (div (of_Z 100) (of_Z 100)) (of_Z 1)) by reflexivity.
  rewrite (Hq (mul (of_Z 16) (of_Z 1)) (of_Z 16)) by reflexivity.
  rewrite (Hq (sub (mul (of_Z 128) (div (of_Z 16) (of_Z 256)))
                   (div (of_Z 16) (of_Z 2))) (of_Z 0)) by reflexivity.
  reflexivity.
Qed.

(** C9. For a list of layers with pairwise distinct ids and two distinct
    indices within the list, [reorderLayers] gives the dragged layer the
    order of the target layer and the target layer the order of the
    dragged layer; every other field of these two layers and every other
    layer are unchanged, and the orders of the result are a permutation
    of the orders of the list. *)
Theorem C9_reorder_swaps_orders {num : Type} (layers : list (Layer num))
    (dragIndex hoverIndex : nat) :
  NoDup (id <$> layers) ->
  (dragIndex < length layers)%nat ->
  (hoverIndex < length layers)%nat ->
  dragIndex <> hoverIndex ->
  exists draggedLayer targetLayer,
    js_sort (fun a b => order b - order a) layers !! dragIndex = Some draggedLayer
    /\ js_sort (fun a b => order b - order a) layers !! hoverIndex = Some targetLayer
    /\ draggedLayer ∈ layers /\ targetLayer ∈ layers
    /\ draggedLayer <> targetLayer
    /\ length (reorderLayers layers dragIndex hoverIndex) = length layers
    /\ (forall i layer, layers !! i = Some layer ->
        exists layer',
          reorderLayers layers dragIndex hoverIndex !! i = Some layer'
          /\ same_but_order layer layer'
          /\ (layer = draggedLayer -> order layer' = order targetLayer)
          /\ (layer = targetLayer -> order layer' = order draggedLayer)
          /\ (layer <> draggedLayer -> layer <> targetLayer -> layer' = layer))
    /\ order <$> reorderLayers layers dragIndex hoverIndex ≡ₚ order <$> layers.
Proof.
  intros Hnd Hdrag Hhover Hne.
  set (sorted := js_sort (fun a b => order b - order a) layers).
  assert (Hperm : sorted ≡ₚ layers) by apply js_sort_perm.
  assert (Hlen : length sorted = length layers) by apply js_sort_length.
  destruct (lookup_lt_is_Some_2 sorted dragIndex ltac:(lia)) as [d Hd].
  destruct (lookup_lt_is_Some_2 sorted hoverIndex ltac:(lia)) as [t Ht].
  assert (Hdin : d ∈ layers)
    by (rewrite <- Hperm; by eapply list_elem_of_lookup_2).
  assert (Htin : t ∈ layers)
    by (rewrite <- Hperm; by eapply list_elem_of_lookup_2).
  assert (Hdt : d <> t).
  { intros ->. apply Hne.
    apply (NoDup_lookup sorted dragIndex hoverIndex t); [|done|done].
    rewrite Hperm. by apply NoDup_fmap_1 in Hnd. }
  assert (Hids : id d <> id t).
  { intros E. apply Hdt. by apply (id_inj_on layers). }
  exists d, t.
  rewrite (reorderLayers_unfold layers dragIndex hoverIndex d t Hd Ht).
  split; [done|]. split; [done|]. split; [done|]. split; [done|].
  split; [done|]. split; [apply length_map|]. split.
  - intros i layer Hi. exists (swap_orders d t layer).
    split; [by rewrite list_lookup_fmap, Hi|].
    split; [apply swap_orders_same|].
    assert (Hin : layer ∈ layers) by (by eapply list_elem_of_lookup_2).
    split; [|split].
    + intros ->. by rewrite swap_orders_dragged.
    + intros ->. rewrite swap_orders_target; [done|congruence].
    + intros Hnd' Hnt'. apply swap_orders_other.
      * intros E. apply Hnd'. by apply (id_inj_on layers).
      * intros E. apply Hnt'. by apply (id_inj_on layers).
  - by apply swap_orders_perm.
Qed.

Lemma default_layers_ids : NoDup (id <$> @createDefaultLayers Qc _).
Proof. apply (bool_decide_unpack _). by vm_compute. Qed.

Lemma C9_witness :
  NoDup (id <$> @createDefaultLayers Qc _)
  /\ (0 < length (@createDefaultLayers Qc _))%nat
  /\ (1 < length (@createDefaultLayers Qc _))%nat
  /\ 0%nat <> 1%nat
  /\ order <$> reorderLayers (@createDefaultLayers Qc _) 0 1
     ≡ₚ order <$> @createDefaultLayers Qc _.
Proof.
  split; [exact default_layers_ids|].
  split; [simpl; lia|]. split; [simpl; lia|]. split; [discriminate|].
  destruct (C9_reorder_swaps_orders (@createDefaultLayers Qc _) 0 1)
    as (d & t & _ & _ & _ & _ & _ & _ & _ & Hperm).
  - exact default_layers_ids.
  - simpl. lia.
  - simpl. lia.
  - discriminate.
  - exact Hperm.
Defined.

(** * The size map of the server reader *)

Lemma toSizeMap_snoc (images : list IcoImage) (img : IcoImage) :
  toSizeMap (images ++ [img])
  = <[max_dimension img := buffer img]> (toSizeMap images).
Proof. unfold toSizeMap. by rewrite foldl_app. Qed.

(** X1. The size map holds, under each key, the payload of the last image
    whose larger dimension is the key, and nothing under a key that is the
    larger dimension of no image. *)
Theorem X1_toSizeMap_last_wins (images : list IcoImage) (size : Z) :
  toSizeMap images !! size
  = buffer <$> last (filter (fun img => max_dimension img = size) images).
Proof.
  induction images as [|img images IH] using rev_ind; [done|].
  rewrite toSizeMap_snoc, filter_app.
  destruct (decide (max_dimension img = size)) as [<-|Hne].
  - rewrite lookup_insert_eq.
    rewrite (filter_cons_True _ img []) by done.
    rewrite filter_nil. by rewrite last_snoc.
  - rewrite lookup_insert_ne by done.
    rewrite (filter_cons_False _ img []) by done.
    rewrite filter_nil, app_nil_r. exact IH.
Qed.

Lemma toSizeMap_entries (es : list (Z * list byte)) :
  Forall (fun e => 0 <= e.1) es ->
  toSizeMap (map (fun e => mkIcoImage e.1 e.1 e.2 (detect_format e.2)) es)
  = list_to_map (reverse es).
Proof.
  induction es as [|[s d] es IH] using rev_ind; intros Hpos; [done|].
  apply Forall_app in Hpos as [Hpos Hs].
  rewrite map_app. cbn [map]. rewrite toSizeMap_snoc.
  rewrite reverse_snoc. cbn [list_to_map foldr]. rewrite <- IH by done.
  unfold max_dimension. cbn. by rewrite Z.max_id.
Qed.

(** X2. A size map that the client writer packs and the server reader
    parses comes back unchanged from [toSizeMap]. *)
Theorem X2_toSizeMap_roundtrip (imageBuffers : gmap Z (list byte)) :
  imageBuffers <> ∅ ->
  (size imageBuffers <= 255)%nat ->
  (forall s data, imageBuffers !! s = Some data -> 1 <= s <= 256) ->
  Z.of_nat (ico_total_size (sorted_entries imageBuffers)) < 2 ^ 32 ->
  exists out images,
    ClientIconGenerator.createIcoFromPngs imageBuffers = Ok out
    /\ IcoParser.parse out = Ok images
    /\ toSizeMap images = imageBuffers.
Proof.
  intros Hne Hcount Hsizes Htot.
  set (es := sorted_entries imageBuffers) in *.
  assert (Hlen : length es = size imageBuffers) by apply sorted_entries_length.
  assert (Hpos : (0 < size imageBuffers)%nat).
  { destruct (decide (size imageBuffers = 0)%nat) as [Hz|]; [|lia].
    apply map_size_empty_iff in Hz. done. }
  assert (Hfit : Forall (fun e => 1 <= e.1 <= 256) es)
    by (by apply sizes_fit_sorted_entries).
  exists (ico_layout es), (map (fun e => mkIcoImage e.1 e.1 e.2 (detect_format e.2)) es).
  split; [apply createIcoFromPngs_layout|].
  split; [apply parse_layout; [done|lia|done]|].
  rewrite toSizeMap_entries
    by (eapply Forall_impl; [exact Hfit|]; cbn; intros; lia).
  assert (Hnd : NoDup (reverse es).*1).
  { rewrite fmap_reverse, reverse_Permutation. unfold es.
    rewrite sorted_entries_fst, sorted_sizes_perm.
    apply NoDup_fst_map_to_list. }
  apply map_eq. intros s. apply option_eq. intros d.
  rewrite <- (elem_of_list_to_map _ _ _ Hnd).
  rewrite elem_of_reverse. apply sorted_entries_lookup.
Qed.

Lemma X2_witness :
  two_sizes <> ∅
  /\ (size two_sizes <= 255)%nat
  /\ (forall s data, two_sizes !! s = Some data -> 1 <= s <= 256)
  /\ Z.of_nat (ico_total_size (sorted_entries two_sizes)) < 2 ^ 32
  /\ exists out images,
       ClientIconGenerator.createIcoFromPngs two_sizes = Ok out
       /\ IcoParser.parse out = Ok images
       /\ toSizeMap images = two_sizes.
Proof.
  assert (Hne : two_sizes <> ∅).
  { intros He. assert (Hl : two_sizes !! 16 = None) by (by rewrite He).
    by vm_compute in Hl. }
  assert (Hc : (size two_sizes <= 255)%nat).
  { assert (size two_sizes = 2%nat) as -> by (by vm_compute). lia. }
  split; [exact Hne|]. split; [exact Hc|].
  split; [exact two_sizes_fit|]. split; [exact two_sizes_total|].
  exact (X2_toSizeMap_roundtrip two_sizes Hne Hc two_sizes_fit two_sizes_total).
Defined.

(** * The folder assets *)

(** X3. For every requested size, [getFolderAsset] returns the asset of
    an available size that is as close to the request as any other, the
    smaller one of two that are equally close; the result is never
    [undefined], and a canonical size gets its own asset. *)
Theorem X3_getFolderAsset_closest (type : FolderAssets.FolderKind) (size : Z) :
  exists closestSize url,
    FolderAssets.getFolderAsset type size = Ok (Some url)
    /\ FolderAssets.folderAssets type !! closestSize = Some url
    /\ closestSize ∈ ICON_SIZES
    /\ (forall a, a ∈ ICON_SIZES ->
          Z.abs (closestSize - size) <= Z.abs (a - size)
          /\ (Z.abs (a - size) = Z.abs (closestSize - size) -> closestSize <= a))
    /\ (size ∈ ICON_SIZES -> closestSize = size).
Proof.
  unfold FolderAssets.getFolderAsset, reduce. cbn [foldl bind].
  assert (Hall : forall (P : Z -> Prop),
    P 16 -> P 20 -> P 24 -> P 32 -> P 40 -> P 64 -> P 256 ->
    forall a, a ∈ ICON_SIZES -> P a).
  { intros P ? ? ? ? ? ? ? a Ha. unfold ICON_SIZES in Ha.
    repeat (apply elem_of_cons in Ha as [->|Ha]; [done|]).
    by apply elem_of_nil in Ha. }
  repeat case_decide;
    match goal with
    | |- exists c url, Ok (FolderAssets.folderAssets _ !! ?k) = _ /\ _ =>
        exists k;
        destruct (FolderAssets.folderAssets type !! k) as [url|] eqn:Hurl;
          [|by destruct type; vm_compute in Hurl];
        exists url; split; [reflexivity|]; split; [reflexivity|];
        split; [unfold ICON_SIZES; set_solver|];
        split; [apply Hall; lia|];
        let Hs := fresh "Hs" in
        intros Hs; unfold ICON_SIZES in Hs;
        repeat (apply elem_of_cons in Hs as [->|Hs]; [lia|]);
        by apply elem_of_nil in Hs
    end.
Qed.

(** * The readers *)

(** X4. The client readers and the server reader return the same
    descriptors: the first client reader agrees with [IcoParser.parse] on
    every file, error included, and whatever the second client reader
    returns, [IcoParser.parse] returns for the bytes of the file. *)
Theorem X4_readers_agree (file : File) :
  ClientIcoProcessorV1.parseIcoFile file = IcoParser.parse (file_bytes file)
  /\ (forall images,
        ClientIcoProcessor.parseIcoFile file = Ok images ->
        IcoParser.parse (file_bytes file) = Ok images)
  /\ (ClientIcoProcessor.validateIcoFile file = true ->
        ClientIcoProcessor.parseIcoFile file = IcoParser.parse (file_bytes file)).
Proof.
  split; [apply client_parse_header_eq|].
  unfold ClientIcoProcessor.parseIcoFile.
  destruct (ClientIcoProcessor.validateIcoFile file); cbn [negb].
  - split; [intros images <-; symmetry|intros _]; apply client_parse_header_eq.
  - split; [intros images Hi; discriminate Hi|intros Hv; discriminate Hv].
Qed.

Lemma entry_image_ok (buf : list byte) (i : nat) :
  parsed_image_ok buf (entry_image buf i).
Proof.
  unfold parsed_image_ok, entry_image. cbn [width height buffer format].
  pose proof (le_at_range buf (6 + 16 * i) 1) as Hw.
  pose proof (le_at_range buf (6 + 16 * i + 1) 1) as Hh.
  change (256 ^ Z.of_nat 1) with 256 in Hw, Hh.
  unfold entry_width_byte, entry_height_byte.
  split; [case_decide; lia|]. split; [case_decide; lia|].
  split; [|reflexivity].
  unfold subarray. rewrite length_take, length_drop. lia.
Qed.

(** X5. A successful parse returns as many descriptors as the header
    counts, between 1 and 255 of them; every descriptor has a width and a
    height between 1 and 256 (a dimension byte 0 reads as 256, so no
    dimension is 0), a payload no longer than the file, and the format
    that the magic bytes of the payload give. *)
Theorem X5_parsed_images_ok (icoBuffer : list byte) (images : list IcoImage) :
  IcoParser.parse icoBuffer = Ok images ->
  Z.of_nat (length images) = header_count icoBuffer
  /\ (1 <= length images <= 255)%nat
  /\ Forall (parsed_image_ok icoBuffer) images.
Proof.
  intros Hp.
  destruct (ico_malformed_dec icoBuffer) as [Hm|Hwf].
  { apply parse_err_iff_malformed in Hm. rewrite Hp in Hm. destruct Hm. }
  rewrite (parse_ok_of_well_formed icoBuffer Hwf) in Hp.
  injection Hp as <-.
  unfold ico_malformed in Hwf.
  pose proof (le_at_range icoBuffer 4 2) as Hc. fold (header_count icoBuffer) in Hc.
  assert (Hc1 : header_count icoBuffer <> 0) by tauto.
  assert (Hc2 : ~ 255 < header_count icoBuffer) by tauto.
  rewrite length_map, length_seq.
  split; [lia|]. split; [lia|].
  apply Forall_forall. intros img Hi.
  apply list_elem_of_fmap in Hi as (i & -> & _). apply entry_image_ok.
Qed.

Lemma X5_witness :
  IcoParser.parse one_image_ico
  = Ok [mkIcoImage 16 16 png_signature png]
  /\ Z.of_nat 1 = header_count one_image_ico
  /\ Forall (parsed_image_ok one_image_ico) [mkIcoImage 16 16 png_signature png].
Proof.
  assert (Hp : IcoParser.parse one_image_ico
               = Ok [mkIcoImage 16 16 png_signature png]) by (by vm_compute).
  split; [exact Hp|].
  destruct (X5_parsed_images_ok one_image_ico _ Hp) as (Hc & _ & Hall).
  split; [exact Hc|exact Hall].
Defined.

(** * The writers outside their preconditions *)

Lemma le_value_4_mod (v : Z) :
  le_value [byte_of_Z v; byte_of_Z (v `div` 256);
            byte_of_Z ((v `div` 256) `div` 256);
            byte_of_Z (((v `div` 256) `div` 256) `div` 256)] = v mod 2 ^ 32.
Proof. apply (le_value_le_bytes 4 v). Qed.

Lemma dimension_byte_mod (s : Z) :
  byte_val (byte_of_Z (if decide (s = 256) then 0 else s)) + 256 * 0
  = s mod 256.
Proof.
  rewrite byte_val_of_Z. case_decide as Hs; [by rewrite Hs|lia].
Qed.

(** X6. The client writer never throws: for every size map it returns a
    buffer of 6 + 16 * count + total payload length bytes, and a value
    that does not fit a field of the directory is stored modulo the width
    of the field (a size modulo 256, a length or an offset modulo 2^32). *)
Theorem X6_client_writer_total (imageBuffers : gmap Z (list byte)) :
  let es := sorted_entries imageBuffers in
  exists out,
    ClientIconGenerator.createIcoFromPngs imageBuffers = Ok out
    /\ length out
       = (6 + 16 * size imageBuffers + length (concat es.*2))%nat
    /\ forall i s data, es !! i = Some (s, data) ->
         entry_width_byte out i = s mod 256
         /\ entry_height_byte out i = s mod 256
         /\ entry_imageSize out i = Z.of_nat (length data) mod 2 ^ 32
         /\ entry_imageOffset out i
            = Z.of_nat (payload_offset es i) mod 2 ^ 32.
Proof.
  intros es. exists (ico_layout es).
  split; [apply createIcoFromPngs_layout|].
  split.
  { rewrite length_ico_layout. unfold ico_total_size, ico_payloads.
    unfold es at 1. by rewrite sorted_entries_length. }
  intros i s d Hi.
  destruct (drop_entry_ico_layout es i s d Hi) as [rest Hdrop].
  unfold entry_width_byte, entry_height_byte, entry_imageSize, entry_imageOffset.
  rewrite <- (Nat.add_0_r (6 + 16 * i)) at 1.
  rewrite !(le_at_drop (ico_layout es) (6 + 16 * i) _ _ _ Hdrop).
  unfold ico_dir_entry. cbn [le_bytes app drop take]. rewrite ?take_0.
  refine (conj _ (conj _ (conj _ _))).
  - cbn [le_value]. apply dimension_byte_mod.
  - cbn [le_value]. apply dimension_byte_mod.
  - apply le_value_4_mod.
  - apply le_value_4_mod.
Qed.

Lemma overwrite_RangeError (buf bs : list byte) (e : IcoError) :
  overwrite buf bs = Err e -> e = RangeError.
Proof.
  revert buf. induction bs as [|b bs IH]; intros buf; cbn [overwrite].
  - discriminate.
  - destruct buf as [|c buf]; [by intros [= <-]|].
    destruct (overwrite buf bs) eqn:E; cbn [bind]; [discriminate|].
    intros [= <-]. by eapply IH.
Qed.

Lemma write_at_RangeError (buf : list byte) (off : nat) (bs : list byte)
    (e : IcoError) :
  write_at buf off bs = Err e -> e = RangeError.
Proof.
  revert buf. induction off as [|off IH]; intros buf; cbn [write_at].
  - apply overwrite_RangeError.
  - destruct buf as [|c buf]; [by intros [= <-]|].
    destruct (write_at buf off bs) eqn:E; cbn [bind]; [discriminate|].
    intros [= <-]. by eapply IH.
Qed.

Lemma writeUInt8_RangeError buf v off e :
  writeUInt8 buf v off = Err e -> e = RangeError.
Proof.
  unfold writeUInt8. case_decide; [apply write_at_RangeError|by intros [= <-]].
Qed.

Lemma writeUInt16LE_RangeError buf v off e :
  writeUInt16LE buf v off = Err e -> e = RangeError.
Proof.
  unfold writeUInt16LE. case_decide; [apply write_at_RangeError|by intros [= <-]].
Qed.

Lemma writeUInt32LE_RangeError buf v off e :
  writeUInt32LE buf v off = Err e -> e = RangeError.
Proof.
  unfold writeUInt32LE. case_decide; [apply write_at_RangeError|by intros [= <-]].
Qed.

(** A step of a sequence of writes: its error is a [RangeError]. *)
Ltac range_step :=
  let E := fresh "E" in
  match goal with
  | |- bind (writeUInt8 ?b ?v ?o) _ = Err _ -> _ =>
      destruct (writeUInt8 b v o) eqn:E; cbn [bind];
      [|intros [= <-]; exact (writeUInt8_RangeError _ _ _ _ E)]
  | |- bind (writeUInt16LE ?b ?v ?o) _ = Err _ -> _ =>
      destruct (writeUInt16LE b v o) eqn:E; cbn [bind];
      [|intros [= <-]; exact (writeUInt16LE_RangeError _ _ _ _ E)]
  | |- bind (writeUInt32LE ?b ?v ?o) _ = Err _ -> _ =>
      destruct (writeUInt32LE b v o) eqn:E; cbn [bind];
      [|intros [= <-]; exact (writeUInt32LE_RangeError _ _ _ _ E)]
  end.

Lemma dirEntry_RangeError (s : Z) (d : list byte) (off : nat) (e : IcoError) :
  IconProcessor.dirEntry s d off = Err e -> e = RangeError.
Proof.
  unfold IconProcessor.dirEntry. do 8 range_step. discriminate.
Qed.

Lemma push_entries_RangeError (es : list (Z * list byte)) (off : nat)
    (dir imgs : list (list byte)) (e : IcoError) :
  IconProcessor.push_entries es off dir imgs = Err e -> e = RangeError.
Proof.
  revert off dir imgs. induction es as [|[s d] es IH]; intros off dir imgs;
    cbn [IconProcessor.push_entries]; [discriminate|].
  destruct (IconProcessor.dirEntry s d off) eqn:E; cbn [bind].
  - apply IH.
  - intros [= <-]. by eapply dirEntry_RangeError.
Qed.

Lemma createICOFromPNGs_RangeError (es : list (Z * list byte)) (e : IcoError) :
  IconProcessor.createICOFromPNGs es = Err e -> e = RangeError.
Proof.
  unfold IconProcessor.createICOFromPNGs. do 3 range_step.
  destruct (IconProcessor.push_entries _ _ _ _) as [[dir imgs]|e'] eqn:Ep;
    cbn [bind]; [discriminate|].
  intros [= <-]. eapply push_entries_RangeError. exact Ep.
Qed.

Lemma dirEntry_out_of_range (s : Z) (d : list byte) (off : nat) :
  ~ (0 <= s <= 256) -> IconProcessor.dirEntry s d off = Err RangeError.
Proof.
  intros Hs. unfold IconProcessor.dirEntry, writeUInt8.
  rewrite (decide_False (P := s = 256)) by lia.
  by rewrite decide_False by lia.
Qed.

Lemma push_entries_out_of_range (es : list (Z * list byte)) (off : nat)
    (dir imgs : list (list byte)) :
  Exists size_out_of_range es ->
  IconProcessor.push_entries es off dir imgs = Err RangeError.
Proof.
  intros Hex. revert off dir imgs.
  induction Hex as [[s d] es Hbad|[s d] es Hex IH]; intros off dir imgs;
    cbn [IconProcessor.push_entries].
  - by rewrite dirEntry_out_of_range.
  - destruct (IconProcessor.dirEntry s d off) as [entry|e] eqn:E; cbn [bind].
    + apply IH.
    + f_equal. by eapply dirEntry_RangeError.
Qed.

(** X7. The server writer throws a [RangeError] as soon as one entry has
    a size outside 0..256 (where the client writer stores the size modulo
    256), and a [RangeError] is the only error that it throws. *)
Theorem X7_server_writer_range (pngFiles : list (Z * list byte)) :
  (Exists size_out_of_range pngFiles ->
   IconProcessor.createICOFromPNGs pngFiles = Err RangeError)
  /\ (forall e,
        IconProcessor.createICOFromPNGs pngFiles = Err e -> e = RangeError).
Proof.
  split; [intros Hex|intros e; apply createICOFromPNGs_RangeError].
  unfold IconProcessor.createICOFromPNGs.
  repeat match goal with
  | |- bind (writeUInt16LE ?b ?v ?o) _ = _ =>
      let E := fresh "E" in
      destruct (writeUInt16LE b v o) eqn:E; cbn [bind];
      [|f_equal; exact (writeUInt16LE_RangeError _ _ _ _ E)]
  end.
  by rewrite push_entries_out_of_range.
Qed.

Lemma X7_witness :
  Exists size_out_of_range [(16, png_signature); (300, png_signature)]
  /\ IconProcessor.createICOFromPNGs [(16, png_signature); (300, png_signature)]
     = Err RangeError.
Proof.
  assert (Hex : Exists size_out_of_range
                  [(16, png_signature); (300, png_signature)]).
  { apply Exists_cons_tl, Exists_cons_hd. unfold size_out_of_range. cbn. lia. }
  split; [exact Hex|].
  exact (proj1 (X7_server_writer_range _) Hex).
Defined.

(** * The export of the layers as an ICO file *)

Lemma foldl_insert_lookup {V} (f : Z -> V) (l : list Z) (acc : gmap Z V) (k : Z) :
  foldl (fun m s => <[s := f s]> m) acc l !! k
  = if decide (k ∈ l) then Some (f k) else acc !! k.
Proof.
  revert acc. induction l as [|s l IH]; intros acc; cbn [foldl].
  - rewrite decide_False; [done|]. apply not_elem_of_nil.
  - rewrite IH. destruct (decide (k ∈ l)) as [Hl|Hl].
    + rewrite decide_True; [done|]. by apply elem_of_cons; right.
    + destruct (decide (k = s)) as [->|Hne].
      * rewrite lookup_insert_eq. rewrite decide_True; [done|].
        by apply elem_of_cons; left.
      * rewrite lookup_insert_ne by done. rewrite decide_False; [done|].
        intros [?|?]%elem_of_cons; done.
Qed.

(** The map of the canonical sizes to the values of [f]. *)
Lemma sorted_entries_canonical (f : Z -> list byte) :
  sorted_entries (foldl (fun m s => <[s := f s]> m) ∅ ICON_SIZES)
  = map (fun s => (s, f s)) ICON_SIZES.
Proof.
  set (m := foldl _ _ _).
  assert (Hl : forall s, m !! s = if decide (s ∈ ICON_SIZES) then Some (f s) else None).
  { intros s. unfold m. rewrite foldl_insert_lookup. by rewrite lookup_empty. }
  unfold sorted_entries. rewrite sorted_sizes_canonical.
  - unfold entries_of. apply map_ext_in. intros s Hs.
    rewrite Hl, decide_True; [done|]. by apply list_elem_of_In.
  - intros s. rewrite Hl. case_decide; [by split; eauto|].
    split; [intros [? ?]; done|done].
Qed.

Section ExportProps.
Context {num : Type} `{JsNumber num} {Image : Type}.
Context (loadImage : string -> option Image).
Context (canvasToBlob : Z -> list (CanvasOp num Image) -> result (list byte)).
Implicit Types (layers : list (Layer num)) (png : Z -> list byte).

Let canvas layers (size : Z) : result (list byte) :=
  canvasToBlob size
    (ClientIconGenerator.renderLayersToCanvas loadImage layers size).

Lemma generate_sizes_ok layers png (sizes : list Z) (acc : gmap Z (list byte)) :
  (forall size, size ∈ sizes -> canvas layers size = Ok (png size)) ->
  ClientIconExport.generate_sizes loadImage canvasToBlob layers sizes acc
  = Ok (foldl (fun m s => <[s := png s]> m) acc sizes).
Proof.
  revert acc. induction sizes as [|s sizes IH]; intros acc Hok; [done|].
  cbn [ClientIconExport.generate_sizes foldl].
  fold (canvas layers s). rewrite (Hok s) by (by apply elem_of_cons; left).
  cbn [bind]. apply IH. intros size Hs. apply Hok. by apply elem_of_cons; right.
Qed.

Lemma generate_sizes_err layers (sizes : list Z) (acc : gmap Z (list byte)) :
  Exists (fun size => is_Err (canvas layers size)) sizes ->
  is_Err (ClientIconExport.generate_sizes loadImage canvasToBlob layers sizes acc).
Proof.
  intros Hex. revert acc.
  induction Hex as [s sizes Hbad|s sizes Hex IH]; intros acc;
    cbn [ClientIconExport.generate_sizes]; fold (canvas layers s).
  - destruct (canvas layers s); [destruct Hbad|exact I].
  - destruct (canvas layers s); cbn [bind]; [apply IH|exact I].
Qed.

Lemma generateIcoFromLayers_layout layers png :
  (forall size, size ∈ ICON_SIZES -> canvas layers size = Ok (png size)) ->
  ClientIconExport.generateIcoFromLayers loadImage canvasToBlob layers
  = Ok (ico_layout (map (fun size => (size, png size)) ICON_SIZES)).
Proof.
  intros Hok. unfold ClientIconExport.generateIcoFromLayers.
  rewrite (generate_sizes_ok layers png) by exact Hok. cbn [bind].
  rewrite createIcoFromPngs_layout. by rewrite sorted_entries_canonical.
Qed.

(** X8. When the browser encodes the canvas of each of the seven
    canonical sizes, the exported file is the 6-byte header, the seven
    directory entries in ascending order of size and the seven PNG
    streams, whatever the layers are. *)
Theorem X8_export_layout layers png :
  (forall size, size ∈ ICON_SIZES ->
     canvasToBlob size
       (ClientIconGenerator.renderLayersToCanvas loadImage layers size)
     = Ok (png size)) ->
  ClientIconExport.generateIcoFromLayers loadImage canvasToBlob layers
  = Ok (ico_layout (map (fun size => (size, png size)) ICON_SIZES)).
Proof. apply generateIcoFromLayers_layout. Qed.

(** X9. When the encoding of the canvas of one canonical size fails,
    the export fails as a whole: no file of fewer sizes is produced. *)
Theorem X9_export_all_or_nothing layers (size : Z) :
  size ∈ ICON_SIZES ->
  is_Err (canvasToBlob size
            (ClientIconGenerator.renderLayersToCanvas loadImage layers size)) ->
  is_Err (ClientIconExport.generateIcoFromLayers loadImage canvasToBlob layers).
Proof.
  intros Hs Hbad. unfold ClientIconExport.generateIcoFromLayers.
  assert (He : is_Err (ClientIconExport.generate_sizes loadImage canvasToBlob
                         layers ICON_SIZES ∅)).
  { apply generate_sizes_err. apply Exists_exists. by exists size. }
  destruct (ClientIconExport.generate_sizes _ _ _ _ _); [destruct He|exact I].
Qed.

(** X10. An exported file reads back: parsing it gives seven
    descriptors, one per canonical size, square, with the PNG stream of
    the size as payload, and both selections return for each canonical
    target the descriptor of exactly that size. *)
Theorem X10_export_reimport layers png :
  (forall size, size ∈ ICON_SIZES ->
     canvasToBlob size
       (ClientIconGenerator.renderLayersToCanvas loadImage layers size)
     = Ok (png size)) ->
  Z.of_nat (ico_total_size (map (fun size => (size, png size)) ICON_SIZES))
    < 2 ^ 32 ->
  let image size :=
    mkIcoImage size size (png size) (detect_format (png size)) in
  exists out,
    ClientIconExport.generateIcoFromLayers loadImage canvasToBlob layers = Ok out
    /\ IcoParser.parse out = Ok (map image ICON_SIZES)
    /\ forall targetSize, targetSize ∈ ICON_SIZES ->
         client_getBestMatch (map image ICON_SIZES) targetSize
         = Ok (Some (image targetSize))
         /\ IcoParser.getBestMatch (map image ICON_SIZES) targetSize
            = Ok (Some (image targetSize)).
Proof.
  intros Hok Htot image.
  exists (ico_layout (map (fun size => (size, png size)) ICON_SIZES)).
  split; [by apply generateIcoFromLayers_layout|].
  split.
  { rewrite parse_layout; [by rewrite map_map| |by vm_compute|done].
    apply Forall_forall. intros e [s [-> Hs]]%list_elem_of_fmap. cbn.
    unfold ICON_SIZES in Hs.
    repeat (apply elem_of_cons in Hs as [->|Hs]; [lia|]).
    by apply elem_of_nil in Hs. }
  intros t Ht. unfold ICON_SIZES in Ht.
  repeat (apply elem_of_cons in Ht as [->|Ht]; [by split|]).
  by apply elem_of_nil in Ht.
Qed.
End ExportProps.

Lemma X8_witness :
  (forall size, size ∈ ICON_SIZES ->
     png_canvas size
       (ClientIconGenerator.renderLayersToCanvas no_image
          createDefaultLayers size)
     = Ok png_signature)
  /\ ClientIconExport.generateIcoFromLayers no_image png_canvas
       createDefaultLayers
     = Ok (ico_layout (map (fun size => (size, png_signature)) ICON_SIZES)).
Proof.
  assert (Hok : forall size, size ∈ ICON_SIZES ->
     png_canvas size
       (ClientIconGenerator.renderLayersToCanvas no_image
          createDefaultLayers size)
     = Ok png_signature) by reflexivity.
  split; [exact Hok|].
  exact (X8_export_layout no_image png_canvas createDefaultLayers
           (fun _ => png_signature) Hok).
Defined.

Lemma X9_witness :
  256 ∈ ICON_SIZES
  /\ is_Err (failing_256_canvas 256
               (ClientIconGenerator.renderLayersToCanvas no_image
                  createDefaultLayers 256))
  /\ is_Err (ClientIconExport.generateIcoFromLayers no_image failing_256_canvas
               createDefaultLayers).
Proof.
  assert (Hin : 256 ∈ ICON_SIZES) by (apply (bool_decide_unpack _); by vm_compute).
  assert (Hbad : is_Err (failing_256_canvas 256
               (ClientIconGenerator.renderLayersToCanvas no_image
                  createDefaultLayers 256))) by exact I.
  split; [exact Hin|]. split; [exact Hbad|].
  exact (X9_export_all_or_nothing no_image failing_256_canvas
           createDefaultLayers 256 Hin Hbad).
Defined.

Lemma X10_witness :
  (forall size, size ∈ ICON_SIZES ->
     png_canvas size
       (ClientIconGenerator.renderLayersToCanvas no_image
          createDefaultLayers size)
     = Ok png_signature)
  /\ Z.of_nat (ico_total_size
                 (map (fun size => (size, png_signature)) ICON_SIZES)) < 2 ^ 32
  /\ exists out,
       ClientIconExport.generateIcoFromLayers no_image png_canvas
         createDefaultLayers = Ok out
       /\ IcoParser.parse out
          = Ok (map (fun size => mkIcoImage size size png_signature png)
                  ICON_SIZES).
Proof.
  assert (Hok : forall size, size ∈ ICON_SIZES ->
     png_canvas size
       (ClientIconGenerator.renderLayersToCanvas no_image
          createDefaultLayers size)
     = Ok png_signature) by reflexivity.
  assert (Htot : Z.of_nat (ico_total_size
                 (map (fun size => (size, png_signature)) ICON_SIZES)) < 2 ^ 32)
    by (by vm_compute).
  split; [exact Hok|]. split; [exact Htot|].
  destruct (X10_export_reimport no_image png_canvas createDefaultLayers
              (fun _ => png_signature) Hok Htot) as (out & Hout & Hparse & _).
  exists out. split; [exact Hout|exact Hparse].
Defined.

(** * Ties in the selection *)

Section FirstSelect.
Context {A : Type} (key : A -> Z).

Lemma foldl_first_least (x : A) (l : list A) :
  first_least key (x :: l)
    (foldl (fun best current =>
              if decide (key current < key best) then current else best) x l).
Proof.
  induction l as [|y l IH] using rev_ind.
  - exists 0%nat. split; [done|]. split; [intros; lia|].
    intros z Hz%list_elem_of_singleton. subst z. cbn. lia.
  - rewrite foldl_app. cbn [foldl].
    set (r := foldl _ x l) in *. destruct IH as (k & Hk & Hbefore & Hall).
    case_decide as Hy.
    + exists (length (x :: l)). split.
      { rewrite app_comm_cons. by rewrite list_lookup_middle. }
      split.
      * intros j z Hj Hz. rewrite app_comm_cons in Hz.
        rewrite lookup_app_l in Hz by done.
        apply list_elem_of_lookup_2, Hall in Hz. lia.
      * intros z Hz. rewrite app_comm_cons in Hz.
        apply elem_of_app in Hz as [Hz|Hz%list_elem_of_singleton]; [|subst z; lia].
        apply Hall in Hz. lia.
    + exists k. split.
      { rewrite app_comm_cons. rewrite lookup_app_l; [done|].
        by eapply lookup_lt_Some. }
      split.
      * intros j z Hj Hz. apply (Hbefore j z Hj).
        rewrite app_comm_cons in Hz. rewrite lookup_app_l in Hz; [done|].
        apply lookup_lt_Some in Hk. lia.
      * intros z Hz. rewrite app_comm_cons in Hz.
        apply elem_of_app in Hz as [Hz|Hz%list_elem_of_singleton]; [|subst z; lia].
        by apply Hall.
Qed.

Lemma foldl_first_greatest (x : A) (l : list A) :
  first_greatest key (x :: l)
    (foldl (fun best current =>
              if decide (key best < key current) then current else best) x l).
Proof.
  induction l as [|y l IH] using rev_ind.
  - exists 0%nat. split; [done|]. split; [intros; lia|].
    intros z Hz%list_elem_of_singleton. subst z. cbn. lia.
  - rewrite foldl_app. cbn [foldl].
    set (r := foldl _ x l) in *. destruct IH as (k & Hk & Hbefore & Hall).
    case_decide as Hy.
    + exists (length (x :: l)). split.
      { rewrite app_comm_cons. by rewrite list_lookup_middle. }
      split.
      * intros j z Hj Hz. rewrite app_comm_cons in Hz.
        rewrite lookup_app_l in Hz by done.
        apply list_elem_of_lookup_2, Hall in Hz. lia.
      * intros z Hz. rewrite app_comm_cons in Hz.
        apply elem_of_app in Hz as [Hz|Hz%list_elem_of_singleton]; [|subst z; lia].
        apply Hall in Hz. lia.
    + exists k. split.
      { rewrite app_comm_cons. rewrite lookup_app_l; [done|].
        by eapply lookup_lt_Some. }
      split.
      * intros j z Hj Hz. apply (Hbefore j z Hj).
        rewrite app_comm_cons in Hz. rewrite lookup_app_l in Hz; [done|].
        apply lookup_lt_Some in Hk. lia.
      * intros z Hz. rewrite app_comm_cons in Hz.
        apply elem_of_app in Hz as [Hz|Hz%list_elem_of_singleton]; [|subst z; lia].
        by apply Hall.
Qed.
End FirstSelect.

Lemma find_first {A} (p : A -> bool) (l : list A) (r : A) :
  find p l = Some r ->
  exists k, l !! k = Some r /\ p r = true
    /\ forall j x, (j < k)%nat -> l !! j = Some x -> p x = false.
Proof.
  induction l as [|y l IH]; [discriminate|]. cbn [find].
  destruct (p y) eqn:Hy.
  - intros [= ->]. exists 0%nat. split; [done|]. split; [done|]. intros; lia.
  - intros Hf. destruct (IH Hf) as (k & Hk & Hr & Hbefore).
    exists (S k). split; [done|]. split; [done|].
    intros [|j] z Hj Hz; [by injection Hz as <-|].
    apply (Hbefore j z); [lia|done].
Qed.

(** X11. Among equally good candidates the client selection returns the
    first in directory order: the first exact match; failing that, the
    first of the large-enough images of least area; failing that, the
    first of the images of greatest area. *)
Theorem X11_client_best_match_first (images : list IcoImage) (targetSize : Z) :
  images <> [] ->
  exists r,
    client_getBestMatch images targetSize = Ok (Some r)
    /\ ((exists i, i ∈ images /\ exact_match targetSize i) ->
        exists k, images !! k = Some r /\ exact_match targetSize r
          /\ forall j x, (j < k)%nat -> images !! j = Some x ->
               ~ exact_match targetSize x)
    /\ (~ (exists i, i ∈ images /\ exact_match targetSize i) ->
        larger_images images targetSize <> [] ->
        first_least area (larger_images images targetSize) r)
    /\ (~ (exists i, i ∈ images /\ exact_match targetSize i) ->
        larger_images images targetSize = [] ->
        first_greatest area images r).
Proof.
  intros Hne. unfold client_getBestMatch.
  rewrite decide_False by (by rewrite length_zero_iff_nil').
  destruct (find _ images) as [e|] eqn:Hfind.
  - exists e. split; [done|].
    pose proof (find_exact_Some images targetSize e Hfind) as [He Hex].
    split; [|split; intros Hno; exfalso; apply Hno; eauto].
    intros _. apply find_first in Hfind as (k & Hk & _ & Hbefore).
    exists k. split; [done|]. split; [done|].
    intros j x Hj Hx Hxe. specialize (Hbefore j x Hj Hx).
    by rewrite bool_decide_eq_false in Hbefore.
  - pose proof (find_exact_None images targetSize Hfind) as Hno.
    fold (larger_images images targetSize).
    destruct (larger_images images targetSize) as [|x l] eqn:Hl.
    + rewrite decide_False by (cbn; lia).
      destruct images as [|y images]; [done|]. cbn [reduce bind].
      eexists. split; [reflexivity|].
      split; [intros; done|]. split; [intros _ Hc; done|].
      intros _ _. apply (foldl_first_greatest area).
    + rewrite decide_True by (cbn; lia). cbn [reduce bind].
      eexists. split; [reflexivity|].
      split; [intros; done|]. split; [|intros _ Hc; done].
      intros _ _. apply (foldl_first_least area).
Qed.

Lemma X11_witness :
  [large_square; small_square; large_square] <> []
  /\ exists r,
       client_getBestMatch [large_square; small_square; large_square] 20
       = Ok (Some r)
       /\ first_least area
            (larger_images [large_square; small_square; large_square] 20) r.
Proof.
  assert (Hne : [large_square; small_square; large_square] <> []) by done.
  split; [exact Hne|].
  destruct (X11_client_best_match_first
              [large_square; small_square; large_square] 20 Hne)
    as (r & Hr & _ & Hleast & _).
  exists r. split; [exact Hr|]. apply Hleast.
  - intros (i & Hi & Hw & Hh). unfold large_square, small_square in Hi.
    repeat (apply elem_of_cons in Hi as [->|Hi]; [cbn in Hw; lia|]).
    by apply elem_of_nil in Hi.
  - by vm_compute.
Defined.

(** * The server pipeline from uploaded images to an ICO file *)

Lemma js_sort_ascending_id (l : list Z) :
  StronglySorted Z.lt l -> js_sort (fun a b => a - b) l = l.
Proof.
  induction 1 as [|x l Hs IH Hall]; [done|].
  cbn [js_sort foldr]. fold (js_sort (fun a b => a - b) l). rewrite IH.
  destruct l as [|y l]; [done|]. cbn [js_insert].
  apply Forall_cons in Hall as [Hxy _]. by rewrite decide_True by lia.
Qed.

Lemma StronglySorted_lt_filter (P : Z -> Prop) `{forall x, Decision (P x)}
    (l : list Z) :
  StronglySorted Z.lt l -> StronglySorted Z.lt (filter P l).
Proof.
  induction 1 as [|x l Hs IH Hall]; [constructor|].
  rewrite filter_cons. case_decide; [|done].
  constructor; [done|].
  apply Forall_forall. intros y Hy%list_elem_of_filter.
  rewrite Forall_forall in Hall. apply Hall. tauto.
Qed.

Lemma ICON_SIZES_ascending : StronglySorted Z.lt ICON_SIZES.
Proof.
  unfold ICON_SIZES. repeat (constructor; [|repeat constructor; lia]).
  constructor.
Qed.

Lemma ICON_SIZES_range (s : Z) : s ∈ ICON_SIZES -> 16 <= s <= 256.
Proof.
  unfold ICON_SIZES. intros Hs.
  repeat (apply elem_of_cons in Hs as [->|Hs]; [lia|]).
  by apply elem_of_nil in Hs.
Qed.

Lemma sorted_lt_eq (l1 l2 : list Z) :
  StronglySorted Z.lt l1 -> StronglySorted Z.lt l2 ->
  (forall x, x ∈ l1 <-> x ∈ l2) -> l1 = l2.
Proof.
  intros H1 H2 Hiff.
  apply (StronglySorted_unique_strong Z.lt); [intros; lia|done|done|].
  assert (Hnd : forall l, StronglySorted Z.lt l -> NoDup l).
  { induction 1 as [|x l Hs IH Hall]; constructor; [|done].
    intros Hx. rewrite Forall_forall in Hall. specialize (Hall x Hx). lia. }
  apply NoDup_Permutation; auto.
Qed.

(** The canonical keys of a map, in the two orders that the code and the
    statement use. *)
Lemma canonical_keys (m : gmap Z (list byte)) :
  filter (fun s => s ∈ ICON_SIZES) (ClientIconGenerator.sorted_sizes m)
  = filter (fun s => is_Some (m !! s)) ICON_SIZES.
Proof.
  apply sorted_lt_eq.
  - apply StronglySorted_lt_filter, sorted_sizes_ascending.
  - apply StronglySorted_lt_filter, ICON_SIZES_ascending.
  - intros x. rewrite !list_elem_of_filter, sorted_sizes_elem_of. tauto.
Qed.

Lemma omap_filter {A B} (P : A -> Prop) `{forall x, Decision (P x)}
    (f : A -> option B) (l : list A) :
  (forall x, x ∈ l -> ~ P x -> f x = None) ->
  omap f (filter P l) = omap f l.
Proof.
  induction l as [|x l IH]; intros Hf; [done|].
  rewrite filter_cons. cbn [omap list_omap].
  assert (IH' : omap f (filter P l) = omap f l).
  { apply IH. intros y Hy. apply Hf. by apply elem_of_cons; right. }
  case_decide as Hx.
  - cbn [omap list_omap]. fold (omap f (filter P l)). fold (omap f l).
    by rewrite IH'.
  - rewrite (Hf x) by (done || by apply elem_of_cons; left).
    fold (omap f l). exact IH'.
Qed.

Lemma omap_cons {A B} (f : A -> option B) (x : A) (l : list A) :
  omap f (x :: l)
  = match f x with Some y => y :: omap f l | None => omap f l end.
Proof. reflexivity. Qed.

Section ProcessProps.
Context (sharp_resize_png : list byte -> Z -> option (list byte)).
Implicit Types (m : gmap Z (list byte)) (es : list (Z * list byte)).

Local Abbreviation png_of := (IconProcessing.png_of sharp_resize_png).
Local Abbreviation entry_fails := (IconProcessing.entry_fails sharp_resize_png).

Lemma png_of_cons (s : Z) (b : list byte) es :
  omap png_of ((s, b) :: es)
  = match png_of (s, b) with
    | Some y => y :: omap png_of es
    | None => omap png_of es
    end.
Proof. reflexivity. Qed.

Lemma png_of_Some (s : Z) (b d : list byte) :
  s ∈ ICON_SIZES -> sharp_resize_png b s = Some d -> png_of (s, b) = Some (s, d).
Proof.
  intros Hs Hd. unfold IconProcessing.png_of. cbn [fst snd].
  by rewrite decide_True, Hd.
Qed.

Lemma png_of_skip (s : Z) (b : list byte) :
  s ∉ ICON_SIZES -> png_of (s, b) = None.
Proof.
  intros Hs. unfold IconProcessing.png_of. cbn [fst snd].
  by rewrite decide_False.
Qed.

Lemma process_entries_ok es (tempDir : gmap Z (list byte)) (pngFiles : list Z) :
  ~ Exists entry_fails es ->
  IconProcessing.process_entries sharp_resize_png es tempDir pngFiles
  = Some (foldl (fun td e => <[e.1 := e.2]> td) tempDir (omap png_of es),
          pngFiles ++ (omap png_of es).*1).
Proof.
  revert tempDir pngFiles.
  induction es as [|[s b] es IH]; intros tempDir pngFiles Hok.
  - cbn. by rewrite app_nil_r.
  - cbn [IconProcessing.process_entries]. rewrite png_of_cons.
    assert (Hes : ~ Exists entry_fails es).
    { intros Hex. apply Hok. by apply Exists_cons_tl. }
    case_decide as Hs; [|rewrite png_of_skip by done; by apply IH].
    destruct (sharp_resize_png b s) as [pngData|] eqn:Hsharp.
    + rewrite (png_of_Some s b pngData) by done.
      rewrite IH by done. cbn [foldl fmap list_fmap fst snd].
      by rewrite <- app_assoc.
    + exfalso. apply Hok. apply Exists_cons_hd. by split.
Qed.

Lemma process_entries_fail es (tempDir : gmap Z (list byte)) (pngFiles : list Z) :
  Exists entry_fails es ->
  IconProcessing.process_entries sharp_resize_png es tempDir pngFiles = None.
Proof.
  intros Hex. revert tempDir pngFiles.
  induction Hex as [[s b] es [Hs Hf]|[s b] es Hex IH]; intros tempDir pngFiles;
    cbn [IconProcessing.process_entries]; cbn [fst snd] in *.
  - by rewrite decide_True, Hf by done.
  - case_decide; [|apply IH]. destruct (sharp_resize_png b s); [apply IH|done].
Qed.

Lemma process_entries_skip es (tempDir : gmap Z (list byte)) (pngFiles : list Z) :
  IconProcessing.process_entries sharp_resize_png es tempDir pngFiles
  = IconProcessing.process_entries sharp_resize_png
      (filter (fun e => e.1 ∈ ICON_SIZES) es) tempDir pngFiles.
Proof.
  revert tempDir pngFiles.
  induction es as [|[s b] es IH]; intros tempDir pngFiles; [done|].
  rewrite filter_cons. cbn [fst].
  cbn [IconProcessing.process_entries]. case_decide as Hs; [|apply IH].
  cbn [IconProcessing.process_entries]. rewrite decide_True by done.
  destruct (sharp_resize_png b s); [apply IH|done].
Qed.

Lemma read_files_written (files : list (Z * list byte))
    (tempDir : gmap Z (list byte)) :
  (forall e, e ∈ files -> tempDir !! e.1 = Some e.2) ->
  IconProcessing.read_files tempDir files.*1 = Some files.
Proof.
  induction files as [|[s d] files IH]; intros Hw; [done|].
  rewrite fmap_cons. cbn [fst IconProcessing.read_files].
  pose proof (Hw (s, d) ltac:(by apply elem_of_cons; left)) as Hs.
  cbn [fst snd] in Hs. rewrite Hs.
  rewrite IH; [done|]. intros e He. apply Hw. by apply elem_of_cons; right.
Qed.

Lemma foldl_insert_entries_lookup (files : list (Z * list byte))
    (tempDir : gmap Z (list byte)) (e : Z * list byte) :
  NoDup files.*1 -> e ∈ files ->
  foldl (fun td e => <[e.1 := e.2]> td) tempDir files !! e.1 = Some e.2.
Proof.
  revert tempDir. induction files as [|[s d] files IH] using rev_ind;
    intros tempDir Hnd He; [by apply elem_of_nil in He|].
  rewrite foldl_app. cbn [foldl fst snd].
  rewrite fmap_app in Hnd. apply NoDup_app in Hnd as (Hnd & Hdisj & _).
  apply elem_of_app in He as [He|He%list_elem_of_singleton].
  - rewrite lookup_insert_ne; [by apply IH|].
    intros ->. apply (Hdisj e.1).
    + apply list_elem_of_fmap. by exists e.
    + cbn. by apply list_elem_of_singleton.
  - subst e. cbn. by rewrite lookup_insert_eq.
Qed.

(** The entries that the loop writes, for a map: the canonical entries. *)
Lemma omap_png_of_entries m (l : list Z) :
  (forall s, s ∈ l -> is_Some (m !! s)) ->
  omap png_of (entries_of m l)
  = omap (fun size =>
      match m !! size with
      | Some buffer =>
          match sharp_resize_png buffer size with
          | Some pngData => Some (size, pngData)
          | None => None
          end
      | None => None
      end) (filter (fun s => s ∈ ICON_SIZES) l).
Proof.
  induction l as [|s l IH]; intros Hl; [done|].
  assert (IH' := IH (fun s Hs => Hl s (proj2 (elem_of_cons _ _ _) (or_intror Hs)))).
  destruct (Hl s) as [b Hb]; [by apply elem_of_cons; left|].
  rewrite filter_cons. unfold entries_of in *. cbn [map].
  rewrite png_of_cons. rewrite Hb. change (default [] (Some b)) with b.
  case_decide as Hs.
  - cbn [omap list_omap]. rewrite Hb.
    destruct (sharp_resize_png b s) as [d|] eqn:Hd.
    + rewrite (png_of_Some s b d) by done. f_equal. exact IH'.
    + unfold IconProcessing.png_of at 1. cbn [fst snd].
      rewrite decide_True, Hd by done. exact IH'.
  - rewrite png_of_skip by done. exact IH'.
Qed.

Lemma omap_png_of_sorted_entries m :
  omap png_of (sorted_entries m)
  = IconProcessing.canonical_entries sharp_resize_png m.
Proof.
  unfold sorted_entries. rewrite omap_png_of_entries
    by (intros s Hs; by apply sorted_sizes_elem_of).
  rewrite canonical_keys. unfold IconProcessing.canonical_entries.
  apply omap_filter. intros s _ Hn.
  destruct (m !! s); [|done]. exfalso. apply Hn. by eexists.
Qed.
Lemma canonical_entries_elem_of m (s : Z) (d : list byte) :
  (s, d) ∈ IconProcessing.canonical_entries sharp_resize_png m
  <-> s ∈ ICON_SIZES
      /\ exists b, m !! s = Some b /\ sharp_resize_png b s = Some d.
Proof.
  unfold IconProcessing.canonical_entries. rewrite list_elem_of_omap. split.
  - intros (k & Hk & Hf). destruct (m !! k) as [b|] eqn:Hb; [|done].
    destruct (sharp_resize_png b k) as [d'|] eqn:Hd; [|done].
    injection Hf as <- <-. eauto.
  - intros (Hs & b & Hb & Hd). exists s. split; [done|]. by rewrite Hb, Hd.
Qed.

Lemma canonical_entries_fst m :
  (IconProcessing.canonical_entries sharp_resize_png m).*1
  = filter (fun s => is_Some (m !! s ≫= fun b => sharp_resize_png b s))
      ICON_SIZES.
Proof.
  unfold IconProcessing.canonical_entries.
  induction ICON_SIZES as [|s l IH]; [done|].
  rewrite filter_cons, omap_cons.
  destruct (m !! s) as [b|] eqn:Hb; cbn [mbind option_bind].
  - destruct (sharp_resize_png b s) as [d|] eqn:Hd.
    + rewrite decide_True by eauto. rewrite fmap_cons. by rewrite <- IH.
    + rewrite decide_False; [exact IH|]. by intros [? ?].
  - rewrite decide_False; [exact IH|]. by intros [? ?].
Qed.

Lemma canonical_entries_ascending m :
  StronglySorted Z.lt (IconProcessing.canonical_entries sharp_resize_png m).*1.
Proof.
  rewrite canonical_entries_fst.
  apply StronglySorted_lt_filter, ICON_SIZES_ascending.
Qed.

Lemma canonical_entries_NoDup m :
  NoDup (IconProcessing.canonical_entries sharp_resize_png m).*1.
Proof.
  rewrite canonical_entries_fst. apply NoDup_filter.
  apply (bool_decide_unpack _). by vm_compute.
Qed.

Lemma canonical_entries_length m :
  (length (IconProcessing.canonical_entries sharp_resize_png m) <= 7)%nat.
Proof.
  rewrite <- (length_fmap fst), canonical_entries_fst.
  etrans; [apply length_filter|]. done.
Qed.

Lemma canonical_entries_range m :
  Forall (fun e => 1 <= e.1 <= 256)
    (IconProcessing.canonical_entries sharp_resize_png m).
Proof.
  apply Forall_forall. intros [s d] [Hs _]%canonical_entries_elem_of.
  apply ICON_SIZES_range in Hs. cbn. lia.
Qed.

Lemma processIcons_ok m :
  ~ Exists entry_fails (sorted_entries m) ->
  Z.of_nat (ico_total_size
              (IconProcessing.canonical_entries sharp_resize_png m)) < 2 ^ 32 ->
  IconProcessing.processIcons sharp_resize_png m
  = Some (ico_layout (IconProcessing.canonical_entries sharp_resize_png m)).
Proof.
  intros Hok Htot. unfold IconProcessing.processIcons.
  rewrite process_entries_ok by done. rewrite omap_png_of_sorted_entries.
  set (es := IconProcessing.canonical_entries sharp_resize_png m) in *.
  rewrite app_nil_l.
  rewrite js_sort_ascending_id by apply canonical_entries_ascending.
  rewrite read_files_written.
  2:{ intros e He. apply foldl_insert_entries_lookup; [|done].
      apply canonical_entries_NoDup. }
  rewrite createICOFromPNGs_layout; [done| | |done].
  - eapply Forall_impl; [apply canonical_entries_range|]. cbn. intros; lia.
  - pose proof (canonical_entries_length m). fold es in H. lia.
Qed.

Lemma no_entry_fails m :
  (forall s b, s ∈ ICON_SIZES -> m !! s = Some b ->
     is_Some (sharp_resize_png b s)) ->
  ~ Exists entry_fails (sorted_entries m).
Proof.
  intros Hok ([s b] & He & Hs & Hf)%Exists_exists. cbn [fst snd] in *.
  apply sorted_entries_lookup in He.
  destruct (Hok s b Hs He) as [d Hd]. congruence.
Qed.

Lemma processIcons_fail m (s : Z) (b : list byte) :
  s ∈ ICON_SIZES -> m !! s = Some b -> sharp_resize_png b s = None ->
  IconProcessing.processIcons sharp_resize_png m = None.
Proof.
  intros Hs Hb Hf. unfold IconProcessing.processIcons.
  rewrite process_entries_fail; [done|].
  apply Exists_exists. exists (s, b). split; [|by split].
  by apply sorted_entries_lookup.
Qed.

Lemma sorted_entries_filter m :
  sorted_entries (filter (fun kv => kv.1 ∈ ICON_SIZES) m)
  = filter (fun e => e.1 ∈ ICON_SIZES) (sorted_entries m).
Proof.
  set (m' := filter _ m).
  assert (Hl : forall s, s ∈ ICON_SIZES -> m' !! s = m !! s).
  { intros s Hs. apply option_eq. intros d. unfold m'.
    rewrite map_lookup_filter_Some. cbn. tauto. }
  assert (Hkeys : ClientIconGenerator.sorted_sizes m'
                  = filter (fun s => s ∈ ICON_SIZES)
                      (ClientIconGenerator.sorted_sizes m)).
  { apply sorted_lt_eq.
    - apply sorted_sizes_ascending.
    - apply StronglySorted_lt_filter, sorted_sizes_ascending.
    - intros s. rewrite list_elem_of_filter, !sorted_sizes_elem_of.
      unfold m'. split.
      + intros [d Hd]. apply map_lookup_filter_Some in Hd as [Hd Hs]. eauto.
      + intros [Hs [d Hd]]. exists d. by apply map_lookup_filter_Some. }
  unfold sorted_entries. rewrite Hkeys. unfold entries_of. clear Hkeys.
  induction (ClientIconGenerator.sorted_sizes m) as [|s l IH]; [done|].
  cbn [map]. rewrite !filter_cons. cbn [fst].
  case_decide as Hs; [|exact IH].
  cbn [map]. rewrite (Hl s Hs). f_equal. exact IH.
Qed.

Lemma processIcons_filter m :
  IconProcessing.processIcons sharp_resize_png m
  = IconProcessing.processIcons sharp_resize_png
      (filter (fun kv => kv.1 ∈ ICON_SIZES) m).
Proof.
  unfold IconProcessing.processIcons.
  rewrite sorted_entries_filter.
  by rewrite <- process_entries_skip.
Qed.
End ProcessProps.

(** X12. When sharp decodes the buffer of every canonical size of the
    map, [processIcons] returns the header, the directory and the streams
    of exactly the canonical sizes of the map, in ascending order,
    each with the stream that sharp wrote for it; when there is at least
    one, [IcoParser.parse] reads the file back as one square descriptor
    per canonical size. *)
Theorem X12_processIcons_layout
    (sharp_resize_png : list byte -> Z -> option (list byte))
    (imageBuffers : gmap Z (list byte)) :
  (forall s b, s ∈ ICON_SIZES -> imageBuffers !! s = Some b ->
     is_Some (sharp_resize_png b s)) ->
  let es := IconProcessing.canonical_entries sharp_resize_png imageBuffers in
  Z.of_nat (ico_total_size es) < 2 ^ 32 ->
  IconProcessing.processIcons sharp_resize_png imageBuffers
  = Some (ico_layout es)
  /\ StronglySorted Z.lt es.*1
  /\ (forall s d, (s, d) ∈ es <->
        s ∈ ICON_SIZES
        /\ exists b, imageBuffers !! s = Some b
                     /\ sharp_resize_png b s = Some d)
  /\ (es <> [] ->
      IcoParser.parse (ico_layout es)
      = Ok (map (fun e => mkIcoImage e.1 e.1 e.2 (detect_format e.2)) es)).
Proof.
  intros Hok es Htot.
  split; [apply processIcons_ok; [by apply no_entry_fails|done]|].
  split; [apply canonical_entries_ascending|].
  split; [apply canonical_entries_elem_of|].
  intros Hne. apply parse_layout; [apply canonical_entries_range| |done].
  pose proof (canonical_entries_length sharp_resize_png imageBuffers) as Hl.
  fold es in Hl. destruct es; [done|]. cbn [length] in *. lia.
Qed.

Lemma mixed_sizes_decoded :
  forall s b, s ∈ ICON_SIZES -> mixed_sizes !! s = Some b ->
    is_Some (sharp_identity b s).
Proof. intros s b _ _. by eexists. Qed.

Lemma X12_witness :
  (forall s b, s ∈ ICON_SIZES -> mixed_sizes !! s = Some b ->
     is_Some (sharp_identity b s))
  /\ Z.of_nat (ico_total_size
                 (IconProcessing.canonical_entries sharp_identity mixed_sizes))
     < 2 ^ 32
  /\ IconProcessing.processIcons sharp_identity mixed_sizes
     = Some (ico_layout [(32, png_signature)]).
Proof.
  assert (Htot : Z.of_nat (ico_total_size
                 (IconProcessing.canonical_entries sharp_identity mixed_sizes))
                 < 2 ^ 32) by (by vm_compute).
  split; [exact mixed_sizes_decoded|]. split; [exact Htot|].
  exact (proj1 (X12_processIcons_layout sharp_identity mixed_sizes
                  mixed_sizes_decoded Htot)).
Defined.

(** X13. [processIcons] ignores the keys that are not canonical sizes:
    it returns for a map what it returns for the map restricted to the
    canonical sizes, failure included. *)
Theorem X13_processIcons_ignores_other_sizes
    (sharp_resize_png : list byte -> Z -> option (list byte))
    (imageBuffers : gmap Z (list byte)) :
  IconProcessing.processIcons sharp_resize_png imageBuffers
  = IconProcessing.processIcons sharp_resize_png
      (filter (fun kv => kv.1 ∈ ICON_SIZES) imageBuffers).
Proof. apply processIcons_filter. Qed.

(** X14. When sharp cannot decode the buffer of one canonical size,
    [processIcons] fails as a whole: it returns no file of the other
    sizes. *)
Theorem X14_processIcons_all_or_nothing
    (sharp_resize_png : list byte -> Z -> option (list byte))
    (imageBuffers : gmap Z (list byte)) (s : Z) (b : list byte) :
  s ∈ ICON_SIZES -> imageBuffers !! s = Some b ->
  sharp_resize_png b s = None ->
  IconProcessing.processIcons sharp_resize_png imageBuffers = None.
Proof. apply processIcons_fail. Qed.

Lemma X14_witness :
  32 ∈ ICON_SIZES
  /\ mixed_sizes !! 32 = Some png_signature
  /\ sharp_failing png_signature 32 = None
  /\ IconProcessing.processIcons sharp_failing mixed_sizes = None.
Proof.
  assert (Hin : 32 ∈ ICON_SIZES) by (apply (bool_decide_unpack _); by vm_compute).
  assert (Hl : mixed_sizes !! 32 = Some png_signature) by (by vm_compute).
  split; [exact Hin|]. split; [exact Hl|]. split; [reflexivity|].
  exact (X14_processIcons_all_or_nothing sharp_failing mixed_sizes 32
           png_signature Hin Hl eq_refl).
Defined.

(** X15. For a map without any canonical size, [processIcons] returns
    the six bytes of a header that counts no image, a file that
    [IcoParser.parse] rejects for its image count. *)
Theorem X15_processIcons_no_canonical_size
    (sharp_resize_png : list byte -> Z -> option (list byte))
    (imageBuffers : gmap Z (list byte)) :
  (forall s, s ∈ ICON_SIZES -> imageBuffers !! s = None) ->
  IconProcessing.processIcons sharp_resize_png imageBuffers
  = Some [x00; x00; x01; x00; x00; x00]
  /\ IcoParser.parse [x00; x00; x01; x00; x00; x00] = Err InvalidImageCount.
Proof.
  intros Hno. split; [|by vm_compute].
  assert (Hes : IconProcessing.canonical_entries sharp_resize_png imageBuffers
                = []).
  { unfold IconProcessing.canonical_entries.
    induction ICON_SIZES as [|s l IH]; [done|].
    rewrite omap_cons, (Hno s) by (by apply elem_of_cons; left).
    apply IH. intros s' Hs'. apply Hno. by apply elem_of_cons; right. }
  rewrite processIcons_ok.
  - by rewrite Hes.
  - apply no_entry_fails. intros s b Hs Hb. rewrite (Hno s Hs) in Hb. done.
  - rewrite Hes. by vm_compute.
Qed.

Lemma X15_witness :
  (forall s, s ∈ ICON_SIZES -> ({[ 48 := png_signature ]} : gmap Z (list byte)) !! s = None)
  /\ IconProcessing.processIcons sharp_identity {[ 48 := png_signature ]}
     = Some [x00; x00; x01; x00; x00; x00].
Proof.
  assert (Hno : forall s, s ∈ ICON_SIZES ->
            ({[ 48 := png_signature ]} : gmap Z (list byte)) !! s = None).
  { intros s Hs. apply lookup_singleton_ne. intros <-.
    unfold ICON_SIZES in Hs.
    repeat (apply elem_of_cons in Hs as [Hs|Hs]; [discriminate Hs|]).
    by apply elem_of_nil in Hs. }
  split; [exact Hno|].
  exact (proj1 (X15_processIcons_no_canonical_size sharp_identity _ Hno)).
Defined.

(** * From the parsed images to data URLs *)

Lemma not_in_ICON_SIZES_lookup {V} (f : Z -> V) (t : Z) :
  t ∉ ICON_SIZES ->
  foldl (fun m s => <[s := f s]> m) (∅ : gmap Z V) ICON_SIZES !! t = None.
Proof.
  intros Ht. rewrite foldl_insert_lookup, decide_False by done.
  apply lookup_empty.
Qed.

Lemma in_ICON_SIZES_lookup {V} (f : Z -> V) (t : Z) :
  t ∈ ICON_SIZES ->
  foldl (fun m s => <[s := f s]> m) (∅ : gmap Z V) ICON_SIZES !! t = Some (f t).
Proof. intros Ht. by rewrite foldl_insert_lookup, decide_True. Qed.

Section BrowserProps.
Context {Image : Type}.
Context (blobToDataURL : string -> list byte -> option string).
Context (createObjectURL : string -> list byte -> string).
Context (loadImage : string -> option Image).
Context (resizeImage : Image -> Z -> string).
Context (putImageData_toDataURL : Z -> Z -> list byte -> string).
Context (createFallbackImage : Z -> string).
Implicit Types (images : list IcoImage) (r : IcoImage).

Local Abbreviation convertToPNG' :=
  (convertToPNG blobToDataURL loadImage resizeImage putImageData_toDataURL).
Local Abbreviation sizeImages_v2' :=
  (sizeImages_v2 blobToDataURL loadImage resizeImage putImageData_toDataURL
     createFallbackImage).
Local Abbreviation sizeImages_v1' :=
  (sizeImages_v1 blobToDataURL createObjectURL loadImage resizeImage).
Local Abbreviation entry_v2' :=
  (entry_v2 blobToDataURL loadImage resizeImage putImageData_toDataURL
     createFallbackImage).
Local Abbreviation convert_v1' :=
  (convert_v1 blobToDataURL createObjectURL loadImage resizeImage).

Lemma the_best_eq images (t : Z) :
  images <> [] -> client_getBestMatch images t = Ok (Some (the_best images t)).
Proof.
  intros Hne. destruct (client_getBestMatch_spec images t Hne) as (r & Hr & _).
  unfold the_best. by rewrite Hr.
Qed.

Lemma sizeImages_v2_fold images (targetSizes : list Z) (acc : gmap Z string) :
  images <> [] ->
  sizeImages_v2' images targetSizes acc
  = Ok (foldl (fun m t => <[t := entry_v2' images t]> m) acc targetSizes).
Proof.
  intros Hne. revert acc.
  induction targetSizes as [|t l IH]; intros acc; [done|].
  cbn [sizeImages_v2 foldl].
  unfold ClientIcoProcessor.getBestMatch. rewrite the_best_eq by done.
  cbn [bind]. unfold entry_v2.
  destruct (convertToPNG' _ _ _ _); cbn [default]; apply IH.
Qed.

Lemma sizeImages_v1_lookup images (targetSizes : list Z)
    (acc : gmap Z string) (t : Z) :
  images <> [] -> NoDup targetSizes ->
  exists sizeImages,
    sizeImages_v1' images targetSizes acc = Ok sizeImages
    /\ sizeImages !! t
       = if decide (t ∈ targetSizes)
         then match convert_v1' (the_best images t) t with
              | Some url => Some url
              | None => acc !! t
              end
         else acc !! t.
Proof.
  intros Hne Hnd. revert acc.
  induction Hnd as [|s l Hs Hnd IH]; intros acc.
  { exists acc. split; [done|]. rewrite decide_False; [done|].
    apply not_elem_of_nil. }
  cbn [sizeImages_v1].
  unfold ClientIcoProcessorV1.getBestMatch. rewrite the_best_eq by done.
  cbn [bind]. change (match format (the_best images s) with | png => _ | bmp => _ end) with (convert_v1' (the_best images s) s).
  destruct (convert_v1' (the_best images s) s) as [url|] eqn:Hc.
  - destruct (IH (<[s := url]> acc)) as (m & Hm & Hl).
    exists m. split; [done|]. rewrite Hl.
    destruct (decide (t = s)) as [->|Hts].
    + rewrite decide_False by done. rewrite (decide_True (P := s ∈ s :: l))
        by (by apply elem_of_cons; left).
      by rewrite Hc, lookup_insert_eq.
    + rewrite lookup_insert_ne by done.
      destruct (decide (t ∈ l)) as [Hl'|Hl'].
      * rewrite decide_True; [done|]. by apply elem_of_cons; right.
      * rewrite decide_False; [done|]. intros [?|?]%elem_of_cons; done.
  - destruct (IH acc) as (m & Hm & Hl).
    exists m. split; [done|]. rewrite Hl.
    destruct (decide (t = s)) as [->|Hts].
    + rewrite decide_False by done. rewrite (decide_True (P := s ∈ s :: l))
        by (by apply elem_of_cons; left).
      by rewrite Hc.
    + destruct (decide (t ∈ l)) as [Hl'|Hl'].
      * rewrite decide_True; [done|]. by apply elem_of_cons; right.
      * rewrite decide_False; [done|]. intros [?|?]%elem_of_cons; done.
Qed.

(** A raw bitmap in the second version. *)
Lemma convertToPNG_bmp (data : list byte) (w h t : Z) :
  detect_format data = bmp -> 1 <= w -> 1 <= h ->
  convertToPNG' data w h t
  = if decide (length data < 40 + Z.to_nat w * Z.to_nat h * 4)%nat then None
    else match loadImage (putImageData_toDataURL w h
                            (rgba_image data (Z.to_nat w) (Z.to_nat h))) with
         | Some img => Some (resizeImage img t)
         | None => None
         end.
Proof.
  intros Hf Hw Hh. unfold convertToPNG.
  rewrite bool_decide_eq_false_2 by (rewrite Hf; done).
  unfold convertBmpToPng. rewrite decide_False by lia.
  case_decide as Hl.
  - by rewrite parseBmpToRgba_err by lia.
  - by rewrite parseBmpToRgba_ok by lia.
Qed.
End BrowserProps.

(** X16. Whenever the second client reader parses a file, the whole
    [parseIcoFile] returns a record with an entry for each of the seven
    canonical sizes and for nothing else: the entry of a size is the
    conversion of its best match, or the fallback image when the
    conversion fails. A file that the reader rejects is rejected with the
    same error. *)
Theorem X16_parseIcoFile_v2_all_sizes {Image : Type}
    (blobToDataURL : string -> list byte -> option string)
    (loadImage : string -> option Image) (resizeImage : Image -> Z -> string)
    (putImageData_toDataURL : Z -> Z -> list byte -> string)
    (createFallbackImage : Z -> string) (file : File) :
  let whole := parseIcoFile_v2 blobToDataURL loadImage resizeImage
                 putImageData_toDataURL createFallbackImage file in
  match ClientIcoProcessor.parseIcoFile file with
  | Err e => whole = Err e
  | Ok images =>
      exists sizeImages,
        whole = Ok sizeImages
        /\ (forall t, is_Some (sizeImages !! t) <-> t ∈ ICON_SIZES)
        /\ forall t, t ∈ ICON_SIZES ->
             exists r, client_getBestMatch images t = Ok (Some r)
               /\ sizeImages !! t
                  = Some (default (createFallbackImage t)
                            (convertToPNG blobToDataURL loadImage resizeImage
                               putImageData_toDataURL
                               (buffer r) (width r) (height r) t))
  end.
Proof.
  intros whole. unfold whole, parseIcoFile_v2.
  destruct (ClientIcoProcessor.parseIcoFile file) as [images|e] eqn:Hp;
    [|done].
  cbn [bind].
  assert (Hne : images <> []).
  { eapply parse_ok_nonempty, client_parse_ok. right. exact Hp. }
  rewrite sizeImages_v2_fold by done. eexists. split; [reflexivity|].
  split.
  - intros t. rewrite foldl_insert_lookup. case_decide; [by split; eauto|].
    rewrite lookup_empty. split; [intros [? ?]; done|done].
  - intros t Ht. exists (the_best images t).
    split; [by apply the_best_eq|]. by rewrite in_ICON_SIZES_lookup.
Qed.

(** X17. In the second client reader, when the best match of a canonical
    size is a raw bitmap: if its payload is shorter than the 40-byte
    header and its width * height * 4 bytes of pixels, the entry of the
    size is the fallback image; otherwise the pixels that the browser
    receives are the rows of the bitmap from the last to the first, each
    pixel in the order R, G, B, A, and the entry is that picture resized,
    when the browser loads it. *)
Theorem X17_parseIcoFile_v2_bitmap {Image : Type}
    (blobToDataURL : string -> list byte -> option string)
    (loadImage : string -> option Image) (resizeImage : Image -> Z -> string)
    (putImageData_toDataURL : Z -> Z -> list byte -> string)
    (createFallbackImage : Z -> string) (file : File)
    (images : list IcoImage) (t : Z) (r : IcoImage) :
  ClientIcoProcessor.parseIcoFile file = Ok images ->
  t ∈ ICON_SIZES ->
  client_getBestMatch images t = Ok (Some r) ->
  format r = bmp ->
  let w := Z.to_nat (width r) in
  let h := Z.to_nat (height r) in
  exists sizeImages,
    parseIcoFile_v2 blobToDataURL loadImage resizeImage
      putImageData_toDataURL createFallbackImage file = Ok sizeImages
    /\ ((length (buffer r) < 40 + w * h * 4)%nat ->
        sizeImages !! t = Some (createFallbackImage t))
    /\ ((40 + w * h * 4 <= length (buffer r))%nat ->
        sizeImages !! t
        = Some (match loadImage (putImageData_toDataURL (width r) (height r)
                                   (rgba_image (buffer r) w h)) with
                | Some img => resizeImage img t
                | None => createFallbackImage t
                end)).
Proof.
  intros Hp Ht Hr Hf w h. unfold parseIcoFile_v2. rewrite Hp. cbn [bind].
  pose proof (client_parse_ok file images (or_intror Hp)) as Hparse.
  assert (Hne : images <> []) by (by eapply parse_ok_nonempty).
  rewrite sizeImages_v2_fold by done. eexists. split; [reflexivity|].
  rewrite in_ICON_SIZES_lookup by done. unfold entry_v2, the_best. rewrite Hr.
  assert (Hin : r ∈ images).
  { destruct (client_getBestMatch_spec images t Hne) as (r' & Hr' & Hin & _).
    congruence. }
  pose proof Hparse as Hok.
  destruct (ico_malformed_dec (file_bytes file)) as [Hm|Hwf].
  { apply parse_err_iff_malformed in Hm. rewrite Hparse in Hm. destruct Hm. }
  rewrite (parse_ok_of_well_formed _ Hwf) in Hok. injection Hok as Himages.
  rewrite <- Himages in Hin. apply list_elem_of_fmap in Hin as (i & -> & _).
  destruct (entry_image_ok (file_bytes file) i) as (Hw & Hh & _ & Hfmt).
  rewrite Hf in Hfmt. symmetry in Hfmt.
  rewrite (convertToPNG_bmp _ _ _ _ _ _ _ _ Hfmt) by lia.
  fold w h. split; intros Hl.
  - by rewrite decide_True by lia.
  - rewrite decide_False by lia. by destruct (loadImage _).
Qed.

Lemma one_bmp_parsed :
  ClientIcoProcessor.parseIcoFile one_bmp_file
  = Ok [mkIcoImage 1 1 one_pixel_bmp bmp].
Proof. by vm_compute. Qed.

Lemma one_bmp_best :
  client_getBestMatch [mkIcoImage 1 1 one_pixel_bmp bmp] 16
  = Ok (Some (mkIcoImage 1 1 one_pixel_bmp bmp)).
Proof. by vm_compute. Qed.

Lemma X17_witness :
  ClientIcoProcessor.parseIcoFile one_bmp_file
  = Ok [mkIcoImage 1 1 one_pixel_bmp bmp]
  /\ 16 ∈ ICON_SIZES
  /\ client_getBestMatch [mkIcoImage 1 1 one_pixel_bmp bmp] 16
     = Ok (Some (mkIcoImage 1 1 one_pixel_bmp bmp))
  /\ exists sizeImages,
       parseIcoFile_v2 blob_url decode_unit resized_url canvas_url fallback_url
         one_bmp_file = Ok sizeImages
       /\ sizeImages !! 16 = Some (resized_url tt 16).
Proof.
  assert (Hin : 16 ∈ ICON_SIZES) by (apply (bool_decide_unpack _); by vm_compute).
  split; [exact one_bmp_parsed|]. split; [exact Hin|].
  split; [exact one_bmp_best|].
  destruct (X17_parseIcoFile_v2_bitmap blob_url decode_unit resized_url
              canvas_url fallback_url one_bmp_file _ 16 _
              one_bmp_parsed Hin one_bmp_best eq_refl)
    as (sizeImages & Hs & _ & Hlong).
  exists sizeImages. split; [exact Hs|].
  apply Hlong. cbn. lia.
Defined.

(** X18. Whenever the first client reader parses a file, the whole
    [parseIcoFile] succeeds, and its record holds under a canonical size
    the conversion of the best match of the size when the conversion
    succeeds, and nothing when it fails: there is no fallback image, and
    no key other than a canonical size. *)
Theorem X18_parseIcoFile_v1_entries {Image : Type}
    (blobToDataURL : string -> list byte -> option string)
    (createObjectURL : string -> list byte -> string)
    (loadImage : string -> option Image) (resizeImage : Image -> Z -> string)
    (file : File) (images : list IcoImage) :
  ClientIcoProcessorV1.parseIcoFile file = Ok images ->
  exists sizeImages,
    parseIcoFile_v1 blobToDataURL createObjectURL loadImage resizeImage file
    = Ok sizeImages
    /\ (forall t, t ∉ ICON_SIZES -> sizeImages !! t = None)
    /\ forall t, t ∈ ICON_SIZES ->
         exists r, client_getBestMatch images t = Ok (Some r)
           /\ sizeImages !! t
              = match format r with
                | png => blobToDataURL "image/png"%string (buffer r)
                | bmp =>
                    match loadImage (createObjectURL "image/bmp"%string
                                       (buffer r)) with
                    | Some img => Some (resizeImage img t)
                    | None => None
                    end
                end.
Proof.
  intros Hp. unfold parseIcoFile_v1. rewrite Hp. cbn [bind].
  assert (Hne : images <> []).
  { eapply parse_ok_nonempty, client_parse_ok. left. exact Hp. }
  assert (Hnd : NoDup ICON_SIZES) by (apply (bool_decide_unpack _); by vm_compute).
  destruct (sizeImages_v1_lookup blobToDataURL createObjectURL loadImage
              resizeImage images ICON_SIZES ∅ 0 Hne Hnd) as (m & Hm & _).
  exists m. split; [exact Hm|]. split.
  - intros t Ht.
    destruct (sizeImages_v1_lookup blobToDataURL createObjectURL loadImage
                resizeImage images ICON_SIZES ∅ t Hne Hnd) as (m' & Hm' & Hl).
    rewrite Hm in Hm'. injection Hm' as <-.
    rewrite Hl, decide_False by done. apply lookup_empty.
  - intros t Ht. exists (the_best images t). split; [by apply the_best_eq|].
    destruct (sizeImages_v1_lookup blobToDataURL createObjectURL loadImage
                resizeImage images ICON_SIZES ∅ t Hne Hnd) as (m' & Hm' & Hl).
    rewrite Hm in Hm'. injection Hm' as <-.
    rewrite Hl, decide_True by done. unfold convert_v1, convertBmpToPng_v1.
    rewrite lookup_empty.
    destruct (format (the_best images t)).
    + by destruct (blobToDataURL _ _).
    + by destruct (loadImage _).
Qed.

Lemma X18_witness :
  ClientIcoProcessorV1.parseIcoFile one_bmp_file
  = Ok [mkIcoImage 1 1 one_pixel_bmp bmp]
  /\ exists sizeImages,
       parseIcoFile_v1 blob_url object_url no_image resized_url one_bmp_file
       = Ok sizeImages
       /\ sizeImages !! 16 = None.
Proof.
  assert (Hp : ClientIcoProcessorV1.parseIcoFile one_bmp_file
               = Ok [mkIcoImage 1 1 one_pixel_bmp bmp]) by (by vm_compute).
  split; [exact Hp|].
  destruct (X18_parseIcoFile_v1_entries blob_url object_url no_image
              resized_url one_bmp_file _ Hp) as (sizeImages & Hs & _ & Hin).
  exists sizeImages. split; [exact Hs|].
  destruct (Hin 16) as (r & Hr & Hl).
  { apply (bool_decide_unpack _). by vm_compute. }
  rewrite one_bmp_best in Hr. injection Hr as <-. exact Hl.
Defined.

(** * The route that parses an uploaded ICO file *)

Lemma foldl_opt_insert_lookup {V} (g : Z -> option V) (l : list Z)
    (acc : gmap Z V) (k : Z) :
  foldl (fun m t => match g t with Some v => <[t := v]> m | None => m end)
    acc l !! k
  = if decide (k ∈ l)
    then match g k with Some v => Some v | None => acc !! k end
    else acc !! k.
Proof.
  revert acc. induction l as [|t l IH]; intros acc; cbn [foldl].
  - rewrite decide_False; [done|]. apply not_elem_of_nil.
  - rewrite IH. destruct (decide (k = t)) as [->|Hne].
    + rewrite (decide_True (P := t ∈ t :: l)) by (by apply elem_of_cons; left).
      destruct (g t) as [v|] eqn:Hg.
      * case_decide; [done|]. by rewrite lookup_insert_eq.
      * by case_decide.
    + assert (Hiff : k ∈ t :: l <-> k ∈ l).
      { rewrite elem_of_cons. tauto. }
      assert (Hl : (match g t with Some v => <[t := v]> acc | None => acc end)
                     !! k = acc !! k).
      { destruct (g t); [by rewrite lookup_insert_ne|done]. }
      rewrite Hl. destruct (decide (k ∈ l)) as [Hk|Hk].
      * rewrite decide_True by tauto. done.
      * rewrite decide_False by tauto. done.
Qed.

Section RouteProps.
Context (sharp_png : list byte -> option (list byte)).
Context (dataUrl_of : list byte -> string).
Implicit Types (images : list IcoImage).

Lemma server_best_eq images (t : Z) :
  images <> [] ->
  IcoParser.getBestMatch images t = Ok (Some (server_best images t)).
Proof.
  intros Hne. destruct (server_getBestMatch_elem images t Hne) as (r & Hr & _).
  unfold server_best. by rewrite Hr.
Qed.

Lemma route_images_fold images (targetSizes : list Z) (acc : gmap Z string) :
  images <> [] ->
  route_images sharp_png dataUrl_of images targetSizes acc
  = Ok (foldl (fun m t =>
          match route_entry sharp_png dataUrl_of images t with
          | Some v => <[t := v]> m
          | None => m
          end) acc targetSizes).
Proof.
  intros Hne. revert acc.
  induction targetSizes as [|t l IH]; intros acc; [done|].
  cbn [route_images foldl]. rewrite server_best_eq by done. cbn [bind].
  unfold route_entry at 2.
  destruct (format (server_best images t)).
  - apply IH.
  - destruct (sharp_png _); cbn [fmap option_fmap option_map]; apply IH.
Qed.
End RouteProps.

(** X19. The route and an upload in the field [ico]. multer refuses the
    upload, and the handler does not run, exactly when [fileFilter]
    rejects its type and name or it is larger than 10 MB, a well-formed
    container included. An upload that multer accepts is answered with
    the failure status exactly when its buffer is a malformed container,
    with the error of the parser as details, whatever sharp does; any
    other is answered with the count of the header, one available size
    per image, and a data URL under each canonical size whose best match
    is a PNG payload or a raw bitmap that sharp converts, and under no
    other key. *)
Theorem X19_parse_ico_route
    (sharp_png : list byte -> option (list byte))
    (dataUrl_of : list byte -> string) (file : UploadedFile) :
  let icoBuffer := file_buffer file in
  let accepted :=
    fileFilter file = true
    /\ Z.of_nat (length icoBuffer) <= 10 * 1024 * 1024 in
  match parse_ico_route sharp_png dataUrl_of (Some file) with
  | UploadRefused FileNotAllowed => fileFilter file = false
  | UploadRefused LimitFileSize =>
      fileFilter file = true
      /\ 10 * 1024 * 1024 < Z.of_nat (length icoBuffer)
  | NoFileProvided => False
  | ParseFailed e =>
      accepted
      /\ ico_malformed icoBuffer /\ IcoParser.parse icoBuffer = Err e
  | Parsed imageData originalCount availableSizes =>
      accepted
      /\ ~ ico_malformed icoBuffer
      /\ Z.of_nat originalCount = header_count icoBuffer
      /\ length availableSizes = originalCount
      /\ (forall t, t ∉ ICON_SIZES -> imageData !! t = None)
      /\ forall t, t ∈ ICON_SIZES ->
           exists images r,
             IcoParser.parse icoBuffer = Ok images
             /\ IcoParser.getBestMatch images t = Ok (Some r)
             /\ imageData !! t
                = match format r with
                  | png => Some (dataUrl_of (buffer r))
                  | bmp => dataUrl_of <$> sharp_png (buffer r)
                  end
  end.
Proof.
  intros icoBuffer accepted. unfold parse_ico_route.
  destruct (fileFilter file) eqn:Hf; cbn [negb]; [|done].
  case_decide as Hsize; [by split|].
  assert (Hacc : accepted) by (split; [done|fold icoBuffer in Hsize; lia]).
  unfold parse_ico_handler. fold icoBuffer.
  destruct (IcoParser.parse icoBuffer) as [images|e] eqn:Hp; cbn [bind].
  - destruct (parse_ok_nonempty icoBuffer images Hp) as [Hne Hcount].
    rewrite route_images_fold by done. cbn [bind].
    split; [exact Hacc|]. split.
    { intros Hm. apply parse_err_iff_malformed in Hm. by rewrite Hp in Hm. }
    split; [done|]. split; [by rewrite length_map|].
    split.
    + intros t Ht. rewrite foldl_opt_insert_lookup, decide_False by done.
      apply lookup_empty.
    + intros t Ht. exists images, (server_best images t).
      split; [done|]. split; [by apply server_best_eq|].
      rewrite foldl_opt_insert_lookup, decide_True by done.
      unfold route_entry. rewrite lookup_empty.
      destruct (format (server_best images t)); [done|].
      by destruct (sharp_png _).
  - split; [exact Hacc|]. split; [|done].
    apply parse_err_iff_malformed. by rewrite Hp.
Qed.

(** * The handlers of the designer page *)

Lemma fmap_map_same {A B} (f : A -> B) (g : A -> A) (l : list A) :
  (forall x, f (g x) = f x) -> f <$> map g l = f <$> l.
Proof.
  intros Hfg. induction l as [|x l IH]; [done|].
  cbn [map]. rewrite !fmap_cons. by rewrite Hfg, IH.
Qed.

Section HandlerProps.
Context {num : Type} `{JsNumber num}.
Implicit Types (st : IconDesigner.State num) (layer l : Layer num)
  (prev : list (Layer num)) (updates : PartialLayer num).

Lemma updateLayer_lookup (layerId : string) updates prev (i : nat) :
  IconDesigner.updateLayer layerId updates prev !! i
  = (fun layer => if decide (id layer = layerId)
                  then spread layer updates else layer) <$> prev !! i.
Proof. unfold IconDesigner.updateLayer. apply list_lookup_fmap. Qed.

(** In a list without repeated ids, an update changes one layer. *)
Lemma updateLayer_insert updates prev (i : nat) layer :
  NoDup (id <$> prev) -> prev !! i = Some layer ->
  IconDesigner.updateLayer (id layer) updates prev
  = <[i := spread layer updates]> prev.
Proof.
  intros Hnd Hi. apply list_eq. intros j. rewrite updateLayer_lookup.
  destruct (decide (j = i)) as [->|Hne].
  - rewrite list_lookup_insert_eq by (by eapply lookup_lt_Some).
    rewrite Hi. cbn. by rewrite decide_True.
  - rewrite list_lookup_insert_ne by done.
    destruct (prev !! j) as [l|] eqn:Hj; [|done]. cbn.
    rewrite decide_False; [done|]. intros Hid. apply Hne.
    apply (NoDup_lookup (id <$> prev) j i (id l)); [done| |].
    + by rewrite list_lookup_fmap, Hj.
    + by rewrite list_lookup_fmap, Hi, Hid.
Qed.

Lemma updateLayer_absent (layerId : string) updates prev :
  layerId ∉ id <$> prev ->
  IconDesigner.updateLayer layerId updates prev = prev.
Proof.
  intros Hno. unfold IconDesigner.updateLayer.
  rewrite <- (map_id prev) at 2. apply map_ext_in. intros l Hl.
  rewrite decide_False; [done|]. intros <-. apply Hno.
  apply list_elem_of_fmap. exists l. split; [done|]. by apply list_elem_of_In.
Qed.

Lemma updateLayer_elem (layerId : string) updates prev l' :
  l' ∈ IconDesigner.updateLayer layerId updates prev ->
  exists l, l ∈ prev
    /\ ((id l = layerId /\ l' = spread l updates)
        \/ (id l <> layerId /\ l' = l)).
Proof.
  intros (l & -> & Hl)%list_elem_of_fmap. exists l. split; [done|].
  case_decide; [left|right]; done.
Qed.

Lemma updateLayer_keeps {B} (f : Layer num -> B) (layerId : string)
    updates prev :
  (forall l, f (spread l updates) = f l) ->
  f <$> IconDesigner.updateLayer layerId updates prev = f <$> prev.
Proof.
  intros Hf. apply fmap_map_same. intros l. case_decide; [apply Hf|done].
Qed.

(** The layer that [find] returns, in a list without repeated ids. *)
Lemma userImageLayer_lookup st (i : nat) layer :
  NoDup (id <$> IconDesigner.layers st) ->
  IconDesigner.layers st !! i = Some layer ->
  id layer = "user-image"%string ->
  IconDesigner.userImageLayer st = Some layer.
Proof.
  unfold IconDesigner.userImageLayer.
  generalize (IconDesigner.layers st). intros ls. revert i.
  induction ls as [|l ls IH]; intros i Hnd Hi Hid; [done|].
  cbn [find]. destruct i as [|i].
  - injection Hi as ->. by rewrite bool_decide_eq_true_2.
  - rewrite fmap_cons in Hnd. apply NoDup_cons in Hnd as [Hl Hnd].
    rewrite bool_decide_eq_false_2; [by eapply IH|].
    intros Hl'. apply Hl. rewrite Hl', <- Hid.
    apply list_elem_of_fmap. exists layer. split; [done|].
    by eapply list_elem_of_lookup_2.
Qed.
End HandlerProps.

(** X20. The visibility toggle of a layer item, in a list of layers
    without repeated ids, changes that layer only. With a size selected
    it flips the visibility that the layer resolves to at that size and
    leaves the global flag and every other size alone; in the global view
    it flips the global flag, which changes the resolved visibility of
    exactly the sizes that have no entry of their own. *)
Theorem X20_toggleVisibility {num : Type} `{JsNumber num}
    (st : IconDesigner.State num) (i : nat) (layer : Layer num) :
  NoDup (id <$> IconDesigner.layers st) ->
  IconDesigner.layers st !! i = Some layer ->
  exists layer',
    IconDesigner.layers (IconDesigner.toggleVisibility st layer)
    = <[i := layer']> (IconDesigner.layers st)
    /\ id layer' = id layer /\ order layer' = order layer
    /\ match IconDesigner.sizeViewMode st with
       | only_size size =>
           visible layer' = visible layer
           /\ resolve_visible layer' size = negb (resolve_visible layer size)
           /\ forall s, s <> size ->
                resolve_visible layer' s = resolve_visible layer s
       | global =>
           visible layer' = negb (visible layer)
           /\ forall s,
                resolve_visible layer' s
                = match opt_lookup (visibilityBySize layer) s with
                  | Some v => v
                  | None => negb (resolve_visible layer s)
                  end
       end.
Proof.
  intros Hnd Hi.
  exists (spread layer
            (IconDesigner.toggle_updates (IconDesigner.sizeViewMode st) layer)).
  split; [by apply updateLayer_insert|].
  unfold IconDesigner.toggle_updates, resolve_visible.
  destruct (IconDesigner.sizeViewMode st) as [|size];
    (split; [reflexivity|]); (split; [reflexivity|]);
    cbn [spread visible visibilityBySize u_visible u_visibilityBySize default
         from_option Datatypes.id opt_lookup].
  - split; [reflexivity|]. intros s.
    by destruct (opt_lookup (visibilityBySize layer) s).
  - split; [reflexivity|]. split.
    + rewrite lookup_insert_eq. cbn. f_equal.
      unfold IconDesigner.isVisible.
      by destruct (visibilityBySize layer) as [m|]; cbn.
    + intros s Hs. rewrite lookup_insert_ne by done.
      destruct (visibilityBySize layer) as [m|]; cbn; [done|].
      by rewrite lookup_empty.
Qed.

Lemma initial_ids :
  NoDup (id <$> IconDesigner.layers initial_state).
Proof. apply (bool_decide_unpack _). by vm_compute. Qed.

Lemma X20_witness :
  NoDup (id <$> IconDesigner.layers initial_state)
  /\ IconDesigner.layers initial_state !! 1%nat = Some default_front_folder
  /\ exists layer',
       IconDesigner.layers
         (IconDesigner.toggleVisibility initial_state default_front_folder)
       = <[1%nat := layer']> (IconDesigner.layers initial_state)
       /\ visible layer' = false.
Proof.
  split; [exact initial_ids|]. split; [reflexivity|].
  destruct (X20_toggleVisibility initial_state 1 default_front_folder
              initial_ids eq_refl) as (layer' & Hl & _ & _ & Hv & _).
  exists layer'. split; [exact Hl|exact Hv].
Defined.

(** X21. [handleScaleChange] clamps the requested percentage to 10..200
    and stores the hundredth of it in the user image, in a list of layers
    without repeated ids. In the global view every size resolves to the
    new scale, the entries of single sizes being cleared; with a size
    selected only that size resolves to the new scale. The other layers
    are unchanged. *)
Theorem X21_handleScaleChange {num : Type} `{JsNumber num}
    (st : IconDesigner.State num) (i : nat) (layer : Layer num) (percent : Z) :
  NoDup (id <$> IconDesigner.layers st) ->
  IconDesigner.layers st !! i = Some layer ->
  id layer = "user-image"%string ->
  let st' := IconDesigner.handleScaleChange st percent in
  let clamped := Z.max 10 (Z.min 200 percent) in
  let newScale := div (of_Z clamped) (of_Z 100) in
  10 <= clamped <= 200
  /\ (10 <= percent <= 200 -> clamped = percent)
  /\ IconDesigner.imageScale st' = clamped
  /\ exists layer',
       IconDesigner.layers st' = <[i := layer']> (IconDesigner.layers st)
       /\ match IconDesigner.sizeViewMode st with
          | global => forall s, resolve_scale layer' s = newScale
          | only_size size =>
              resolve_scale layer' size = newScale
              /\ scale layer' = scale layer
              /\ forall s, s <> size ->
                   resolve_scale layer' s = resolve_scale layer s
          end.
Proof.
  intros Hnd Hi Hid st' clamped newScale.
  split; [unfold clamped; lia|]. split; [unfold clamped; lia|].
  pose proof (userImageLayer_lookup st i layer Hnd Hi Hid) as Hfind.
  unfold st', IconDesigner.handleScaleChange. fold clamped. fold newScale.
  destruct (IconDesigner.sizeViewMode st) as [|size]; cbn [IconDesigner.imageScale
    IconDesigner.setLayers IconDesigner.layers].
  - split; [reflexivity|]. eexists. rewrite <- Hid.
    split; [by apply updateLayer_insert|]. intros s. reflexivity.
  - split; [reflexivity|]. eexists. rewrite <- Hid.
    split; [by apply updateLayer_insert|].
    rewrite Hfind. unfold resolve_scale.
    cbn [spread scale scaleBySize u_scale u_scaleBySize default from_option
         Datatypes.id opt_lookup mbind option_bind].
    split; [by rewrite lookup_insert_eq|]. split; [reflexivity|].
    intros s Hs. rewrite lookup_insert_ne by done.
    destruct (scaleBySize layer) as [m|]; cbn; [done|]. by rewrite lookup_empty.
Qed.

Lemma X21_witness :
  NoDup (id <$> IconDesigner.layers initial_state)
  /\ IconDesigner.layers initial_state !! 2%nat = Some default_user_image
  /\ id default_user_image = "user-image"%string
  /\ IconDesigner.imageScale (IconDesigner.handleScaleChange initial_state 250)
     = 200.
Proof.
  split; [exact initial_ids|]. split; [reflexivity|]. split; [reflexivity|].
  destruct (X21_handleScaleChange initial_state 2 default_user_image 250
              initial_ids eq_refl eq_refl) as (_ & _ & Hs & _).
  exact Hs.
Defined.

Section UploadProps.
Context {num : Type} `{JsNumber num}.
Implicit Types (st : IconDesigner.State num) (layer l : Layer num).

Lemma resolve_image_cleared l (url : option string) (s : Z) images :
  sizeSpecificImages l = images -> imageUrl l = url ->
  resolve_image l s
  = match opt_lookup images s with Some u => Some u | None => url end.
Proof. intros <- <-. reflexivity. Qed.
End UploadProps.

(** X22. After [handleIcoUpload] (and [handleSvgUpload], the same text)
    the list has the same layers in the same places, with their ids,
    types and orders; automatic resizing is off; the two folder layers
    are visible at full opacity; and the user image is visible and
    resolves, at every size, to the entry of the uploaded record for the
    size and to no image where the record has none, its main image being
    cleared. *)
Theorem X22_handleIcoUpload {num : Type} `{JsNumber num}
    (st : IconDesigner.State num) (sizeImages : gmap Z string) :
  let st' := IconDesigner.handleIcoUpload st sizeImages in
  IconDesigner.autoResize st' = false
  /\ IconDesigner.handleSvgUpload st sizeImages = st'
  /\ id <$> IconDesigner.layers st' = id <$> IconDesigner.layers st
  /\ type <$> IconDesigner.layers st' = type <$> IconDesigner.layers st
  /\ order <$> IconDesigner.layers st' = order <$> IconDesigner.layers st
  /\ forall l', l' ∈ IconDesigner.layers st' ->
       (id l' = "user-image"%string ->
          visible l' = true
          /\ imageUrl l' = None
          /\ forall s, resolve_image l' s = sizeImages !! s)
       /\ (id l' = "back-folder"%string \/ id l' = "front-folder"%string ->
          visible l' = true /\ opacity l' = of_Z 100).
Proof.
  intros st'. split; [reflexivity|]. split; [reflexivity|].
  unfold st', IconDesigner.handleIcoUpload.
  cbn [IconDesigner.setLayers IconDesigner.layers IconDesigner.imagePosition
       IconDesigner.imageScale].
  split; [|split; [|split]].
  1-3: by rewrite !updateLayer_keeps.
  intros l' Hl'.
  apply updateLayer_elem in Hl' as (l2 & Hl2 & Hc3).
  apply updateLayer_elem in Hl2 as (l1 & Hl1 & Hc2).
  apply updateLayer_elem in Hl1 as (l & Hl & Hc1).
  destruct Hc1 as [[Hi1 ->]|[Hi1 ->]], Hc2 as [[Hi2 ->]|[Hi2 ->]],
    Hc3 as [[Hi3 ->]|[Hi3 ->]];
    cbn [spread id u_id default from_option Datatypes.id] in *;
    try congruence.
  all: split; [intros Hu|intros [Hf|Hf]]; try congruence.
  all: try (split; reflexivity).
  split; [reflexivity|]. split; [reflexivity|]. intros s.
  unfold resolve_image. cbn. by destruct (sizeImages !! s).
Qed.

(** X23. After [handleImageUpload] the user image is visible, takes the
    position and the scale of the controls, and resolves to the uploaded
    image at every size, its size-specific images being cleared; the
    other layers are the layers of before. *)
Theorem X23_handleImageUpload {num : Type} `{JsNumber num}
    (st : IconDesigner.State num) (url : string) :
  let st' := IconDesigner.handleImageUpload st url in
  id <$> IconDesigner.layers st' = id <$> IconDesigner.layers st
  /\ order <$> IconDesigner.layers st' = order <$> IconDesigner.layers st
  /\ forall l', l' ∈ IconDesigner.layers st' ->
       (id l' = "user-image"%string ->
          visible l' = true
          /\ (forall s, resolve_image l' s = Some url)
          /\ position l' = IconDesigner.position_of (IconDesigner.imagePosition st)
          /\ scale l' = div (of_Z (IconDesigner.imageScale st)) (of_Z 100))
       /\ (id l' <> "user-image"%string -> l' ∈ IconDesigner.layers st).
Proof.
  intros st'. unfold st', IconDesigner.handleImageUpload.
  cbn [IconDesigner.setLayers IconDesigner.layers].
  split; [by rewrite updateLayer_keeps|].
  split; [by rewrite updateLayer_keeps|].
  intros l' (l & Hl & [[Hi ->]|[Hi ->]])%updateLayer_elem.
  - split; [|intros Hne; exfalso; apply Hne; exact Hi].
    intros _. repeat (split; [reflexivity|]). reflexivity.
  - split; [intros Hu; done|]. by intros _.
Qed.

(** X24. [handleSizeSpecificImageUpload], in a list of layers without
    repeated ids, makes the user image visible and gives it the uploaded
    image at the size of the upload only: every other size resolves as
    before, and the main image is kept. Switching automatic resizing on
    afterwards clears the size-specific images: every size resolves to
    the main image again. *)
Theorem X24_size_specific_upload_then_auto_resize {num : Type} `{JsNumber num}
    (st : IconDesigner.State num) (i : nat) (layer : Layer num)
    (size : Z) (url : string) :
  NoDup (id <$> IconDesigner.layers st) ->
  IconDesigner.layers st !! i = Some layer ->
  id layer = "user-image"%string ->
  let st1 := IconDesigner.handleSizeSpecificImageUpload st size url in
  let st2 := IconDesigner.handleAutoResizeChange st1 true in
  exists layer1 layer2,
    IconDesigner.layers st1 = <[i := layer1]> (IconDesigner.layers st)
    /\ visible layer1 = true
    /\ imageUrl layer1 = imageUrl layer
    /\ resolve_image layer1 size = Some url
    /\ (forall s, s <> size -> resolve_image layer1 s = resolve_image layer s)
    /\ IconDesigner.layers st2 = <[i := layer2]> (IconDesigner.layers st)
    /\ IconDesigner.autoResize st2 = true
    /\ forall s, resolve_image layer2 s = imageUrl layer.
Proof.
  intros Hnd Hi Hid st1 st2.
  pose proof (userImageLayer_lookup st i layer Hnd Hi Hid) as Hfind.
  assert (Hlt : (i < length (IconDesigner.layers st))%nat)
    by (by eapply lookup_lt_Some).
  set (layer1 := spread layer
    (mkPartial None None (Some true) None None None (Some (imageUrl layer))
       (Some (Some (<[size := url]> (default ∅ (sizeSpecificImages layer)))))
       None None None None None None)).
  assert (H1 : IconDesigner.layers st1
               = <[i := layer1]> (IconDesigner.layers st)).
  { unfold st1, IconDesigner.handleSizeSpecificImageUpload. rewrite Hfind.
    cbn [IconDesigner.setLayers IconDesigner.layers mbind option_bind].
    rewrite <- Hid. by apply updateLayer_insert. }
  assert (Hnd1 : NoDup (id <$> IconDesigner.layers st1)).
  { rewrite H1, list_fmap_insert.
    rewrite list_insert_id; [done|]. by rewrite list_lookup_fmap, Hi. }
  assert (Hi1 : IconDesigner.layers st1 !! i = Some layer1).
  { rewrite H1. by apply list_lookup_insert_eq. }
  pose proof (userImageLayer_lookup st1 i layer1 Hnd1 Hi1 Hid) as Hfind1.
  exists layer1.
  exists (spread layer1
    (mkPartial None None None None None None None (Some None)
       None None None None None None)).
  split; [exact H1|]. split; [reflexivity|]. split; [reflexivity|].
  split.
  { unfold resolve_image. cbn. by rewrite lookup_insert_eq. }
  split.
  { intros s Hs. unfold resolve_image. cbn. rewrite lookup_insert_ne by done.
    destruct (sizeSpecificImages layer) as [m|]; cbn; [done|].
    by rewrite lookup_empty. }
  unfold st2, IconDesigner.handleAutoResizeChange. rewrite Hfind1.
  cbn [mbind option_bind sizeSpecificImages layer1 spread u_sizeSpecificImages
       default from_option Datatypes.id].
  cbn [IconDesigner.setLayers IconDesigner.layers IconDesigner.autoResize].
  split; [|split; [reflexivity|intros s; reflexivity]].
  pose proof (updateLayer_insert (mkPartial None None None None None None None
    (Some None) None None None None None None) _ i layer1 Hnd1 Hi1) as Hup.
  change (id layer1) with (id layer) in Hup. rewrite Hid in Hup. rewrite Hup.
  rewrite H1. by rewrite list_insert_insert_eq.
Qed.

Lemma X24_witness :
  NoDup (id <$> IconDesigner.layers initial_state)
  /\ IconDesigner.layers initial_state !! 2%nat = Some default_user_image
  /\ id default_user_image = "user-image"%string
  /\ exists layer1 layer2 : Layer Qc,
       IconDesigner.layers
         (IconDesigner.handleSizeSpecificImageUpload initial_state 32
            "data:image/png;base64,AAAA")
       = <[2%nat := layer1]> (IconDesigner.layers initial_state)
       /\ resolve_image layer1 32 = Some "data:image/png;base64,AAAA"%string
       /\ resolve_image layer2 32 = None.
Proof.
  split; [exact initial_ids|]. split; [reflexivity|]. split; [reflexivity|].
  destruct (X24_size_specific_upload_then_auto_resize initial_state 2
              default_user_image 32 "data:image/png;base64,AAAA"
              initial_ids eq_refl eq_refl)
    as (layer1 & layer2 & H1 & _ & _ & Hr & _ & _ & _ & H2).
  exists layer1, layer2. split; [exact H1|]. split; [exact Hr|]. exact (H2 32).
Defined.

Lemma grid_position_formula (position : Z) :
  IconDesigner.grid_position position
  = if decide (0 <= position < 9)
    then (64 * (1 + position mod 3), 64 * (1 + position / 3))
    else (128, 128).
Proof.
  unfold IconDesigner.grid_position.
  destruct (decide (0 <= position < 9)) as [Hr|Hr].
  - rewrite decide_True by lia.
    assert (Hc : position = 0 \/ position = 1 \/ position = 2 \/ position = 3
                 \/ position = 4 \/ position = 5 \/ position = 6
                 \/ position = 7 \/ position = 8) by lia.
    destruct Hc as [->|[->|[->|[->|[->|[->|[->|[->| ->]]]]]]]]; reflexivity.
  - case_decide as Hp; [|done].
    rewrite (proj2 (lookup_ge_None IconDesigner.positions (Z.to_nat position)));
      [done|]. cbn. lia.
Qed.

(** X25. [handlePositionChange] takes the cell of the 3x3 grid for an
    index from 0 to 8, column index mod 3 and row index div 3, with the
    coordinates 64, 128 and 192, and the centre (128, 128) for any other
    index; the index is recorded as given. In a list of layers without
    repeated ids it moves the user image only: in the global view every
    size resolves to the new position, the entries of single sizes being
    cleared; with a size selected only that size does. *)
Theorem X25_handlePositionChange {num : Type} `{JsNumber num}
    (st : IconDesigner.State num) (i : nat) (layer : Layer num) (index : Z) :
  NoDup (id <$> IconDesigner.layers st) ->
  IconDesigner.layers st !! i = Some layer ->
  id layer = "user-image"%string ->
  let st' := IconDesigner.handlePositionChange st index in
  let cell := if decide (0 <= index < 9)
              then (64 * (1 + index mod 3), 64 * (1 + index / 3))
              else (128, 128) in
  IconDesigner.imagePosition st' = cell
  /\ IconDesigner.selectedPositionIndex st' = index
  /\ exists layer',
       IconDesigner.layers st' = <[i := layer']> (IconDesigner.layers st)
       /\ match IconDesigner.sizeViewMode st with
          | global =>
              forall s, resolve_position layer' s = IconDesigner.position_of cell
          | only_size size =>
              resolve_position layer' size = IconDesigner.position_of cell
              /\ position layer' = position layer
              /\ forall s, s <> size ->
                   resolve_position layer' s = resolve_position layer s
          end.
Proof.
  intros Hnd Hi Hid st' cell.
  pose proof (userImageLayer_lookup st i layer Hnd Hi Hid) as Hfind.
  unfold st', IconDesigner.handlePositionChange.
  rewrite grid_position_formula. fold cell.
  cbn [IconDesigner.setLayers IconDesigner.layers IconDesigner.imagePosition
       IconDesigner.selectedPositionIndex].
  split; [reflexivity|]. split; [reflexivity|].
  eexists. rewrite <- Hid. split; [by apply updateLayer_insert|].
  unfold IconDesigner.position_updates. rewrite Hfind.
  destruct (IconDesigner.sizeViewMode st) as [|size].
  - intros s. reflexivity.
  - unfold resolve_position.
    cbn [spread position positionBySize u_position u_positionBySize default
         from_option Datatypes.id opt_lookup mbind option_bind].
    split; [by rewrite lookup_insert_eq|]. split; [reflexivity|].
    intros s Hs. rewrite lookup_insert_ne by done.
    destruct (positionBySize layer) as [m|]; cbn; [done|].
    by rewrite lookup_empty.
Qed.

Lemma X25_witness :
  NoDup (id <$> IconDesigner.layers initial_state)
  /\ IconDesigner.layers initial_state !! 2%nat = Some default_user_image
  /\ id default_user_image = "user-image"%string
  /\ IconDesigner.imagePosition
       (IconDesigner.handlePositionChange initial_state 5) = (192, 128).
Proof.
  split; [exact initial_ids|]. split; [reflexivity|]. split; [reflexivity|].
  destruct (X25_handlePositionChange initial_state 2 default_user_image 5
              initial_ids eq_refl eq_refl) as (Hp & _).
  exact Hp.
Defined.

(** * Invariants of the designer page *)

Lemma percent_in_schema (c : Z) :
  10 <= c <= 200 -> scale_in_schema (div (of_Z c) (of_Z 100)).
Proof.
  intros Hc. unfold scale_in_schema. cbn [div of_Z Qc_JsNumber].
  assert (E : (Q2Qc (inject_Z c) / Q2Qc (inject_Z 100))%Qc = Q2Qc (c # 100)).
  { apply Qc_is_canon. unfold Qcdiv, Qcmult, Qcinv. cbn [this Q2Qc].
    rewrite !Qred_correct. unfold Qeq, Qmult, Qinv. cbn. lia. }
  rewrite E. unfold Qcle. cbn [this Q2Qc]. rewrite !Qred_correct.
  unfold Qle. cbn. lia.
Qed.

Lemma one_in_schema : scale_in_schema (of_Z 1).
Proof.
  unfold scale_in_schema, Qcle. split; by vm_compute.
Qed.

Lemma in_schema_truthy (v : Qc) : scale_in_schema v -> truthy v = true.
Proof.
  intros [Hlo _]. cbn [truthy Qc_JsNumber].
  apply negb_true_iff. apply not_true_iff_false. intros He.
  apply Qeq_bool_iff in He.
  unfold Qcle in Hlo. cbn [this Q2Qc] in Hlo. rewrite Qred_correct in Hlo.
  rewrite He in Hlo. unfold Qle in Hlo. cbn in Hlo. lia.
Qed.

(** ** The shape of the stack *)

Section Shape.
Context {num : Type} `{JsNumber num}.
Implicit Types (st : IconDesigner.State num) (l : Layer num)
  (ls : list (Layer num)) (u : PartialLayer num).

Lemma shape_updateLayer (layerId : string) u ls :
  u_id u = None -> u_type u = None -> u_order u = None ->
  stack_shape ls -> stack_shape (IconDesigner.updateLayer layerId u ls).
Proof.
  intros Hi Ht Ho (Hids & Htypes & Horders). unfold stack_shape.
  rewrite !updateLayer_keeps; [done|..]; intros l; unfold spread; cbn;
    by rewrite ?Hi, ?Ht, ?Ho.
Qed.

Lemma shape_NoDup ls : stack_shape ls -> NoDup (id <$> ls).
Proof.
  intros (-> & _). apply (bool_decide_unpack _). by vm_compute.
Qed.

Lemma swap_orders_self l d : id l = id d -> l = d -> swap_orders d d l = l.
Proof.
  intros _ ->. unfold swap_orders. rewrite decide_True by done.
  apply set_order_id.
Qed.

Lemma shape_reorder (dragIndex hoverIndex : nat) ls :
  stack_shape ls -> stack_shape (reorderLayers ls dragIndex hoverIndex).
Proof.
  intros Hs. pose proof (shape_NoDup ls Hs) as Hnd.
  destruct Hs as (Hids & Htypes & Horders).
  set (sorted := js_sort (fun a b => order b - order a) ls).
  destruct (sorted !! dragIndex) as [d|] eqn:Hd;
    [|unfold reorderLayers; fold sorted; by rewrite Hd].
  destruct (sorted !! hoverIndex) as [t|] eqn:Ht;
    [|unfold reorderLayers; fold sorted; by rewrite Hd, Ht].
  rewrite (reorderLayers_unfold ls dragIndex hoverIndex d t Hd Ht).
  assert (Hdin : d ∈ ls).
  { apply (js_sort_elem_of (fun a b => order b - order a)).
    by eapply list_elem_of_lookup_2. }
  assert (Htin : t ∈ ls).
  { apply (js_sort_elem_of (fun a b => order b - order a)).
    by eapply list_elem_of_lookup_2. }
  assert (Hsame : forall l, same_but_order l (swap_orders d t l))
    by (intros l; apply swap_orders_same).
  unfold stack_shape. split; [|split].
  - rewrite <- Hids. apply fmap_map_same. intros l.
    symmetry. by destruct (Hsame l) as (? & _).
  - rewrite <- Htypes. apply fmap_map_same. intros l.
    symmetry. by destruct (Hsame l) as (_ & ? & _).
  - rewrite <- Horders. destruct (decide (id d = id t)) as [Hdt|Hne].
    + assert (d = t) as -> by (by apply (id_inj_on ls)).
      assert (Hid : map (swap_orders t t) ls = ls).
      { rewrite <- (map_id ls) at 2. apply map_ext_in. intros l Hl.
        unfold swap_orders. case_decide as Hlt; [|done].
        assert (l = t) as ->.
        { apply (id_inj_on ls); [done| |done|done]. by apply list_elem_of_In. }
        apply set_order_id. }
      by rewrite Hid.
    + apply swap_orders_perm; [done|done|done|]. by intros ->.
Qed.

Lemma shape_toggle_updates (mode : SizeViewMode) l :
  u_id (IconDesigner.toggle_updates mode l) = None
  /\ u_type (IconDesigner.toggle_updates mode l) = None
  /\ u_order (IconDesigner.toggle_updates mode l) = None.
Proof. by destruct mode. Qed.

Lemma shape_position_updates st (p : Z * Z) :
  u_id (IconDesigner.position_updates st p) = None
  /\ u_type (IconDesigner.position_updates st p) = None
  /\ u_order (IconDesigner.position_updates st p) = None.
Proof.
  unfold IconDesigner.position_updates.
  by destruct (IconDesigner.sizeViewMode st).
Qed.

Lemma shape_step st (a : IconDesigner.Action) :
  stack_shape (IconDesigner.layers st) ->
  stack_shape (IconDesigner.layers (IconDesigner.step st a)).
Proof.
  intros Hs. destruct a as
    [url|sz url|newAutoResize|sizeImages|sizeImages|layerId c|layerId b|grid|percent|axis value|dragIndex hoverIndex|index|index value|mode];
    cbn [IconDesigner.step].
  - by apply shape_updateLayer.
  - by apply shape_updateLayer.
  - unfold IconDesigner.handleAutoResizeChange.
    destruct newAutoResize; [|done].
    destruct (_ ≫= _); [|done]. by apply shape_updateLayer.
  - by repeat apply shape_updateLayer.
  - by repeat apply shape_updateLayer.
  - by apply shape_updateLayer.
  - by apply shape_updateLayer.
  - destruct (shape_position_updates st (IconDesigner.grid_position grid))
      as (? & ? & ?).
    by apply shape_updateLayer.
  - unfold IconDesigner.handleScaleChange.
    destruct (IconDesigner.sizeViewMode st); by apply shape_updateLayer.
  - unfold IconDesigner.handleGranularPositionChange.
    cbn [IconDesigner.setLayers IconDesigner.layers].
    match goal with
    | |- context [IconDesigner.position_updates st ?p] =>
        destruct (shape_position_updates st p) as (? & ? & ?)
    end.
    by apply shape_updateLayer.
  - by apply shape_reorder.
  - destruct (_ !! index) as [layer|]; [|done].
    destruct (shape_toggle_updates (IconDesigner.sizeViewMode st) layer)
      as (? & ? & ?).
    by apply shape_updateLayer.
  - destruct (_ !! index) as [layer|]; [|done]. by apply shape_updateLayer.
  - done.
Qed.

Lemma shape_initial : stack_shape (IconDesigner.layers (IconDesigner.initial (num := num))).
Proof. unfold stack_shape. by repeat split. Qed.

Lemma shape_run (actions : list IconDesigner.Action) :
  stack_shape (IconDesigner.layers (IconDesigner.run actions)).
Proof.
  unfold IconDesigner.run.
  induction actions as [|a actions IH] using rev_ind; [apply shape_initial|].
  rewrite foldl_app. cbn [foldl]. by apply shape_step.
Qed.
End Shape.

(** X26. In every state that the events of the page reach from the
    initial state, the stack has the three layers of the start, in the
    same places, with the same ids and types, and their orders are 0, 1
    and 2 in some arrangement: no event adds or removes a layer, no two
    layers share an id or an order, and exactly one layer is the user
    image. *)
Theorem X26_stack_shape_invariant {num : Type} `{JsNumber num}
    (actions : list (IconDesigner.Action (num := num))) :
  let ls := IconDesigner.layers (IconDesigner.run actions) in
  id <$> ls = ["back-folder"; "front-folder"; "user-image"]%string
  /\ type <$> ls = [back_folder; front_folder; user_image]
  /\ order <$> ls ≡ₚ [0; 1; 2]
  /\ length ls = 3%nat
  /\ NoDup (id <$> ls)
  /\ NoDup (order <$> ls).
Proof.
  intros ls. destruct (shape_run actions) as (Hids & Htypes & Horders).
  fold ls in Hids, Htypes, Horders.
  split; [done|]. split; [done|]. split; [done|].
  split; [by rewrite <- (length_fmap id), Hids|].
  split; [rewrite Hids; apply (bool_decide_unpack _); by vm_compute|].
  rewrite Horders. apply (bool_decide_unpack _). by vm_compute.
Qed.

(** ** The bounds of the scales and of the positions *)

Section Bounds.
Implicit Types (st : IconDesigner.State Qc) (l : Layer Qc)
  (ls : list (Layer Qc)) (u : PartialLayer Qc).

Lemma bounds_spread l u :
  layer_in_bounds l ->
  (forall v, u_scale u = Some v -> scale_in_schema v) ->
  (forall p, u_position u = Some p -> position_in_canvas p) ->
  (forall m s v, u_scaleBySize u = Some (Some m) -> m !! s = Some v ->
     scale_in_schema v) ->
  (forall m s p, u_positionBySize u = Some (Some m) -> m !! s = Some p ->
     position_in_canvas p) ->
  layer_in_bounds (spread l u).
Proof.
  intros (Hs & Hp & Hss & Hps) Hus Hup Huss Hups.
  unfold layer_in_bounds, spread. cbn [scale position scaleBySize positionBySize].
  split; [destruct (u_scale u); cbn; auto|].
  split; [destruct (u_position u); cbn; auto|].
  split.
  - destruct (u_scaleBySize u) as [[m|]|] eqn:E; cbn; [eauto|done|exact Hss].
  - destruct (u_positionBySize u) as [[m|]|] eqn:E; cbn; [eauto|done|exact Hps].
Qed.

Lemma bounds_updateLayer (layerId : string) u ls :
  (forall l, l ∈ ls -> layer_in_bounds l -> layer_in_bounds (spread l u)) ->
  Forall layer_in_bounds ls ->
  Forall layer_in_bounds (IconDesigner.updateLayer layerId u ls).
Proof.
  intros Hu Hls. apply Forall_forall.
  intros l' (l & Hl & [[_ ->]|[_ ->]])%updateLayer_elem;
    rewrite Forall_forall in Hls; auto.
Qed.

Lemma userImageLayer_elem st l :
  IconDesigner.userImageLayer st = Some l -> l ∈ IconDesigner.layers st.
Proof.
  unfold IconDesigner.userImageLayer. intros Hf.
  apply find_some in Hf as [Hin _]. by apply list_elem_of_In.
Qed.

Lemma current_scales st (s : Z) (v : Qc) :
  Forall layer_in_bounds (IconDesigner.layers st) ->
  default ∅ (IconDesigner.userImageLayer st ≫= scaleBySize) !! s = Some v ->
  scale_in_schema v.
Proof.
  intros Hls. destruct (IconDesigner.userImageLayer st) as [l|] eqn:Hf;
    [|cbn; by rewrite lookup_empty].
  change (Some l ≫= scaleBySize) with (scaleBySize l).
  apply userImageLayer_elem in Hf. rewrite Forall_forall in Hls.
  destruct (Hls l Hf) as (_ & _ & Hss & _).
  destruct (scaleBySize l) as [m|] eqn:Hm; [|cbn; by rewrite lookup_empty].
  change (default ∅ (Some m)) with m.
  intros Hv. by apply (Hss s).
Qed.

Lemma current_positions st (s : Z) (p : Position Qc) :
  Forall layer_in_bounds (IconDesigner.layers st) ->
  default ∅ (IconDesigner.userImageLayer st ≫= positionBySize) !! s = Some p ->
  position_in_canvas p.
Proof.
  intros Hls. destruct (IconDesigner.userImageLayer st) as [l|] eqn:Hf;
    [|cbn; by rewrite lookup_empty].
  change (Some l ≫= positionBySize) with (positionBySize l).
  apply userImageLayer_elem in Hf. rewrite Forall_forall in Hls.
  destruct (Hls l Hf) as (_ & _ & _ & Hps).
  destruct (positionBySize l) as [m|] eqn:Hm; [|cbn; by rewrite lookup_empty].
  change (default ∅ (Some m)) with m.
  intros Hp. by apply (Hps s).
Qed.

Lemma position_of_in_canvas (p : Z * Z) :
  0 <= p.1 <= 256 -> 0 <= p.2 <= 256 ->
  position_in_canvas (IconDesigner.position_of p).
Proof. intros Hx Hy. exists p.1, p.2. split; [reflexivity|]. split; lia. Qed.

Lemma grid_position_range (grid : Z) :
  0 <= (IconDesigner.grid_position grid).1 <= 256
  /\ 0 <= (IconDesigner.grid_position grid).2 <= 256.
Proof.
  rewrite grid_position_formula. case_decide as Hr; cbn [fst snd]; [|lia].
  pose proof (Z.mod_pos_bound grid 3 ltac:(lia)).
  assert (0 <= grid / 3 <= 2).
  { split; [apply Z.div_pos; lia|].
    apply Z.lt_succ_r, Z.div_lt_upper_bound; lia. }
  lia.
Qed.

(** The simple updates: those that carry no scale and no position. *)
Lemma bounds_plain (layerId : string) u ls :
  u_scale u = None -> u_position u = None ->
  u_scaleBySize u = None -> u_positionBySize u = None ->
  Forall layer_in_bounds ls ->
  Forall layer_in_bounds (IconDesigner.updateLayer layerId u ls).
Proof.
  intros H1 H2 H3 H4. apply bounds_updateLayer. intros l _ Hl.
  apply bounds_spread; [done|..]; intros; congruence.
Qed.

Lemma bounds_position_updates st (p : Z * Z) :
  0 <= p.1 <= 256 -> 0 <= p.2 <= 256 ->
  Forall layer_in_bounds (IconDesigner.layers st) ->
  Forall layer_in_bounds
    (IconDesigner.updateLayer "user-image"
       (IconDesigner.position_updates st p) (IconDesigner.layers st)).
Proof.
  intros Hx Hy Hls. apply bounds_updateLayer; [|done]. intros l _ Hl.
  unfold IconDesigner.position_updates.
  destruct (IconDesigner.sizeViewMode st) as [|size];
    (apply bounds_spread; [done|..]); cbn; try (intros; congruence).
  - intros q [= <-]. by apply position_of_in_canvas.
  - intros m s q [= <-] Hq.
    apply lookup_insert_Some in Hq as [[_ <-]|[_ Hq]].
    + by apply position_of_in_canvas.
    + by eapply current_positions.
Qed.

Lemma bounds_reorder (dragIndex hoverIndex : nat) ls :
  Forall layer_in_bounds ls ->
  Forall layer_in_bounds (reorderLayers ls dragIndex hoverIndex).
Proof.
  intros Hls. unfold reorderLayers.
  destruct (_ !! dragIndex) as [d|]; [|done].
  destruct (_ !! hoverIndex) as [t|]; [|done].
  apply Forall_forall. intros l' (l & -> & Hl)%list_elem_of_fmap.
  rewrite Forall_forall in Hls. specialize (Hls l Hl).
  repeat case_decide; exact Hls.
Qed.

Lemma invariant_initial : page_invariant IconDesigner.initial.
Proof.
  split; [unfold controls_in_range; cbn; lia|].
  assert (Hp : position_in_canvas (mkPosition (of_Z 128) (of_Z 128) : Position Qc)).
  { exists 128, 128. split; [reflexivity|lia]. }
  assert (Hl : forall i t c o,
    layer_in_bounds (mkLayer i t true (of_Z 100) c false None None
      (mkPosition (of_Z 128) (of_Z 128)) (of_Z 1) o None None None)).
  { intros. split; [apply one_in_schema|]. split; [exact Hp|].
    split; intros ? ? Hn; discriminate Hn. }
  unfold IconDesigner.initial, createDefaultLayers. cbn [IconDesigner.layers].
  repeat (apply Forall_cons; split; [apply Hl|]). by apply Forall_nil.
Qed.

Lemma invariant_step st (a : IconDesigner.Action) :
  page_invariant st -> page_invariant (IconDesigner.step st a).
Proof.
  intros [Hc Hls]. pose proof Hc as (Hscale & Hx & Hy).
  assert (Hnow : scale_in_schema
                   (div (of_Z (IconDesigner.imageScale st)) (of_Z 100)))
    by (by apply percent_in_schema).
  assert (Hpos : position_in_canvas
                   (IconDesigner.position_of (IconDesigner.imagePosition st)))
    by (by apply position_of_in_canvas).
  destruct a as
    [url|sz url|newAutoResize|sizeImages|sizeImages|layerId c|layerId b|grid|percent|axis value|dragIndex hoverIndex|index|index value|mode];
    cbn [IconDesigner.step].
  - split; [exact Hc|]. apply bounds_updateLayer; [|done]. intros l _ Hl.
    apply bounds_spread; [done|..]; cbn; try (intros; congruence).
    by intros v [= <-].
  - split; [exact Hc|]. by apply bounds_plain.
  - unfold IconDesigner.handleAutoResizeChange.
    destruct newAutoResize; [|by split].
    destruct (_ ≫= _); [|by split].
    split; [exact Hc|]. by apply bounds_plain.
  - split; [exact Hc|].
    apply bounds_updateLayer.
    2:{ by repeat apply bounds_plain. }
    intros l _ Hl.
    apply bounds_spread; [done|..]; cbn; try (intros; congruence).
    by intros v [= <-].
  - split; [exact Hc|].
    apply bounds_updateLayer.
    2:{ by repeat apply bounds_plain. }
    intros l _ Hl.
    apply bounds_spread; [done|..]; cbn; try (intros; congruence).
    by intros v [= <-].
  - split; [exact Hc|]. by apply bounds_plain.
  - split; [exact Hc|]. by apply bounds_plain.
  - destruct (grid_position_range grid) as [Hgx Hgy].
    unfold IconDesigner.handlePositionChange.
    split; [by split|]. cbn [IconDesigner.setLayers IconDesigner.layers].
    by apply bounds_position_updates.
  - unfold IconDesigner.handleScaleChange.
    set (clamped := Z.max 10 (Z.min 200 percent)).
    assert (Hcl : 10 <= clamped <= 200) by (unfold clamped; lia).
    pose proof (percent_in_schema clamped Hcl) as Hnew.
    destruct (IconDesigner.sizeViewMode st) as [|size] eqn:Hmode;
      (split; [by split|]);
      cbn [IconDesigner.setLayers IconDesigner.layers];
      (apply bounds_updateLayer; [|done]); intros l _ Hl;
      (apply bounds_spread; [done|..]); cbn; try (intros; congruence).
    + by intros v [= <-].
    + intros m s v [= <-] Hv.
      apply lookup_insert_Some in Hv as [[_ <-]|[_ Hv]]; [done|].
      by eapply current_scales.
  - unfold IconDesigner.handleGranularPositionChange.
    set (clamped := Z.max 0 (Z.min 256 value)).
    assert (Hcl : 0 <= clamped <= 256) by (unfold clamped; lia).
    destruct axis; (split; [by split|]);
      cbn [IconDesigner.setLayers IconDesigner.layers];
      by apply bounds_position_updates.
  - split; [exact Hc|]. by apply bounds_reorder.
  - destruct (_ !! index) as [layer|]; [|by split].
    split; [exact Hc|]. apply bounds_plain; [..|done];
      by destruct (IconDesigner.sizeViewMode st).
  - destruct (_ !! index) as [layer|]; [|by split].
    split; [exact Hc|]. by apply bounds_plain.
  - by split.
Qed.

Lemma invariant_run (actions : list IconDesigner.Action) :
  page_invariant (IconDesigner.run actions).
Proof.
  unfold IconDesigner.run.
  induction actions as [|a actions IH] using rev_ind; [apply invariant_initial|].
  rewrite foldl_app. cbn [foldl]. by apply invariant_step.
Qed.
End Bounds.

(** X27. In every state that the events of the page reach from the
    initial state, with exact arithmetic: the scale control is between 10
    and 200 and the position controls between 0 and 256; every layer has
    a scale between 0.1 and 2, the bounds of the schema, for all sizes
    and for each size that has its own; every position, for all sizes or
    for one, has whole coordinates between 0 and 256. So a scale of one
    size is never zero, and the renderers, which read it with [||], use
    it. *)
Theorem X27_page_bounds_invariant
    (actions : list (IconDesigner.Action (num := Qc))) :
  let st := IconDesigner.run actions in
  10 <= IconDesigner.imageScale st <= 200
  /\ 0 <= (IconDesigner.imagePosition st).1 <= 256
  /\ 0 <= (IconDesigner.imagePosition st).2 <= 256
  /\ forall layer, layer ∈ IconDesigner.layers st ->
       scale_in_schema (scale layer)
       /\ position_in_canvas (position layer)
       /\ forall size,
            scale_in_schema (resolve_scale layer size)
            /\ position_in_canvas (resolve_position layer size)
            /\ scale_overrides_truthy layer size
            /\ or_num (opt_lookup (scaleBySize layer) size) (scale layer)
               = resolve_scale layer size.
Proof.
  intros st. destruct (invariant_run actions) as [(Hs & Hx & Hy) Hls].
  fold st in Hs, Hx, Hy, Hls.
  split; [done|]. split; [done|]. split; [done|].
  intros layer Hl. rewrite Forall_forall in Hls.
  destruct (Hls layer Hl) as (Hsc & Hp & Hss & Hps).
  split; [done|]. split; [done|]. intros size.
  unfold resolve_scale, resolve_position, scale_overrides_truthy, or_num.
  destruct (opt_lookup (scaleBySize layer) size) as [v|] eqn:Hv;
    cbn [from_option Datatypes.id].
  - pose proof (Hss size v Hv) as Hin.
    split; [done|]. split.
    { destruct (opt_lookup (positionBySize layer) size) eqn:Hq; cbn; eauto. }
    split; [intros v' [= <-]; by apply in_schema_truthy|].
    by rewrite in_schema_truthy.
  - split; [done|]. split.
    { destruct (opt_lookup (positionBySize layer) size) eqn:Hq; cbn; eauto. }
    split; [intros v' Hn; discriminate Hn|done].
Qed.

(** * The color picker and the fill of the renderers *)


(** * The upload form *)

Lemma Ok_inj {A} (a b : A) : Ok a = Ok b -> a = b.
Proof. by intros [= ->]. Qed.

(** X29. [handleFileSelect] with the second client reader. A file of the
    type [application/octet-stream] passes the gate of the form as an
    ICO file whatever its name; when its name does not end in [.ico] the
    reader rejects it, and the upload always fails. When the form hands
    a record to [onIcoUpload], the name of the file ends in [.ico], its
    bytes are a well-formed container, and the record has an entry for
    each of the seven canonical sizes and for nothing else. A file of
    more than 10 MB reaches no reader. *)
Theorem X29_handleFileSelect {Image : Type}
    (blobToDataURL : string -> list byte -> option string)
    (loadImage : string -> option Image) (resizeImage : Image -> Z -> string)
    (putImageData_toDataURL : Z -> Z -> list byte -> string)
    (createFallbackImage : Z -> string)
    (fileToDataUrl : File -> option string) (u : Upload) :
  let select :=
    handleFileSelect
      (parseIcoFile_v2 blobToDataURL loadImage resizeImage
         putImageData_toDataURL createFallbackImage) fileToDataUrl in
  let name := ClientIcoProcessor.toLowerCase (file_name (up_file u)) in
  let bytes := file_bytes (up_file u) in
  (up_type u = "application/octet-stream"%string ->
   ClientIcoProcessor.endsWith name ".ico" = false ->
   Z.of_nat (length bytes) <= 10 * 1024 * 1024 ->
   select u = UploadFailed)
  /\ (forall sizeImages, select u = IcoProcessed sizeImages ->
        ClientIcoProcessor.endsWith name ".ico" = true
        /\ ~ ico_malformed bytes
        /\ forall t, is_Some (sizeImages !! t) <-> t ∈ ICON_SIZES)
  /\ (10 * 1024 * 1024 < Z.of_nat (length bytes) ->
        select u = FileTooLarge \/ select u = InvalidFileType).
Proof.
  intros select name bytes. unfold select, handleFileSelect.
  fold name bytes. split; [|split].
  - intros Ht Hn Hsize. rewrite Ht, Hn. rewrite String.eqb_refl. cbn [orb negb].
    rewrite !andb_false_r. cbn [andb].
    rewrite decide_False by lia.
    unfold parseIcoFile_v2, ClientIcoProcessor.parseIcoFile,
      ClientIcoProcessor.validateIcoFile.
    fold name. by rewrite Hn.
  - intros sizeImages.
    destruct (negb _ && negb _ && negb _); [discriminate|].
    case_decide; [discriminate|].
    destruct (_ || _) eqn:Hico; [|destruct (fileToDataUrl _); discriminate].
    destruct (parseIcoFile_v2 _ _ _ _ _ _) as [m|e] eqn:Hp; [|discriminate].
    intros [= <-]. unfold parseIcoFile_v2 in Hp.
    destruct (ClientIcoProcessor.parseIcoFile (up_file u)) as [images|e] eqn:Hs;
      [|discriminate Hp].
    cbn [bind] in Hp.
    assert (Hok : ~ is_Err (ClientIcoProcessor.parseIcoFile (up_file u)))
      by (rewrite Hs; intros Hf; exact Hf).
    rewrite parseIcoFile_v2_err_iff in Hok. fold name bytes in Hok.
    split; [destruct (ClientIcoProcessor.endsWith name ".ico"); tauto|].
    split; [tauto|].
    assert (Hne : images <> []).
    { eapply parse_ok_nonempty, client_parse_ok. right. exact Hs. }
    rewrite sizeImages_v2_fold in Hp by done. apply Ok_inj in Hp. rewrite <- Hp.
    intros t. rewrite foldl_insert_lookup. case_decide; [by split; eauto|].
    rewrite lookup_empty. split; [intros [? ?]; done|done].
  - intros Hbig. destruct (negb _ && negb _ && negb _); [by right|].
    left. by rewrite decide_True.
Qed.

(** * The preview and the export *)

Section SameCalls.
Context {num : Type} `{JsNumber num} {Image : Type}.
Context (loadImage : string -> option Image).
Implicit Types (layer : Layer num) (layers : list (Layer num)).







End SameCalls.


